(** * tx2-ecs: reactive graph, component store, query cache, scheduler, world

    A shallow embedding of the runtime core of tx2-ecs
    ([reactive/signal.ts], [core/entity.ts], [core/component.ts],
    [core/query.ts], [core/system.ts], [core/error.ts], [core/world.ts])
    and the properties of the specification that were checked on it.

    Conventions.
    - A JavaScript [Set] or [Map] is an insertion-ordered list (of keys,
      or of key/value pairs) without duplicate keys: iteration order is
      observable in the source ([for ... of], [Array.from]).
    - Objects that the source shares by reference (reactive nodes,
      queries, systems) live in a store and are named by a handle.
    - Code that can throw returns an [outcome]; code whose recursion is
      not structural takes fuel, and running out of fuel is an outcome
      of its own, never confused with a result. *)

From Stdlib Require Import ZArith QArith String Ascii Lia Lqa List Sorted.
From stdpp Require Import base decidable option list strings.

#[global] Set Warnings "-clear-no-such-hyp".

(** ** Insertion-ordered sets, as [Set<T>] iterates them *)

Module JsSet.
Section Ops.
Context {A : Type} `{EqDecision A}.

(** [s.add(x)]: appended when absent, untouched when present. *)
Definition add (x : A) (s : list A) : list A :=
  if bool_decide (x ∈ s) then s else s ++ [x].

(** [s.delete(x)]. *)
Definition delete (x : A) (s : list A) : list A :=
  filter (λ y, y ≠ x) s.

(** [s.has(x)]. *)
Definition has (x : A) (s : list A) : bool := bool_decide (x ∈ s).

End Ops.
End JsSet.

(** ** The reactive graph ([reactive/signal.ts]) *)

Module Reactive.

(** Values held by signals and computeds. Numbers are the integers plus
    NaN; [VObj] is an object reference, equal only to itself. *)
Inductive value : Type :=
| VUndefined
| VNum (z : Z)
| VNaN
| VObj (addr : nat).

(** [Object.is]: identity on references, NaN equal to NaN. *)
Definition Object_is (a b : value) : bool :=
  match a, b with
  | VUndefined, VUndefined => true
  | VNum x, VNum y => (x =? y)%Z
  | VNaN, VNaN => true
  | VObj p, VObj q => (p =? q)%nat
  | _, _ => false
  end.

(** [===], for contrast: NaN differs from itself. *)
Definition strict_equals (a b : value) : bool :=
  match a, b with
  | VNaN, _ | _, VNaN => false
  | _, _ => Object_is a b
  end.

Inductive exn : Type :=
| ErrUser (v : value)          (* thrown by client code *)
| ErrComputedUndefined         (* 'Computed value is undefined' *)
| ErrType.                     (* a call the class does not have *)

(** Client closures: what a [compute] or [effect] function, or the
    callback of [batch] and [untrack], does with the reactive API. The
    continuation receives what the call returned. *)
#[warnings="-register-all"]
Inductive prog : Type :=
| Ret (v : value)
| Throw (v : value)
| Get (n : nat) (k : value → prog)
| Peek (n : nat) (k : value → prog)
| SetSig (n : nat) (v : value) (k : prog)
| Dispose (n : nat) (k : prog)
| Batch (body : prog) (k : value → prog)
| Untrack (body : prog) (k : value → prog)
| TryCatch (body : prog) (handler : exn → prog) (k : value → prog)
| NewSignal (v : value) (k : nat → prog)
| NewComputed (compute : prog) (k : nat → prog)
| NewEffect (effect : prog) (cleanupOf : value → option prog)
            (k : nat → prog).

(** The three classes. An effect function is its body together with the
    cleanup closure it returns, if any, as a function of what the body
    computed. *)
Inductive node_kind : Type :=
| SignalNode (value : value)
| ComputedNode (value : value) (computed : bool) (compute : prog)
| EffectNode (cleanup : option prog) (disposed : bool)
             (effect : prog) (cleanupOf : value → option prog).

(** [ReactiveNode]. [everDisposed] is a ghost field: it records that
    [ReactiveNode.dispose] ran on the node and is never read. *)
Record node : Type := mkNode {
  subscribers : list nat;
  dependencies : list nat;
  stale : bool;
  kind : node_kind;
  everDisposed : bool
}.

(** Ghost log of the client closures that were invoked. *)
Inductive event : Type :=
| EvCompute (n : nat)
| EvEffect (n : nat)
| EvCleanup (n : nat).

Global Instance event_eq_dec : EqDecision event.
Proof. solve_decision. Defined.

(** The module-level variables, the nodes, and the ghost log. *)
Record state : Type := mkState {
  heap : list node;
  currentObserver : option nat;
  observerStack : list nat;
  batchDepth : Z;
  batchedSignals : list nat;
  trace : list event
}.

Definition initial : state :=
  {| heap := []; currentObserver := None; observerStack := [];
     batchDepth := 0; batchedSignals := []; trace := [] |}.

(** *** Field updates *)

Definition with_subscribers (f : list nat → list nat) (nd : node) : node :=
  {| subscribers := f (subscribers nd); dependencies := dependencies nd;
     stale := stale nd; kind := kind nd; everDisposed := everDisposed nd |}.

Definition with_dependencies (f : list nat → list nat) (nd : node) : node :=
  {| subscribers := subscribers nd; dependencies := f (dependencies nd);
     stale := stale nd; kind := kind nd; everDisposed := everDisposed nd |}.

Definition with_stale (b : bool) (nd : node) : node :=
  {| subscribers := subscribers nd; dependencies := dependencies nd;
     stale := b; kind := kind nd; everDisposed := everDisposed nd |}.

Definition with_kind (f : node_kind → node_kind) (nd : node) : node :=
  {| subscribers := subscribers nd; dependencies := dependencies nd;
     stale := stale nd; kind := f (kind nd);
     everDisposed := everDisposed nd |}.

Definition mark_disposed (nd : node) : node :=
  {| subscribers := subscribers nd; dependencies := dependencies nd;
     stale := stale nd; kind := kind nd; everDisposed := true |}.

Definition with_heap (f : list node → list node) (st : state) : state :=
  {| heap := f (heap st); currentObserver := currentObserver st;
     observerStack := observerStack st; batchDepth := batchDepth st;
     batchedSignals := batchedSignals st; trace := trace st |}.

Definition with_observer (o : option nat) (st : state) : state :=
  {| heap := heap st; currentObserver := o;
     observerStack := observerStack st; batchDepth := batchDepth st;
     batchedSignals := batchedSignals st; trace := trace st |}.

Definition with_stack (f : list nat → list nat) (st : state) : state :=
  {| heap := heap st; currentObserver := currentObserver st;
     observerStack := f (observerStack st); batchDepth := batchDepth st;
     batchedSignals := batchedSignals st; trace := trace st |}.

Definition with_depth (f : Z → Z) (st : state) : state :=
  {| heap := heap st; currentObserver := currentObserver st;
     observerStack := observerStack st; batchDepth := f (batchDepth st);
     batchedSignals := batchedSignals st; trace := trace st |}.

Definition with_batched (f : list nat → list nat) (st : state) : state :=
  {| heap := heap st; currentObserver := currentObserver st;
     observerStack := observerStack st; batchDepth := batchDepth st;
     batchedSignals := f (batchedSignals st); trace := trace st |}.

Definition log (ev : event) (st : state) : state :=
  {| heap := heap st; currentObserver := currentObserver st;
     observerStack := observerStack st; batchDepth := batchDepth st;
     batchedSignals := batchedSignals st; trace := trace st ++ [ev] |}.

(** [update_node n f]: a write to fields of the node behind handle [n]. *)
Definition update_node (n : nat) (f : node → node) : state → state :=
  with_heap (alter f n).

(** Reads through a handle, with the value a missing node would give
    left to the caller. *)
Definition subscribers_of (n : nat) (st : state) : list nat :=
  from_option subscribers [] (heap st !! n).

Definition dependencies_of (n : nat) (st : state) : list nat :=
  from_option dependencies [] (heap st !! n).

(** *** The monad: state, exceptions, fuel *)

Inductive outcome (A : Type) : Type :=
| Normal (a : A)
| Thrown (e : exn)
| OutOfFuel.
Arguments Normal {A} a.
Arguments Thrown {A} e.
Arguments OutOfFuel {A}.

Definition M (A : Type) : Type := state → state * outcome A.

Definition ret {A} (a : A) : M A := λ st, (st, Normal a).
Definition throw {A} (e : exn) : M A := λ st, (st, Thrown e).
Definition out_of_fuel {A} : M A := λ st, (st, OutOfFuel).

Definition bind {A B} (m : M A) (f : A → M B) : M B := λ st,
  match m st with
  | (st', Normal a) => f a st'
  | (st', Thrown e) => (st', Thrown e)
  | (st', OutOfFuel) => (st', OutOfFuel)
  end.

Definition modify (f : state → state) : M unit := λ st, (f st, Normal tt).
Definition gets {A} (f : state → A) : M A := λ st, (st, Normal (f st)).

(** [try { m } finally { f }]: [f] runs on return and on throw; what
    [f] throws replaces the pending outcome. *)
Definition finally {A} (m : M A) (f : M unit) : M A := λ st,
  match m st with
  | (st', OutOfFuel) => (st', OutOfFuel)
  | (st', r) =>
      match f st' with
      | (st'', Normal _) => (st'', r)
      | (st'', Thrown e) => (st'', Thrown e)
      | (st'', OutOfFuel) => (st'', OutOfFuel)
      end
  end.

(** [try { m } catch (e) { h e }]. *)
Definition try_catch {A} (m : M A) (h : exn → M A) : M A := λ st,
  match m st with
  | (st', Thrown e) => h e st'
  | other => other
  end.

Declare Scope rx_scope.
Delimit Scope rx_scope with rx.
Notation "x <- m ;; k" := (bind m (λ x, k))
  (at level 20, m at level 99, k at level 200, only parsing) : rx_scope.
Notation "m ;; k" := (bind m (λ _, k))
  (at level 100, k at level 200, only parsing, right associativity)
  : rx_scope.
Local Open Scope rx_scope.

(** [for (const x of l) body(x)], over a snapshot [l]. *)
Fixpoint for_each {A} (l : list A) (body : A → M unit) : M unit :=
  match l with
  | [] => ret tt
  | x :: l' => body x ;; for_each l' body
  end.

(** The same loop, threading a local that the body updates. *)
Fixpoint fold_each {A B} (l : list A) (acc : B) (body : B → A → M B)
  : M B :=
  match l with
  | [] => ret acc
  | x :: l' => acc' <- body acc x ;; fold_each l' acc' body
  end.

Definition when (b : bool) (m : M unit) : M unit :=
  if b then m else ret tt.

Definition lookup_node (n : nat) : M node := λ st,
  match heap st !! n with
  | Some nd => (st, Normal nd)
  | None => (st, Thrown ErrType)
  end.

(** [new ...()]: the fresh node gets the next handle. *)
Definition alloc (k : node_kind) : M nat := λ st,
  (with_heap (λ h, h ++ [{| subscribers := []; dependencies := [];
                            stale := false; kind := k;
                            everDisposed := false |}]) st,
   Normal (length (heap st))).

(** *** [ReactiveNode] *)

(** [track()]. *)
Definition track (this : nat) : M unit := λ st,
  match currentObserver st with
  | Some o =>
      if bool_decide (o ≠ this) then
        (update_node o (with_dependencies (JsSet.add this))
           (update_node this (with_subscribers (JsSet.add o)) st),
         Normal tt)
      else (st, Normal tt)
  | None => (st, Normal tt)
  end.

(** [clearDependencies()]. *)
Definition clearDependencies (this : nat) (st : state) : state :=
  update_node this (with_dependencies (λ _, []))
    (foldl (λ s dep, update_node dep (with_subscribers (JsSet.delete this)) s)
           st (dependencies_of this st)).

(** [ReactiveNode.dispose()]. *)
Definition base_dispose (this : nat) (st : state) : state :=
  update_node this (λ nd, mark_disposed (with_subscribers (λ _, []) nd))
    (clearDependencies this st).

(** The prologue and epilogue shared by [Computed.recompute] and
    [Effect.run]: install [this] as the observer around [body]. *)
Definition observing {A} (this : nat) (body : M A) : M A :=
  prevObserver <- gets currentObserver ;;
  modify (with_observer (Some this)) ;;
  modify (with_stack (λ s, s ++ [this])) ;;
  finally body
    (modify (with_stack (@removelast nat)) ;;
     modify (with_observer prevObserver)).

(** [untrack(fn)]. *)
Definition untrack {A} (fn : M A) : M A :=
  prevObserver <- gets currentObserver ;;
  modify (with_observer None) ;;
  finally fn (modify (with_observer prevObserver)).

(** [batch(fn)], with [flushBatchedUpdates] passed in. *)
Definition batch {A} (flush : M unit) (fn : M A) : M A :=
  modify (with_depth Z.succ) ;;
  finally fn
    (modify (with_depth Z.pred) ;;
     d <- gets batchDepth ;;
     when (d =? 0)%Z flush).

(** *** The methods, over the interpreter one unit of fuel down *)

Inductive call : Type :=
| CProg (p : prog)
| CGet (n : nat)
| CPeek (n : nat)
| CSet (n : nat) (v : value)
| CRecompute (n : nat)
| CUpdate (n : nat)
| CNotify (n : nat)
| CRun (n : nat)
| CDispose (n : nat)
| CFlush.

Section Methods.
Variable self : call → M value.

Definition do_ (c : call) : M unit := self c ;; ret tt.

(** [notify()]. *)
Definition notify (this : nat) : M unit :=
  subs <- gets (subscribers_of this) ;;
  for_each subs (λ subscriber,
    live <- gets (subscribers_of this) ;;
    when (JsSet.has subscriber live)
      (modify (update_node subscriber (with_stale true)))) ;;
  for_each subs (λ subscriber,
    live <- gets (subscribers_of this) ;;
    when (JsSet.has subscriber live) (do_ (CUpdate subscriber))).

(** [Signal.get()]. *)
Definition Signal_get (this : nat) (v : value) : M value :=
  track this ;; ret v.

(** [Signal.set(newValue)]. *)
Definition Signal_set (this : nat) (old newValue : value) : M unit :=
  if negb (Object_is old newValue) then
    modify (update_node this (with_kind (λ _, SignalNode newValue))) ;;
    modify (update_node this (with_stale false)) ;;
    d <- gets batchDepth ;;
    if (d >? 0)%Z then modify (with_batched (JsSet.add this))
    else do_ (CNotify this)
  else ret tt.

Definition computed_value (this : nat) : M value :=
  nd <- lookup_node this ;;
  match kind nd with
  | ComputedNode v _ _ => ret v
  | _ => throw ErrType
  end.

Definition defined (v : value) : M value :=
  match v with
  | VUndefined => throw ErrComputedUndefined
  | _ => ret v
  end.

(** [Computed.recompute()]. *)
Definition Computed_recompute (this : nat) (compute : prog) : M unit :=
  modify (clearDependencies this) ;;
  observing this
    (modify (log (EvCompute this)) ;;
     v <- self (CProg compute) ;;
     modify (update_node this
               (with_kind (λ _, ComputedNode v true compute))) ;;
     modify (update_node this (with_stale false))).

(** [Computed.get()]. *)
Definition Computed_get (this : nat) (nd : node) (computed : bool)
  : M value :=
  when (stale nd || negb computed) (do_ (CRecompute this)) ;;
  track this ;;
  v <- computed_value this ;;
  defined v.

(** [Computed.peek()]. *)
Definition Computed_peek (this : nat) (computed : bool) : M value :=
  when (negb computed) (do_ (CRecompute this)) ;;
  v <- computed_value this ;;
  defined v.

(** [Computed.update()]. *)
Definition Computed_update (this : nat) (nd : node) : M unit :=
  if negb (stale nd) then ret tt
  else do_ (CRecompute this) ;; notify this.

(** [Computed.dispose()]. *)
Definition Computed_dispose (this : nat) (v : value) (compute : prog)
  : M unit :=
  modify (update_node this (with_kind (λ _, ComputedNode v false compute))) ;;
  modify (update_node this (with_stale true)) ;;
  modify (base_dispose this).

Definition set_cleanup (this : nat) (c : option prog) : state → state :=
  update_node this (with_kind (λ k,
    match k with
    | EffectNode _ d e co => EffectNode c d e co
    | other => other
    end)).

Definition set_disposed (this : nat) : state → state :=
  update_node this (with_kind (λ k,
    match k with
    | EffectNode c _ e co => EffectNode c true e co
    | other => other
    end)).

(** [if (this.cleanup) { this.cleanup(); this.cleanup = undefined; }] *)
Definition run_cleanup (this : nat) (cleanup : option prog) : M unit :=
  match cleanup with
  | Some c =>
      modify (log (EvCleanup this)) ;;
      do_ (CProg c) ;;
      modify (set_cleanup this None)
  | None => ret tt
  end.

(** [Effect.run()]. *)
Definition Effect_run (this : nat) (cleanup : option prog)
    (disposed : bool) (effect : prog) (cleanupOf : value → option prog)
  : M unit :=
  if disposed then ret tt
  else
    modify (clearDependencies this) ;;
    observing this
      (run_cleanup this cleanup ;;
       modify (log (EvEffect this)) ;;
       v <- self (CProg effect) ;;
       modify (set_cleanup this (cleanupOf v)) ;;
       modify (update_node this (with_stale false))).

(** [Effect.update()]. *)
Definition Effect_update (this : nat) (nd : node) (disposed : bool)
  : M unit :=
  if negb (stale nd) || disposed then ret tt else do_ (CRun this).

(** [Effect.dispose()]. *)
Definition Effect_dispose (this : nat) (cleanup : option prog)
    (disposed : bool) : M unit :=
  if disposed then ret tt
  else
    modify (set_disposed this) ;;
    run_cleanup this cleanup ;;
    modify (base_dispose this).

(** [flushBatchedUpdates()]. *)
Definition flushBatchedUpdates : M unit :=
  batched <- gets batchedSignals ;;
  if bool_decide (length batched = 0) then ret tt
  else
    pending <- fold_each batched [] (λ pending sig,
      subs <- gets (subscribers_of sig) ;;
      fold_each subs pending (λ pending' subscriber,
        modify (update_node subscriber (with_stale true)) ;;
        ret (JsSet.add subscriber pending'))) ;;
    modify (with_batched (λ _, [])) ;;
    for_each pending (λ subscriber, do_ (CUpdate subscriber)).

(** Client code. *)
Definition run_prog (p : prog) : M value :=
  match p with
  | Ret v => ret v
  | Throw v => throw (ErrUser v)
  | Get n k => v <- self (CGet n) ;; self (CProg (k v))
  | Peek n k => v <- self (CPeek n) ;; self (CProg (k v))
  | SetSig n v k => self (CSet n v) ;; self (CProg k)
  | Dispose n k => self (CDispose n) ;; self (CProg k)
  | Batch body k =>
      v <- batch (do_ CFlush) (self (CProg body)) ;; self (CProg (k v))
  | Untrack body k =>
      v <- untrack (self (CProg body)) ;; self (CProg (k v))
  | TryCatch body handler k =>
      v <- try_catch (self (CProg body)) (λ e, self (CProg (handler e))) ;;
      self (CProg (k v))
  | NewSignal v k =>
      n <- alloc (SignalNode v) ;; self (CProg (k n))
  | NewComputed compute k =>
      n <- alloc (ComputedNode VUndefined false compute) ;;
      self (CProg (k n))
  | NewEffect effect cleanupOf k =>
      n <- alloc (EffectNode None false effect cleanupOf) ;;
      self (CRun n) ;;
      self (CProg (k n))
  end.

Definition void (m : M unit) : M value := m ;; ret VUndefined.

(** Dynamic dispatch on the class of the receiver. *)
Definition dispatch (c : call) : M value :=
  match c with
  | CProg p => run_prog p
  | CFlush => void flushBatchedUpdates
  | CNotify n => void (notify n)
  | CGet n =>
      nd <- lookup_node n ;;
      match kind nd with
      | SignalNode v => Signal_get n v
      | ComputedNode _ computed _ => Computed_get n nd computed
      | EffectNode _ _ _ _ => throw ErrType
      end
  | CPeek n =>
      nd <- lookup_node n ;;
      match kind nd with
      | SignalNode v => ret v
      | ComputedNode _ computed _ => Computed_peek n computed
      | EffectNode _ _ _ _ => throw ErrType
      end
  | CSet n v =>
      nd <- lookup_node n ;;
      match kind nd with
      | SignalNode old => void (Signal_set n old v)
      | _ => throw ErrType
      end
  | CRecompute n =>
      nd <- lookup_node n ;;
      match kind nd with
      | ComputedNode _ _ compute => void (Computed_recompute n compute)
      | _ => throw ErrType
      end
  | CRun n =>
      nd <- lookup_node n ;;
      match kind nd with
      | EffectNode cleanup disposed effect cleanupOf =>
          void (Effect_run n cleanup disposed effect cleanupOf)
      | _ => throw ErrType
      end
  | CUpdate n =>
      nd <- lookup_node n ;;
      match kind nd with
      | SignalNode _ => ret VUndefined
      | ComputedNode _ _ _ => void (Computed_update n nd)
      | EffectNode _ disposed _ _ => void (Effect_update n nd disposed)
      end
  | CDispose n =>
      nd <- lookup_node n ;;
      match kind nd with
      | SignalNode _ => void (modify (base_dispose n))
      | ComputedNode v _ compute => void (Computed_dispose n v compute)
      | EffectNode cleanup disposed _ _ =>
          void (Effect_dispose n cleanup disposed)
      end
  end.
End Methods.

Fixpoint exec (fuel : nat) (c : call) {struct fuel} : M value :=
  match fuel with
  | O => out_of_fuel
  | S fuel' => dispatch (exec fuel') c
  end.

(** How often the body of effect [n] has been invoked. *)
Definition effect_runs (n : nat) (st : state) : nat :=
  length (filter (λ ev, ev = EvEffect n) (trace st)).

(** *** The edge relation and what is stated about it *)

Definition ever_disposed (n : nat) (st : state) : bool :=
  from_option everDisposed false (heap st !! n).

(** Every subscriber edge has its dependency edge; every dependency edge
    has its subscriber edge unless the target was disposed; the current
    observer is a node. *)
Record Inv (st : state) : Prop := mkInv {
  inv_sub_dep : ∀ a b,
    a ∈ subscribers_of b st → b ∈ dependencies_of a st;
  inv_dep_sub : ∀ a b,
    b ∈ dependencies_of a st →
    a ∈ subscribers_of b st ∨ ever_disposed b st = true;
  inv_observer : ∀ o,
    currentObserver st = Some o → o < length (heap st)
}.

(** The states the module can be in: the initial one, and whatever a
    call, finished or cut short, leaves behind. *)
Inductive reachable : state → Prop :=
| reachable_initial : reachable initial
| reachable_exec fuel c st :
    reachable st → reachable (exec fuel c st).1.

(** The invariant as the specification words it. *)
Definition symmetric (st : state) : Prop :=
  ∀ a b, b ∈ dependencies_of a st → a ∈ subscribers_of b st.

End Reactive.

(** ** Insertion-ordered maps, as [Map<K, V>] iterates them *)

Module JsMap.
Section Ops.
Context {K V : Type} `{EqDecision K}.

(** [m.get(k)]. *)
Fixpoint get (k : K) (m : list (K * V)) : option V :=
  match m with
  | [] => None
  | (k', v) :: m' => if decide (k = k') then Some v else get k m'
  end.

(** [m.has(k)]. *)
Definition has (k : K) (m : list (K * V)) : bool :=
  match get k m with Some _ => true | None => false end.

(** [m.set(k, v)]: an existing key keeps its place. *)
Fixpoint set (k : K) (v : V) (m : list (K * V)) : list (K * V) :=
  match m with
  | [] => [(k, v)]
  | (k', v') :: m' =>
      if decide (k = k') then (k, v) :: m' else (k', v') :: set k v m'
  end.

(** [m.delete(k)]. *)
Definition delete (k : K) (m : list (K * V)) : list (K * V) :=
  filter (λ kv, kv.1 ≠ k) m.

(** [m.keys()], [m.values()]. *)
Definition keys (m : list (K * V)) : list K := m.*1.
Definition values (m : list (K * V)) : list V := m.*2.
End Ops.
End JsMap.

(** ** Strings, as the query cache uses them *)

Module JsString.

(** [parts.join(sep)]. *)
Fixpoint join (sep : string) (parts : list string) : string :=
  match parts with
  | [] => EmptyString
  | [p] => p
  | p :: rest => p +:+ sep +:+ join sep rest
  end.

(** [s.includes(sub)]. *)
Fixpoint includes (s sub : string) : bool :=
  String.prefix sub s ||
  match s with
  | EmptyString => false
  | String _ s' => includes s' sub
  end.

(** The default order of [Array.prototype.sort] on strings: code unit
    by code unit. Component names are taken to be ASCII, where a code
    unit is a byte. *)
Definition leb (a b : string) : bool := String.leb a b.

Fixpoint insert (x : string) (l : list string) : list string :=
  match l with
  | [] => [x]
  | y :: l' => if leb x y then x :: l else y :: insert x l'
  end.

(** [a.sort()]. *)
Definition sort (l : list string) : list string := foldr insert [] l.

End JsString.

(** ** Entities ([core/entity.ts]) *)

Definition EntityId : Type := Z.

Module Entity.

Record t : Type := mk { id : EntityId }.

(** The module-level counter [nextEntityId] is threaded explicitly; it
    starts at [1]. *)
Definition initialNextEntityId : Z := 1.

(** [createEntityId()]: [return nextEntityId++]. *)
Definition createEntityId (nextEntityId : Z) : Z * EntityId :=
  ((nextEntityId + 1)%Z, nextEntityId).

(** [resetEntityIdCounter(start = 1)]. *)
Definition resetEntityIdCounter (start : option Z) : Z :=
  default 1%Z start.

(** [new Entity(id?)]: [this.id = id ?? createEntityId()]. *)
Definition new (id : option EntityId) (nextEntityId : Z) : Z * t :=
  match id with
  | Some i => (nextEntityId, mk i)
  | None =>
      let '(next', i) := createEntityId nextEntityId in (next', mk i)
  end.

End Entity.

(** ** Components and their store ([core/component.ts]) *)

Definition ComponentId : Type := string.

(** A component instance: the id of its class, its data (opaque here),
    and the [entity] back-reference that [ComponentStore.add] stamps. *)
Record Component : Type := mkComponent {
  componentId : ComponentId;
  payload : Z;
  entity : option EntityId
}.

Module ComponentStore.

Record t : Type := mk {
  components : list (EntityId * list (ComponentId * list Component));
  componentIndex : list (ComponentId * list EntityId)
}.

Definition new : t := {| components := []; componentIndex := [] |}.

(** [add(entityId, component)]. *)
Definition add (entityId : EntityId) (component : Component) (s : t) : t :=
  let entityComponents := default [] (JsMap.get entityId (components s)) in
  let cid := componentId component in
  let existing := default [] (JsMap.get cid entityComponents) in
  let stamped := {| componentId := cid; payload := payload component;
                    entity := Some entityId |} in
  let index := default [] (JsMap.get cid (componentIndex s)) in
  {| components :=
       JsMap.set entityId
         (JsMap.set cid (existing ++ [stamped]) entityComponents)
         (components s);
     componentIndex :=
       JsMap.set cid (JsSet.add entityId index) (componentIndex s) |}.

(** [index.delete(entityId); if (index.size === 0) componentIndex.delete(componentId)],
    under [if (index)]. *)
Definition unindex (entityId : EntityId) (cid : ComponentId)
    (ix : list (ComponentId * list EntityId))
  : list (ComponentId * list EntityId) :=
  match JsMap.get cid ix with
  | Some index =>
      let index' := JsSet.delete entityId index in
      if bool_decide (length index' = 0)
      then JsMap.delete cid ix
      else JsMap.set cid index' ix
  | None => ix
  end.

(** [remove(entityId, componentId)]. *)
Definition remove (entityId : EntityId) (cid : ComponentId) (s : t)
  : t * bool :=
  match JsMap.get entityId (components s) with
  | None => (s, false)
  | Some entityComponents =>
      let removed := JsMap.has cid entityComponents in
      let s' := {| components :=
                     JsMap.set entityId (JsMap.delete cid entityComponents)
                               (components s);
                   componentIndex := componentIndex s |} in
      if removed then
        ({| components := components s';
            componentIndex := unindex entityId cid (componentIndex s) |},
         true)
      else (s', false)
  end.

(** [get(entityId, componentId)]. *)
Definition get (entityId : EntityId) (cid : ComponentId) (s : t)
  : option Component :=
  match JsMap.get entityId (components s) with
  | Some entityComponents =>
      match JsMap.get cid entityComponents with
      | Some list => head list
      | None => None
      end
  | None => None
  end.

(** [has(entityId, componentId)]. *)
Definition has (entityId : EntityId) (cid : ComponentId) (s : t) : bool :=
  match JsMap.get entityId (components s) with
  | Some entityComponents =>
      match JsMap.get cid entityComponents with
      | Some list => bool_decide (0 < length list)
      | None => false
      end
  | None => false
  end.

(** [getAll(entityId)]. *)
Definition getAll (entityId : EntityId) (s : t) : list Component :=
  match JsMap.get entityId (components s) with
  | Some entityComponents => concat (JsMap.values entityComponents)
  | None => []
  end.

(** [getEntitiesWithComponent(componentId)]. *)
Definition getEntitiesWithComponent (cid : ComponentId) (s : t)
  : list EntityId :=
  default [] (JsMap.get cid (componentIndex s)).

(** [removeAllComponents(entityId)]. *)
Definition removeAllComponents (entityId : EntityId) (s : t) : t :=
  match JsMap.get entityId (components s) with
  | None => s
  | Some entityComponents =>
      {| components := JsMap.delete entityId (components s);
         componentIndex :=
           foldl (λ ix cid, unindex entityId cid ix)
                 (componentIndex s) (JsMap.keys entityComponents) |}
  end.

(** [clear()]. *)
Definition clear (s : t) : t := new.

(** [getAllEntities()]: the keys of [components]. *)
Definition getAllEntities (s : t) : list EntityId :=
  JsMap.keys (components s).

End ComponentStore.

(** ** Queries and their cache ([core/query.ts]) *)

Inductive FilterType : Type := FilterAll | FilterAny | FilterNone.

Global Instance FilterType_eq_dec : EqDecision FilterType.
Proof. solve_decision. Defined.

Record QueryFilter : Type := mkFilter {
  type : FilterType;
  filterComponents : list ComponentId
}.

Record QueryDescriptor : Type := mkDescriptor {
  all : option (list ComponentId);
  any : option (list ComponentId);
  none : option (list ComponentId)
}.

Module Query.

(** The query's fields. [componentStore] is a shared reference, passed
    to the methods that read it. [resultSignal] is written by
    [reactive()] only, which nothing in the core calls: it stays [null]
    and its branch of [execute] is not taken. *)
Record t : Type := mk {
  filters : list QueryFilter;
  cachedResults : option (list EntityId);
  dirty : bool
}.

Definition push_filter (ty : FilterType) (cs : option (list ComponentId))
    (fs : list QueryFilter) : list QueryFilter :=
  match cs with
  | Some l => if bool_decide (0 < length l) then fs ++ [mkFilter ty l] else fs
  | None => fs
  end.

(** [new Query(componentStore, descriptor)]; [None] is
    'Query must have at least one filter'. *)
Definition new (descriptor : QueryDescriptor) : option t :=
  let fs := push_filter FilterNone (none descriptor)
              (push_filter FilterAny (any descriptor)
                 (push_filter FilterAll (all descriptor) [])) in
  if bool_decide (length fs = 0) then None
  else Some {| filters := fs; cachedResults := None; dirty := true |}.

(** [matches(entityId)]. *)
Definition matches (store : ComponentStore.t) (q : t) (entityId : EntityId)
  : bool :=
  forallb (λ filter,
    match type filter with
    | FilterAll =>
        forallb (λ c, ComponentStore.has entityId c store)
                (filterComponents filter)
    | FilterAny =>
        existsb (λ c, ComponentStore.has entityId c store)
                (filterComponents filter)
    | FilterNone =>
        negb (existsb (λ c, ComponentStore.has entityId c store)
                      (filterComponents filter))
    end) (filters q).

(** [getCandidateEntities()]. *)
Definition getCandidateEntities (store : ComponentStore.t) (q : t)
  : list EntityId :=
  let anyFilters :=
    filter (λ f, type f = FilterAny) (filters q) in
  let candidates0 : option (list EntityId) :=
    if bool_decide (0 < length anyFilters) then
      Some (foldl (λ cands f,
              foldl (λ cands' cid,
                       foldl (λ c e, JsSet.add e c) cands'
                         (ComponentStore.getEntitiesWithComponent cid store))
                    cands (filterComponents f))
            [] anyFilters)
    else None in
  let allFilters :=
    filter (λ f, type f = FilterAll) (filters q) in
  let candidates1 : option (list EntityId) :=
    foldl (λ cands f,
      foldl (λ cands' cid,
        let entities :=
          ComponentStore.getEntitiesWithComponent cid store in
        match cands' with
        | None => Some entities
        | Some c => Some (filter (λ id, id ∈ entities) c)
        end) cands (filterComponents f))
      candidates0 allFilters in
  match candidates1 with
  | Some c => c
  | None => ComponentStore.getAllEntities store
  end.

(** The recomputation inside [execute()]. *)
Definition compute (store : ComponentStore.t) (q : t) : list EntityId :=
  foldl (λ results entityId,
           if matches store q entityId then JsSet.add entityId results
           else results)
        [] (getCandidateEntities store q).

(** [execute()]: the query afterwards, and the copy it returns. *)
Definition execute (store : ComponentStore.t) (q : t)
  : t * list EntityId :=
  match dirty q, cachedResults q with
  | false, Some cached => (q, cached)
  | _, _ =>
      let results := compute store q in
      ({| filters := filters q; cachedResults := Some results;
          dirty := false |}, results)
  end.

(** [markDirty()]. *)
Definition markDirty (q : t) : t :=
  {| filters := filters q; cachedResults := cachedResults q;
     dirty := true |}.

End Query.

Module QueryCache.

(** [queries : Map<string, Query>]; a [Query] is named by its key. *)
Record t : Type := mk { queries : list (string * Query.t) }.

Definition new : t := {| queries := [] |}.

(** What [getKey] leaves in the descriptor: each list it was given,
    sorted in place. *)
Definition sorted (descriptor : QueryDescriptor) : QueryDescriptor :=
  {| all := JsString.sort <$> all descriptor;
     any := JsString.sort <$> any descriptor;
     none := JsString.sort <$> none descriptor |}.

Definition key_part (label : string) (cs : option (list ComponentId))
  : list string :=
  match cs with
  | Some l => [label +:+ JsString.join "," (JsString.sort l)]
  | None => []
  end.

(** [getKey(descriptor)]. *)
Definition getKey (descriptor : QueryDescriptor) : string :=
  JsString.join "|"
    (key_part "all:" (all descriptor)
     ++ key_part "any:" (any descriptor)
     ++ key_part "none:" (none descriptor)).

(** [get(descriptor)]: the cache afterwards and the key of the query
    returned; [None] when the constructor throws. *)
Definition get (descriptor : QueryDescriptor) (c : t)
  : t * option string :=
  let key := getKey descriptor in
  match JsMap.get key (queries c) with
  | Some _ => (c, Some key)
  | None =>
      match Query.new (sorted descriptor) with
      | Some query =>
          ({| queries := JsMap.set key query (queries c) |}, Some key)
      | None => (c, None)
      end
  end.

(** [markAllDirty()]. *)
Definition markAllDirty (c : t) : t :=
  {| queries := prod_map id Query.markDirty <$> queries c |}.

(** [markDirtyForComponent(componentId)]. *)
Definition markDirtyForComponent (cid : ComponentId) (c : t) : t :=
  {| queries :=
       (λ kq, if JsString.includes kq.1 cid
              then (kq.1, Query.markDirty kq.2) else kq) <$> queries c |}.

(** [clear()]. *)
Definition clear (c : t) : t := new.

(** [size()]. *)
Definition size (c : t) : nat := length (queries c).

End QueryCache.

(** ** Error handling ([core/error.ts]) *)

Definition SystemId : Type := string.

Module SystemPhase.
Inductive t : Type :=
| init | fixedUpdate | update | lateUpdate | cleanup.
End SystemPhase.

Global Instance SystemPhase_eq_dec : EqDecision SystemPhase.t.
Proof. solve_decision. Defined.

Inductive SystemErrorStrategy : Type := DISABLE | IGNORE | RETRY.

Global Instance SystemErrorStrategy_eq_dec : EqDecision SystemErrorStrategy.
Proof. solve_decision. Defined.

(** What a system function throws; the scheduler never looks inside. *)
Definition Error : Type := string.

Record SystemErrorContext : Type := mkErrorContext {
  ec_systemId : SystemId;
  ec_error : Error;
  ec_phase : SystemPhase.t;
  ec_consecutiveFailures : Z
}.

(** [(ctx) => SystemErrorStrategy | void]. *)
Definition SystemErrorHandler : Type :=
  SystemErrorContext → option SystemErrorStrategy.

(** [defaultErrorHandler]; the logging is not modelled. *)
Definition defaultErrorHandler : SystemErrorHandler := λ ctx,
  if (ec_consecutiveFailures ctx >=? 3)%Z then Some DISABLE
  else Some IGNORE.

(** ** Systems and their scheduler ([core/system.ts]) *)

(** The context a system function receives; [world] is left out, a
    system function being modelled by how it completes. *)
Module SystemContext.
Record t : Type := mk {
  deltaTime : Q;
  time : Q;
  phase : SystemPhase.t
}.
End SystemContext.

(** [(ctx) => void | Promise<void>], awaited: [None] when it completes,
    [Some e] when it throws or rejects with [e]. *)
Definition SystemFunction : Type := SystemContext.t → option Error.

Module System.

Record t : Type := mk {
  id : SystemId;
  phases : list SystemPhase.t;
  priority : Z;
  runBefore : list SystemId;
  runAfter : list SystemId;
  onError : option SystemErrorHandler;
  enabled : bool;
  fn : SystemFunction;
  consecutiveFailures : Z
}.

Definition isEnabled (s : t) : bool := enabled s.

Definition setEnabled (b : bool) (s : t) : t :=
  {| id := id s; phases := phases s; priority := priority s;
     runBefore := runBefore s; runAfter := runAfter s;
     onError := onError s; enabled := b; fn := fn s;
     consecutiveFailures := consecutiveFailures s |}.

Definition setFailures (n : Z) (s : t) : t :=
  {| id := id s; phases := phases s; priority := priority s;
     runBefore := runBefore s; runAfter := runAfter s;
     onError := onError s; enabled := enabled s; fn := fn s;
     consecutiveFailures := n |}.

Definition hasPhase (p : SystemPhase.t) (s : t) : bool :=
  bool_decide (p ∈ phases s).

(** [run(ctx)]: the system afterwards, whether its function was called,
    and the error it rethrows, if any. *)
Definition run (ctx : SystemContext.t) (s : t) : t * bool * option Error :=
  if negb (enabled s) then (s, false, None)
  else
    match fn s ctx with
    | None => (setFailures 0 s, true, None)
    | Some error =>
        let s1 := setFailures (consecutiveFailures s + 1) s in
        let errorCtx :=
          {| ec_systemId := id s1; ec_error := error;
             ec_phase := SystemContext.phase ctx;
             ec_consecutiveFailures := consecutiveFailures s1 |} in
        match onError s1 with
        | Some handler =>
            let strategy := default IGNORE (handler errorCtx) in
            if bool_decide (strategy = DISABLE)
            then (setEnabled false s1, true, None)
            else (s1, true, None)
        | None => (s1, true, Some error)
        end
    end.

End System.

Module SystemScheduler.

(** [calls] and [phaseCalls] are ghost logs, oldest first: the system
    functions invoked with the context each received, and the calls of
    [executePhase] that got past the order computation. *)
Record t : Type := mk {
  systems : list (SystemId * System.t);
  executionOrder : list (SystemPhase.t * list SystemId);
  dirty : bool;
  calls : list (SystemId * SystemContext.t);
  phaseCalls : list (SystemPhase.t * SystemContext.t)
}.

Definition new : t :=
  {| systems := []; executionOrder := []; dirty := true; calls := [];
     phaseCalls := [] |}.

(** [add(system)]; [None] is 'System ... already exists'. *)
Definition add (system : System.t) (s : t) : option t :=
  if JsMap.has (System.id system) (systems s) then None
  else Some {| systems := JsMap.set (System.id system) system (systems s);
               executionOrder := executionOrder s; dirty := true;
               calls := calls s; phaseCalls := phaseCalls s |}.

(** [remove(systemId)]. *)
Definition remove (systemId : SystemId) (s : t) : t * bool :=
  if JsMap.has systemId (systems s) then
    ({| systems := JsMap.delete systemId (systems s);
        executionOrder := executionOrder s; dirty := true;
        calls := calls s; phaseCalls := phaseCalls s |}, true)
  else (s, false).

Definition get (systemId : SystemId) (s : t) : option System.t :=
  JsMap.get systemId (systems s).

(** *** [topologicalSort] *)

(** How a call into the scheduler ends. *)
Inductive result (A : Type) : Type :=
| Returns (a : A)
| ThrowsCircular (systemId : SystemId) (* 'ThrowsCircular dependency detected' *)
| NoFuel.
Arguments Returns {A} a.
Arguments ThrowsCircular {A} systemId.
Arguments NoFuel {A}.

(** The three locals the closure [visit] writes. *)
Record marks : Type := mkMarks {
  sorted : list System.t;
  visited : list SystemId;
  visiting : list SystemId
}.

(** [for (const afterId of system.runAfter) ...], over the recursive
    call. *)
Fixpoint visit_after (visit : System.t → marks → result marks)
    (systemMap : list (SystemId * System.t)) (afterIds : list SystemId)
    (m : marks) : result marks :=
  match afterIds with
  | [] => Returns m
  | afterId :: rest =>
      match JsMap.get afterId systemMap with
      | Some afterSystem =>
          match visit afterSystem m with
          | Returns m' => visit_after visit systemMap rest m'
          | other => other
          end
      | None => visit_after visit systemMap rest m
      end
  end.

(** [for (const beforeId of system.runBefore) ...]: does some target in
    the map remain unvisited? *)
Definition defers (systemMap : list (SystemId * System.t))
    (beforeIds : list SystemId) (m : marks) : bool :=
  existsb (λ beforeId,
    match JsMap.get beforeId systemMap with
    | Some beforeSystem =>
        negb (JsSet.has (System.id beforeSystem) (visited m))
    | None => false
    end) beforeIds.

(** The closure [visit]. *)
Fixpoint visit (fuel : nat) (systemMap : list (SystemId * System.t))
    (system : System.t) (m : marks) {struct fuel} : result marks :=
  if JsSet.has (System.id system) (visited m) then Returns m
  else if JsSet.has (System.id system) (visiting m)
  then ThrowsCircular (System.id system)
  else
    match fuel with
    | O => NoFuel
    | S fuel' =>
        let m1 := {| sorted := sorted m; visited := visited m;
                     visiting := JsSet.add (System.id system) (visiting m) |} in
        match visit_after (visit fuel' systemMap) systemMap
                          (System.runAfter system) m1 with
        | Returns m2 =>
            let unmarked := JsSet.delete (System.id system) (visiting m2) in
            if defers systemMap (System.runBefore system) m2 then
              Returns {| sorted := sorted m2; visited := visited m2;
                        visiting := unmarked |}
            else
              Returns {| sorted := sorted m2 ++ [system];
                        visited := JsSet.add (System.id system) (visited m2);
                        visiting := unmarked |}
        | other => other
        end
    end.

(** [[...systems].sort((a, b) => b.priority - a.priority)]: stable,
    highest priority first. *)
Fixpoint insert_by_priority (x : System.t) (l : list System.t)
  : list System.t :=
  match l with
  | [] => [x]
  | y :: l' =>
      if (System.priority y <? System.priority x)%Z then x :: l
      else y :: insert_by_priority x l'
  end.

Definition byPriority (systems : list System.t) : list System.t :=
  foldl (λ acc x, insert_by_priority x acc) [] systems.

Fixpoint visit_all (visit : System.t → marks → result marks)
    (l : list System.t) (m : marks) : result marks :=
  match l with
  | [] => Returns m
  | system :: rest =>
      match visit system m with
      | Returns m' => visit_all visit rest m'
      | other => other
      end
  end.

(** [topologicalSort(systems)]. The recursion of [visit] is as deep as
    the chain of systems being visited, so one unit of fuel per system
    and one more are enough. *)
Definition topologicalSort (systems : list System.t)
  : result (list System.t) :=
  let systemMap :=
    foldl (λ acc s, JsMap.set (System.id s) s acc) [] systems in
  match visit_all (visit (S (length systems)) systemMap)
                  (byPriority systems)
                  {| sorted := []; visited := []; visiting := [] |} with
  | Returns m => Returns (sorted m)
  | ThrowsCircular i => ThrowsCircular i
  | NoFuel => NoFuel
  end.

Definition allPhases : list SystemPhase.t :=
  [SystemPhase.init; SystemPhase.fixedUpdate; SystemPhase.update;
   SystemPhase.lateUpdate; SystemPhase.cleanup].

(** The loop of [recomputeExecutionOrder] over the phases: the order
    built so far, and how the loop ended. *)
Fixpoint order_phases (systems : list System.t) (ps : list SystemPhase.t)
    (order : list (SystemPhase.t * list SystemId))
  : list (SystemPhase.t * list SystemId) * result unit :=
  match ps with
  | [] => (order, Returns tt)
  | p :: rest =>
      let phaseSystems := filter (λ s, System.hasPhase p s = true) systems in
      match topologicalSort phaseSystems with
      | Returns l =>
          order_phases systems rest (JsMap.set p (System.id <$> l) order)
      | ThrowsCircular i => (order, ThrowsCircular i)
      | NoFuel => (order, NoFuel)
      end
  end.

(** [recomputeExecutionOrder()]. When the sort throws, the order has
    been cleared and partly rebuilt, and [dirty] is still set. *)
Definition recomputeExecutionOrder (s : t) : t * result unit :=
  let '(order, r) := order_phases (JsMap.values (systems s)) allPhases [] in
  ({| systems := systems s; executionOrder := order;
      dirty := match r with Returns _ => false | _ => dirty s end;
      calls := calls s; phaseCalls := phaseCalls s |}, r).

Definition with_system (systemId : SystemId) (system : System.t) (s : t)
  : t :=
  {| systems := JsMap.set systemId system (systems s);
     executionOrder := executionOrder s; dirty := dirty s;
     calls := calls s; phaseCalls := phaseCalls s |}.

Definition log_call (systemId : SystemId) (ctx : SystemContext.t) (s : t) : t :=
  {| systems := systems s; executionOrder := executionOrder s;
     dirty := dirty s; calls := calls s ++ [(systemId, ctx)];
     phaseCalls := phaseCalls s |}.

Definition log_phase (p : SystemPhase.t) (ctx : SystemContext.t) (s : t) : t :=
  {| systems := systems s; executionOrder := executionOrder s;
     dirty := dirty s; calls := calls s;
     phaseCalls := phaseCalls s ++ [(p, ctx)] |}.

(** The body of the dispatch loop of [executePhase], for one id. *)
Definition dispatch (p : SystemPhase.t) (ctx : SystemContext.t)
    (errorHandler : option SystemErrorHandler) (systemId : SystemId)
    (s : t) : t :=
  match JsMap.get systemId (systems s) with
  | Some system =>
      if System.isEnabled system then
        let ctx' := {| SystemContext.deltaTime := SystemContext.deltaTime ctx;
                       SystemContext.time := SystemContext.time ctx;
                       SystemContext.phase := p |} in
        let '(system1, called, thrown) := System.run ctx' system in
        let s1 := with_system systemId system1
                    (if called then log_call systemId ctx' s else s) in
        match thrown with
        | None => s1
        | Some error =>
            match errorHandler with
            | Some handler =>
                let strategy :=
                  handler {| ec_systemId := System.id system1;
                             ec_error := error; ec_phase := p;
                             ec_consecutiveFailures :=
                               System.consecutiveFailures system1 |} in
                if bool_decide (strategy = Some DISABLE)
                then with_system systemId
                       (System.setEnabled false system1) s1
                else s1
            | None => s1     (* console.error *)
            end
        end
      else s
  | None => s
  end.

(** [executePhase(phase, ctx, errorHandler)]: the scheduler afterwards,
    and whether the call returned or threw out of the order
    computation. *)
Definition executePhase (p : SystemPhase.t) (ctx : SystemContext.t)
    (errorHandler : option SystemErrorHandler) (s : t)
  : t * result unit :=
  let '(s1, r) :=
    if dirty s then recomputeExecutionOrder s else (s, Returns tt) in
  match r with
  | Returns _ =>
      let systemIds := default [] (JsMap.get p (executionOrder s1)) in
      (foldl (λ acc systemId, dispatch p ctx errorHandler systemId acc)
             (log_phase p ctx s1) systemIds, Returns tt)
  | other => (s1, other)
  end.

(** [clear()]. *)
Definition clear (s : t) : t :=
  {| systems := []; executionOrder := []; dirty := true; calls := calls s; phaseCalls := phaseCalls s |}.

End SystemScheduler.

(** ** The world ([core/world.ts]) *)

Module World.

Record WorldConfig : Type := mkConfig {
  cfg_fixedTimestep : option Q;
  cfg_maxFixedUpdates : option Z;
  cfg_errorHandler : option SystemErrorHandler
}.

(** [Required<WorldConfig>]. *)
Record Config : Type := mkRequired {
  fixedTimestep : Q;
  maxFixedUpdates : Z;
  errorHandler : SystemErrorHandler
}.

(** The fields of [World]. [lastTimestamp] and [frameId] belong to the
    self-driving loop of [start]/[stop], which runs on the host's timers
    and is not modelled; numbers are rationals. *)
Record t : Type := mk {
  entities : list (EntityId * Entity.t);
  componentStore : ComponentStore.t;
  systemScheduler : SystemScheduler.t;
  queryCache : QueryCache.t;
  config : Config;
  time : Q;
  fixedTime : Q;
  accumulator : Q;
  running : bool;
  paused : bool
}.

(** [new World(config = {})]. *)
Definition new (cfg : WorldConfig) : t :=
  {| entities := [];
     componentStore := ComponentStore.new;
     systemScheduler := SystemScheduler.new;
     queryCache := QueryCache.new;
     config := {| fixedTimestep := default (1000 / 60)%Q (cfg_fixedTimestep cfg);
                  maxFixedUpdates := default 5%Z (cfg_maxFixedUpdates cfg);
                  errorHandler :=
                    default defaultErrorHandler (cfg_errorHandler cfg) |};
     time := 0; fixedTime := 0; accumulator := 0;
     running := false; paused := false |}.

Definition defaultConfig : WorldConfig :=
  {| cfg_fixedTimestep := None; cfg_maxFixedUpdates := None;
     cfg_errorHandler := None |}.

Definition with_entities (f : list (EntityId * Entity.t) →
                              list (EntityId * Entity.t)) (w : t) : t :=
  {| entities := f (entities w); componentStore := componentStore w;
     systemScheduler := systemScheduler w; queryCache := queryCache w;
     config := config w; time := time w; fixedTime := fixedTime w;
     accumulator := accumulator w; running := running w;
     paused := paused w |}.

Definition with_store (f : ComponentStore.t → ComponentStore.t) (w : t) : t :=
  {| entities := entities w; componentStore := f (componentStore w);
     systemScheduler := systemScheduler w; queryCache := queryCache w;
     config := config w; time := time w; fixedTime := fixedTime w;
     accumulator := accumulator w; running := running w;
     paused := paused w |}.

Definition with_scheduler (f : SystemScheduler.t → SystemScheduler.t)
    (w : t) : t :=
  {| entities := entities w; componentStore := componentStore w;
     systemScheduler := f (systemScheduler w); queryCache := queryCache w;
     config := config w; time := time w; fixedTime := fixedTime w;
     accumulator := accumulator w; running := running w;
     paused := paused w |}.

Definition with_cache (f : QueryCache.t → QueryCache.t) (w : t) : t :=
  {| entities := entities w; componentStore := componentStore w;
     systemScheduler := systemScheduler w; queryCache := f (queryCache w);
     config := config w; time := time w; fixedTime := fixedTime w;
     accumulator := accumulator w; running := running w;
     paused := paused w |}.

Definition with_clock (t' ft acc : Q) (w : t) : t :=
  {| entities := entities w; componentStore := componentStore w;
     systemScheduler := systemScheduler w; queryCache := queryCache w;
     config := config w; time := t'; fixedTime := ft;
     accumulator := acc; running := running w; paused := paused w |}.

Definition with_paused (b : bool) (w : t) : t :=
  {| entities := entities w; componentStore := componentStore w;
     systemScheduler := systemScheduler w; queryCache := queryCache w;
     config := config w; time := time w; fixedTime := fixedTime w;
     accumulator := accumulator w; running := running w; paused := b |}.

(** [batch(fn)] of the reactive graph, around a callback that writes no
    signal: the depth counter goes up and down again, and the flush at
    depth zero finds nothing the callback has batched
    (see [ReactiveFacts.batch_without_writes]). What is left is the
    callback. *)
Definition batch {A} (fn : A) : A := fn.

(** [createEntity()], with the module's counter. *)
Definition createEntity (nextEntityId : Z) (w : t) : Z * t * Entity.t :=
  let '(next', entity) := Entity.new None nextEntityId in
  (next', with_entities (JsMap.set (Entity.id entity) entity) w, entity).

(** [createEntityWithId(id)]; [None] is 'Entity with id ... already
    exists'. *)
Definition createEntityWithId (id : EntityId) (nextEntityId : Z) (w : t)
  : option (Z * t * Entity.t) :=
  if JsMap.has id (entities w) then None
  else
    let '(next', entity) := Entity.new (Some id) nextEntityId in
    Some (next', with_entities (JsMap.set (Entity.id entity) entity) w,
          entity).

(** [destroyEntity(entityId)]. *)
Definition destroyEntity (entityId : EntityId) (w : t) : t * bool :=
  match JsMap.get entityId (entities w) with
  | None => (w, false)
  | Some _ =>
      (batch
         (with_cache QueryCache.markAllDirty
            (with_entities (JsMap.delete entityId)
               (with_store (ComponentStore.removeAllComponents entityId) w))),
       true)
  end.

Definition getEntity (entityId : EntityId) (w : t) : option Entity.t :=
  JsMap.get entityId (entities w).

Definition hasEntity (entityId : EntityId) (w : t) : bool :=
  JsMap.has entityId (entities w).

Definition getAllEntities (w : t) : list Entity.t :=
  JsMap.values (entities w).

Definition getEntityCount (w : t) : nat := length (entities w).

(** [addComponent(entityId, component)]; [None] is 'Entity ... does not
    exist'. *)
Definition addComponent (entityId : EntityId) (component : Component)
    (w : t) : option t :=
  if negb (JsMap.has entityId (entities w)) then None
  else
    Some (batch
            (with_cache
               (QueryCache.markDirtyForComponent (componentId component))
               (with_store (ComponentStore.add entityId component) w))).

(** [removeComponent(entityId, componentId)]. *)
Definition removeComponent (entityId : EntityId) (cid : ComponentId)
    (w : t) : t * bool :=
  let '(store', removed) :=
    ComponentStore.remove entityId cid (componentStore w) in
  let w1 := with_store (λ _, store') w in
  if removed
  then (batch (with_cache (QueryCache.markDirtyForComponent cid) w1), true)
  else (w1, false).

Definition getComponent (entityId : EntityId) (cid : ComponentId) (w : t)
  : option Component :=
  ComponentStore.get entityId cid (componentStore w).

Definition hasComponent (entityId : EntityId) (cid : ComponentId) (w : t)
  : bool :=
  ComponentStore.has entityId cid (componentStore w).

(** [query(descriptor)]: the world afterwards and the key that names
    the [Query] returned; [None] when its constructor throws. *)
Definition query (descriptor : QueryDescriptor) (w : t)
  : t * option string :=
  let '(cache', key) := QueryCache.get descriptor (queryCache w) in
  (with_cache (λ _, cache') w, key).

(** [q.execute()] on the [Query] that [query] returned under [key];
    [None] when the cache holds no query under that key. *)
Definition execute (key : string) (w : t) : t * option (list EntityId) :=
  match JsMap.get key (QueryCache.queries (queryCache w)) with
  | Some q =>
      let '(q', results) := Query.execute (componentStore w) q in
      (with_cache (λ c, {| QueryCache.queries :=
                             JsMap.set key q' (QueryCache.queries c) |}) w,
       Some results)
  | None => (w, None)
  end.

(** [addSystem(system)]; [None] is 'System ... already exists'. *)
Definition addSystem (system : System.t) (w : t) : option t :=
  match SystemScheduler.add system (systemScheduler w) with
  | Some s => Some (with_scheduler (λ _, s) w)
  | None => None
  end.

(** One phase of the tick, with the world's error handler. *)
Definition runPhase (p : SystemPhase.t) (dt t' : Q) (w : t)
  : t * SystemScheduler.result unit :=
  let '(s, r) :=
    SystemScheduler.executePhase p
      {| SystemContext.deltaTime := dt; SystemContext.time := t';
         SystemContext.phase := p |}
      (Some (errorHandler (config w))) (systemScheduler w) in
  (with_scheduler (λ _, s) w, r).

(** [init()]. *)
Definition init (w : t) : t * SystemScheduler.result unit :=
  runPhase SystemPhase.init 0 (time w) w.

(** The [while] loop of [update]. It leaves through its own test; the
    budget only makes the recursion structural, and
    [Z.to_nat maxFixedUpdates] is enough of it since [fixedUpdates]
    counts up to [maxFixedUpdates]. *)
Fixpoint fixedLoop (budget : nat) (fixedUpdates : Z) (w : t)
  : t * Z * SystemScheduler.result unit :=
  let fixedDeltaTime := fixedTimestep (config w) in
  if Qle_bool fixedDeltaTime (accumulator w)
     && (fixedUpdates <? maxFixedUpdates (config w))%Z
  then
    match budget with
    | O => (w, fixedUpdates, SystemScheduler.NoFuel)
    | S budget' =>
        let '(w1, r) := runPhase SystemPhase.fixedUpdate fixedDeltaTime (fixedTime w) w in
        match r with
        | SystemScheduler.Returns _ =>
            fixedLoop budget' (fixedUpdates + 1)%Z
              (with_clock (time w1) (fixedTime w1 + fixedDeltaTime)
                          (accumulator w1 - fixedDeltaTime) w1)
        | other => (w1, fixedUpdates, other)
        end
    end
  else (w, fixedUpdates, SystemScheduler.Returns tt).

(** [update(deltaTime)]. *)
Definition update (deltaTime : Q) (w : t) : t * SystemScheduler.result unit :=
  if paused w then (w, SystemScheduler.Returns tt)
  else
    let w1 := with_clock (time w + deltaTime) (fixedTime w)
                         (accumulator w + deltaTime) w in
    let '(w2, fixedUpdates, r) :=
      fixedLoop (Z.to_nat (maxFixedUpdates (config w1))) 0 w1 in
    match r with
    | SystemScheduler.Returns _ =>
        let w3 :=
          if (fixedUpdates >=? maxFixedUpdates (config w2))%Z
          then with_clock (time w2) (fixedTime w2) 0 w2 else w2 in
        let '(w4, r4) := runPhase SystemPhase.update deltaTime (time w3) w3 in
        match r4 with
        | SystemScheduler.Returns _ =>
            runPhase SystemPhase.lateUpdate deltaTime (time w4) w4
        | other => (w4, other)
        end
    | other => (w2, other)
    end.

(** [pause()], [resume()], [isPaused()], [getTime()], [getFixedTime()]. *)
Definition pause (w : t) : t := with_paused true w.
Definition resume (w : t) : t := with_paused false w.
Definition isPaused (w : t) : bool := paused w.
Definition getTime (w : t) : Q := time w.
Definition getFixedTime (w : t) : Q := fixedTime w.

(** [cleanup()]. *)
Definition cleanup (w : t) : t * SystemScheduler.result unit :=
  runPhase SystemPhase.cleanup 0 (time w) w.

(** [clear()]. *)
Definition clear (w : t) : t :=
  batch (with_cache QueryCache.clear
           (with_store ComponentStore.clear
              (with_entities (λ _, []) w))).

End World.

(** ** The scenarios the specification tests *)

Module Scenario.
Import Reactive.

(** [*] and [+] on the values modelled. *)
Definition arith (op : Z → Z → Z) (a b : value) : value :=
  match a, b with
  | VNum x, VNum y => VNum (op x y)
  | _, _ => VNaN
  end.

Definition done : prog := Ret VUndefined.

(** [s = signal(1)], [b = computed(() => s.get() * 2)],
    [c = computed(() => s.get() + 1)],
    [d = computed(() => b.get() + c.get())],
    [effect(() => { d.get(); })], then [rest]. *)
Definition diamond (rest : nat → nat → nat → nat → nat → prog) : prog :=
  NewSignal (VNum 1) (λ s,
  NewComputed (Get s (λ x, Ret (arith Z.mul x (VNum 2)))) (λ b,
  NewComputed (Get s (λ x, Ret (arith Z.add x (VNum 1)))) (λ c,
  NewComputed (Get b (λ x, Get c (λ y, Ret (arith Z.add x y)))) (λ d,
  NewEffect (Get d (λ _, done)) (λ _, None) (λ e,
  rest s b c d e))))).

(** [batch(() => { s.set(2); })]. *)
Definition batch_set (s : nat) (v : value) : prog :=
  Batch (SetSig s v done) (λ _, done).

(** [batch(() => { batch(() => { s.set(2); }); return d.peek(); })]:
    what [d] holds between the two exits. *)
Definition nested_batch_set (s d : nat) (v : value) : prog :=
  Batch (Batch (SetSig s v done) (λ _, Peek d (λ seen, Ret seen)))
        (λ seen, Ret seen).

(** [s = signal(v)], [effect(() => { s.get(); })], then [rest]. *)
Definition watched (v : value) (rest : nat → nat → prog) : prog :=
  NewSignal v (λ s,
  NewEffect (Get s (λ _, done)) (λ _, None) (λ e, rest s e)).

(** [s.set(v1); s.set(v2)]. *)
Definition set_twice (s : nat) (v1 v2 : value) : prog :=
  SetSig s v1 (SetSig s v2 done).

(** Running client code from the module's initial state. *)
Definition run (fuel : nat) (p : prog) : state * outcome value :=
  exec fuel (CProg p) initial.

(** The value a signal or computed holds. *)
Definition held (n : nat) (st : state) : option value :=
  match heap st !! n with
  | Some nd =>
      match kind nd with
      | SignalNode v => Some v
      | ComputedNode v _ _ => Some v
      | EffectNode _ _ _ _ => None
      end
  | None => None
  end.

Local Open Scope string_scope.

(** A system of the [update] phase that always completes. *)
Definition system (i : SystemId) (prio : Z) (before after : list SystemId)
  : System.t :=
  {| System.id := i; System.phases := [SystemPhase.update];
     System.priority := prio;
     System.runBefore := before; System.runAfter := after;
     System.onError := None; System.enabled := true;
     System.fn := λ _, None; System.consecutiveFailures := 0 |}.

(** The ids of a computed order. *)
Definition order_ids (r : SystemScheduler.result (list System.t))
  : option (list SystemId) :=
  match r with
  | SystemScheduler.Returns l => Some (System.id <$> l)
  | _ => None
  end.

(** A system of phase [p] that always completes, and one that always
    throws; neither has a handler of its own. *)
Definition quiet (i : SystemId) (p : SystemPhase.t) : System.t :=
  {| System.id := i; System.phases := [p]; System.priority := 0;
     System.runBefore := []; System.runAfter := [];
     System.onError := None; System.enabled := true;
     System.fn := λ _, None; System.consecutiveFailures := 0 |}.

Definition thrower (i : SystemId) (p : SystemPhase.t) : System.t :=
  {| System.id := i; System.phases := [p]; System.priority := 0;
     System.runBefore := []; System.runAfter := [];
     System.onError := None; System.enabled := true;
     System.fn := λ _, Some "Crash"; System.consecutiveFailures := 0 |}.

(** [scheduler.add(x)] for each [x] of [l], on a new scheduler. *)
Definition scheduler_of (l : list System.t) : SystemScheduler.t :=
  foldl (λ s x, default s (SystemScheduler.add x s)) SystemScheduler.new l.

(** The context of an [update] tick of 16 ms at time 0. *)
Definition tick : SystemContext.t :=
  {| SystemContext.deltaTime := 16; SystemContext.time := 0;
     SystemContext.phase := SystemPhase.update |}.

(** [new World({ fixedTimestep: 16.67 })] with one system in the
    [fixedUpdate] phase. *)
Definition fixed_world : World.t :=
  default (World.new World.defaultConfig)
    (World.addSystem (quiet "FixedUpdateSystem" SystemPhase.fixedUpdate)
       (World.new {| World.cfg_fixedTimestep := Some (1667 # 100);
                     World.cfg_maxFixedUpdates := None;
                     World.cfg_errorHandler := None |})).



(** How often [executePhase] ran phase [p]. *)
Definition phase_runs (p : SystemPhase.t) (w : World.t) : nat :=
  length (filter (λ pc, pc.1 = p)
            (SystemScheduler.phaseCalls (World.systemScheduler w))).

Definition componentA : Component :=
  {| componentId := "A"; payload := 0; entity := None |}.
Definition componentB : Component :=
  {| componentId := "B"; payload := 0; entity := None |}.

(** A new world with two entities from the counter: [e1] with [A],
    [e2] with [A] and [B]. *)
Definition populated : option (World.t * EntityId * EntityId) :=
  let '(next1, w1, e1) :=
    World.createEntity Entity.initialNextEntityId
      (World.new World.defaultConfig) in
  let '(_, w2, e2) := World.createEntity next1 w1 in
  w3 ← World.addComponent (Entity.id e1) componentA w2;
  w4 ← World.addComponent (Entity.id e2) componentA w3;
  w5 ← World.addComponent (Entity.id e2) componentB w4;
  Some (w5, Entity.id e1, Entity.id e2).

(** [{ all: [A, B] }] and [{ none: [A] }]. *)
Definition both : QueryDescriptor :=
  {| all := Some ["A"; "B"]; any := None; none := None |}.


End Scenario.

(** ** Worlds as callers build them *)

(** The worlds a caller can hold: a new one, and what each method of
    the surface leaves. *)
Inductive built : World.t → Prop :=
| built_new cfg : built (World.new cfg)
| built_createEntity next w :
    built w → built (World.createEntity next w).1.2
| built_createEntityWithId id next w next' w' entity :
    built w →
    World.createEntityWithId id next w = Some (next', w', entity) →
    built w'
| built_destroyEntity id w : built w → built (World.destroyEntity id w).1
| built_addComponent id c w w' :
    built w → World.addComponent id c w = Some w' → built w'
| built_removeComponent id cid w :
    built w → built (World.removeComponent id cid w).1
| built_query d w : built w → built (World.query d w).1
| built_execute key w : built w → built (World.execute key w).1
| built_addSystem system w w' :
    built w → World.addSystem system w = Some w' → built w'
| built_update deltaTime w : built w → built (World.update deltaTime w).1
| built_pause w : built w → built (World.pause w)
| built_resume w : built w → built (World.resume w)
| built_clear w : built w → built (World.clear w).

(** ** The rest of the surface *)

(** *** [core/system.ts]: constructing systems, looking them up *)

(** [new Set(array)]. *)
Definition set_of {A} `{EqDecision A} (l : list A) : list A :=
  foldl (λ acc x, JsSet.add x acc) [] l.

Module SystemDescriptor.
Record t : Type := mk {
  id : SystemId;
  name : string;
  phases : option (list SystemPhase.t);
  priority : option Z;
  enabled : option bool;
  runBefore : option (list SystemId);
  runAfter : option (list SystemId);
  reactive : option bool;
  workerScript : option string;
  onError : option SystemErrorHandler
}.
End SystemDescriptor.

Module SystemFactory.

(** [new System(descriptor, fn)]. [name] and [reactive] are kept by
    the source and read by nothing in the scheduler. *)
Definition newSystem (descriptor : SystemDescriptor.t) (fn : SystemFunction)
  : System.t :=
  {| System.id := SystemDescriptor.id descriptor;
     System.phases :=
       set_of (default [SystemPhase.update]
                       (SystemDescriptor.phases descriptor));
     System.priority := default 0%Z (SystemDescriptor.priority descriptor);
     System.runBefore :=
       set_of (default [] (SystemDescriptor.runBefore descriptor));
     System.runAfter :=
       set_of (default [] (SystemDescriptor.runAfter descriptor));
     System.onError := SystemDescriptor.onError descriptor;
     System.enabled := default true (SystemDescriptor.enabled descriptor);
     System.fn := fn;
     System.consecutiveFailures := 0 |}.

(** What [defineSystem] gives: a system, a [ThreadedSystem] (whose
    worker is outside this development), or the throw 'System function
    is required for non-threaded systems'. *)
Inductive defined : Type :=
| Plain (system : System.t)
| Threaded (descriptor : SystemDescriptor.t) (workerScript : string)
| ThrowsFunctionRequired.

(** [defineSystem(descriptor, fn?)]. An empty [workerScript] is falsy. *)
Definition defineSystem (descriptor : SystemDescriptor.t)
    (fn : option SystemFunction) : defined :=
  match SystemDescriptor.workerScript descriptor with
  | Some (String a script) => Threaded descriptor (String a script)
  | _ =>
      match fn with
      | None => ThrowsFunctionRequired
      | Some f => Plain (newSystem descriptor f)
      end
  end.

(** [createSystemId(name)]. *)
Definition createSystemId (name : string) : SystemId := name.

End SystemFactory.

Module SystemRegistry.

(** [SystemScheduler.has(systemId)]. *)
Definition has (systemId : SystemId) (s : SystemScheduler.t) : bool :=
  JsMap.has systemId (SystemScheduler.systems s).

(** [SystemScheduler.getAll()]. *)
Definition getAll (s : SystemScheduler.t) : list System.t :=
  JsMap.values (SystemScheduler.systems s).

End SystemRegistry.

(** *** [core/query.ts]: reading results, building queries *)

Module QueryResults.

(** [forEach(callback)]: the callback is a step on whatever state it
    closes over. *)
Definition forEach {S : Type} (callback : EntityId → S → S)
    (store : ComponentStore.t) (q : Query.t) (st : S) : Query.t * S :=
  let '(q', results) := Query.execute store q in
  (q', foldl (λ acc entityId, callback entityId acc) st results).

(** [map(callback)]. *)
Definition map {T : Type} (callback : EntityId → T)
    (store : ComponentStore.t) (q : Query.t) : Query.t * list T :=
  let '(q', results) := Query.execute store q in
  (q', callback <$> results).

(** [first()]: [results.values().next().value]. *)
Definition first (store : ComponentStore.t) (q : Query.t)
  : Query.t * option EntityId :=
  let '(q', results) := Query.execute store q in (q', head results).

(** [count()]. *)
Definition count (store : ComponentStore.t) (q : Query.t)
  : Query.t * nat :=
  let '(q', results) := Query.execute store q in (q', length results).

(** [isEmpty()]. *)
Definition isEmpty (store : ComponentStore.t) (q : Query.t)
  : Query.t * bool :=
  let '(q', n) := count store q in (q', bool_decide (n = 0)).

End QueryResults.

(** A component class, as far as the core looks at one: the two static
    properties. [classBody] stands for the rest of the class. *)
Record ComponentClass : Type := mkClass {
  classComponentId : ComponentId;
  classComponentName : string;
  classBody : nat
}.

(** [ComponentId | ComponentClass], the argument type of the builder. *)
Inductive ComponentRef : Type :=
| ById (c : ComponentId)
| ByClass (cls : ComponentClass).

Module QueryBuilder.

Record t : Type := mk { descriptor : QueryDescriptor }.

(** [new QueryBuilder(componentStore)]: [descriptor = {}]. *)
Definition new : t :=
  {| descriptor := {| all := None; any := None; none := None |} |}.

(** [typeof c === 'string' ? c : c.componentId]. *)
Definition idOf (c : ComponentRef) : ComponentId :=
  match c with
  | ById i => i
  | ByClass cls => classComponentId cls
  end.

Definition with_all (cs : list ComponentId) (d : QueryDescriptor)
  : QueryDescriptor :=
  {| all := Some cs; any := any d; none := none d |}.

Definition with_any (cs : list ComponentId) (d : QueryDescriptor)
  : QueryDescriptor :=
  {| all := all d; any := Some cs; none := none d |}.

Definition with_none (cs : list ComponentId) (d : QueryDescriptor)
  : QueryDescriptor :=
  {| all := all d; any := any d; none := Some cs |}.

(** [all(...components)], [any(...components)], [none(...components)]. *)
Definition all (components : list ComponentRef) (b : t) : t :=
  {| descriptor := with_all (idOf <$> components) (descriptor b) |}.

Definition any (components : list ComponentRef) (b : t) : t :=
  {| descriptor := with_any (idOf <$> components) (descriptor b) |}.

Definition none (components : list ComponentRef) (b : t) : t :=
  {| descriptor := with_none (idOf <$> components) (descriptor b) |}.

(** [build()]; [None] when the [Query] constructor throws. *)
Definition build (b : t) : option Query.t := Query.new (descriptor b).

End QueryBuilder.

(** *** [core/component.ts]: the registry of component classes *)

Module ComponentRegistry.

(** A class object, by reference: two names can be given one class. *)
Definition ClassRef := nat.

(** The two module-level maps, and beside them the static properties
    [componentId] and [componentName] that the class objects carry. *)
Record t : Type := mk {
  statics : list (ClassRef * (ComponentId * string));
  componentRegistry : list (ComponentId * ClassRef);
  componentNameToId : list (string * ComponentId)
}.

Definition empty : t :=
  {| statics := []; componentRegistry := []; componentNameToId := [] |}.

(** The [ComponentType] returned; its methods construct instances of
    the class and are not modelled. *)
Record ComponentType : Type := mkType {
  id : ComponentId;
  name : string
}.

(** What [defineComponent] gives: the registry it leaves with the
    [ComponentType], the throw 'Component ... is already defined', or
    whatever the factory threw. *)
Inductive registration : Type :=
| Defined (r : t) (ty : ComponentType)
| ThrowsAlreadyDefined
| ThrowsFromFactory.

(** [defineComponent(name, factory)]. [factory] is what calling the
    factory gives: a class, or [None] when it throws; a factory that
    itself defines components is outside the model. The two
    [Object.defineProperty] calls are [configurable], so they replace
    what an earlier definition put on the same class. *)
Definition defineComponent (name : string) (factory : option ClassRef)
    (r : t) : registration :=
  let id := name in
  if JsMap.has id (componentRegistry r) then ThrowsAlreadyDefined
  else
    match factory with
    | None => ThrowsFromFactory
    | Some ComponentClass =>
        Defined
          {| statics := JsMap.set ComponentClass (id, name) (statics r);
             componentRegistry :=
               JsMap.set id ComponentClass (componentRegistry r);
             componentNameToId := JsMap.set name id (componentNameToId r) |}
          {| id := id; name := name |}
    end.

(** [getComponentClass(id)], [getComponentId(name)],
    [getAllComponents()]. *)
Definition getComponentClass (id : ComponentId) (r : t) : option ClassRef :=
  JsMap.get id (componentRegistry r).

Definition getComponentId (name : string) (r : t) : option ComponentId :=
  JsMap.get name (componentNameToId r).

Definition getAllComponents (r : t) : list ClassRef :=
  JsMap.values (componentRegistry r).

(** [cls.componentId], [cls.componentName]; [None] is [undefined]. *)
Definition componentIdOf (cls : ClassRef) (r : t) : option ComponentId :=
  fst <$> JsMap.get cls (statics r).

Definition componentNameOf (cls : ClassRef) (r : t) : option string :=
  snd <$> JsMap.get cls (statics r).

End ComponentRegistry.

(** *** [core/world.ts]: the remaining methods *)

Module WorldRest.

(** [getAllComponents(entityId)]. *)
Definition getAllComponents (entityId : EntityId) (w : World.t)
  : list Component :=
  ComponentStore.getAll entityId (World.componentStore w).

(** [queryBuilder()]. *)
Definition queryBuilder (w : World.t) : QueryBuilder.t := QueryBuilder.new.

(** [removeSystem(systemId)]. *)
Definition removeSystem (systemId : SystemId) (w : World.t)
  : World.t * bool :=
  let '(s, removed) :=
    SystemScheduler.remove systemId (World.systemScheduler w) in
  (World.with_scheduler (λ _, s) w, removed).

(** [getSystem(systemId)], [hasSystem(systemId)], [getAllSystems()]. *)
Definition getSystem (systemId : SystemId) (w : World.t) : option System.t :=
  SystemScheduler.get systemId (World.systemScheduler w).

Definition hasSystem (systemId : SystemId) (w : World.t) : bool :=
  SystemRegistry.has systemId (World.systemScheduler w).





End WorldRest.
Module JsSetFacts.
Section Facts.
Context {A : Type} `{EqDecision A}.
Implicit Types (x y : A) (s : list A).

Lemma elem_of_add x y s : y ∈ JsSet.add x s ↔ y = x ∨ y ∈ s.
Proof.
  unfold JsSet.add. case_bool_decide as Hx.
  - split; [by right | by intros [->|]].
  - rewrite elem_of_app, list_elem_of_singleton. tauto.
Qed.

Lemma elem_of_delete x y s : y ∈ JsSet.delete x s ↔ y ≠ x ∧ y ∈ s.
Proof. unfold JsSet.delete. by rewrite list_elem_of_filter. Qed.

Lemma set_has_true x s : JsSet.has x s = true ↔ x ∈ s.
Proof. unfold JsSet.has. apply bool_decide_eq_true. Qed.

Lemma NoDup_add x s : NoDup s → NoDup (JsSet.add x s).
Proof.
  intros Hs. unfold JsSet.add. case_bool_decide as Hx; [done|].
  apply NoDup_app. split_and!; [done| |apply NoDup_singleton].
  intros y Hy ->%list_elem_of_singleton. done.
Qed.

Lemma NoDup_delete x s : NoDup s → NoDup (JsSet.delete x s).
Proof. apply NoDup_filter. Qed.
End Facts.
End JsSetFacts.

Module ReactiveFacts.
Import Reactive JsSetFacts.
Local Open Scope rx_scope.

(** *** Reads after a write through a handle *)

Lemma lookup_update_node n f st m :
  heap (update_node n f st) !! m =
  if decide (m = n) then f <$> heap st !! n else heap st !! m.
Proof.
  unfold update_node; simpl. destruct (decide (m = n)) as [->|Hne].
  - apply list_lookup_alter_eq.
  - by apply list_lookup_alter_ne.
Qed.

Lemma length_update_node n f st :
  length (heap (update_node n f st)) = length (heap st).
Proof. unfold update_node; simpl. apply length_alter. Qed.

Lemma subscribers_of_valid n st x :
  x ∈ subscribers_of n st → n < length (heap st).
Proof.
  unfold subscribers_of. destruct (heap st !! n) eqn:E; simpl.
  - intros _. by eapply lookup_lt_Some.
  - by intros ?%elem_of_nil.
Qed.

Lemma dependencies_of_valid n st x :
  x ∈ dependencies_of n st → n < length (heap st).
Proof.
  unfold dependencies_of. destruct (heap st !! n) eqn:E; simpl.
  - intros _. by eapply lookup_lt_Some.
  - by intros ?%elem_of_nil.
Qed.

Lemma ever_disposed_valid n st :
  ever_disposed n st = true → n < length (heap st).
Proof.
  unfold ever_disposed. destruct (heap st !! n) eqn:E; simpl; [|done].
  intros _. by eapply lookup_lt_Some.
Qed.

(** A write that leaves the three graph fields of the node alone. *)
Definition graph_neutral (f : node → node) : Prop :=
  ∀ nd, subscribers (f nd) = subscribers nd
        ∧ dependencies (f nd) = dependencies nd
        ∧ everDisposed (f nd) = everDisposed nd.

Lemma graph_neutral_with_stale b : graph_neutral (with_stale b).
Proof. by intros []. Qed.

Lemma graph_neutral_with_kind g : graph_neutral (with_kind g).
Proof. by intros []. Qed.

(** Two states with the same graph. *)
Record same_graph (st st' : state) : Prop := mkSame {
  same_subs : ∀ n, subscribers_of n st' = subscribers_of n st;
  same_deps : ∀ n, dependencies_of n st' = dependencies_of n st;
  same_disp : ∀ n, ever_disposed n st' = ever_disposed n st;
  same_len : length (heap st') = length (heap st);
  same_obs : currentObserver st' = currentObserver st
}.

Lemma same_graph_Inv st st' : same_graph st st' → Inv st → Inv st'.
Proof.
  intros [Hs Hd He Hl Ho] [I1 I2 I3]. split.
  - intros a b. rewrite Hs, Hd. apply I1.
  - intros a b. rewrite Hs, Hd, He. apply I2.
  - intros o. rewrite Hl, Ho. apply I3.
Qed.

Lemma same_graph_update_node n f st :
  graph_neutral f → same_graph st (update_node n f st).
Proof.
  intros Hf. split; try done.
  - intros m. unfold subscribers_of. rewrite lookup_update_node.
    destruct (decide (m = n)) as [->|]; [|done].
    destruct (heap st !! n); simpl; [|done]. apply Hf.
  - intros m. unfold dependencies_of. rewrite lookup_update_node.
    destruct (decide (m = n)) as [->|]; [|done].
    destruct (heap st !! n); simpl; [|done]. apply Hf.
  - intros m. unfold ever_disposed. rewrite lookup_update_node.
    destruct (decide (m = n)) as [->|]; [|done].
    destruct (heap st !! n); simpl; [|done]. apply Hf.
  - apply length_update_node.
Qed.

Lemma same_graph_heap_eq st st' :
  heap st' = heap st → currentObserver st' = currentObserver st →
  same_graph st st'.
Proof.
  intros Hh Ho. split; try done;
    try (intros n; unfold subscribers_of, dependencies_of, ever_disposed);
    by rewrite Hh.
Qed.

(** *** The writes that do touch the graph *)

Lemma subscribers_of_update_subs n g st m :
  subscribers_of m (update_node n (with_subscribers g) st) =
  if decide (m = n ∧ n < length (heap st))
  then g (subscribers_of n st) else subscribers_of m st.
Proof.
  unfold subscribers_of. rewrite lookup_update_node.
  destruct (decide (m = n)) as [->|Hne].
  - destruct (heap st !! n) eqn:E; simpl.
    + rewrite decide_True; [done|]. split; [done|]. by eapply lookup_lt_Some.
    + rewrite decide_False; [done|]. intros [_ Hlt].
      apply lookup_ge_None in E. lia.
  - rewrite decide_False; [done|]. by intros [? _].
Qed.

Lemma dependencies_of_update_subs n g st m :
  dependencies_of m (update_node n (with_subscribers g) st) =
  dependencies_of m st.
Proof.
  unfold dependencies_of. rewrite lookup_update_node.
  destruct (decide (m = n)) as [->|]; [|done].
  by destruct (heap st !! n).
Qed.

Lemma ever_disposed_update_subs n g st m :
  ever_disposed m (update_node n (with_subscribers g) st) =
  ever_disposed m st.
Proof.
  unfold ever_disposed. rewrite lookup_update_node.
  destruct (decide (m = n)) as [->|]; [|done].
  by destruct (heap st !! n).
Qed.

Lemma dependencies_of_update_deps n g st m :
  dependencies_of m (update_node n (with_dependencies g) st) =
  if decide (m = n ∧ n < length (heap st))
  then g (dependencies_of n st) else dependencies_of m st.
Proof.
  unfold dependencies_of. rewrite lookup_update_node.
  destruct (decide (m = n)) as [->|Hne].
  - destruct (heap st !! n) eqn:E; simpl.
    + rewrite decide_True; [done|]. split; [done|]. by eapply lookup_lt_Some.
    + rewrite decide_False; [done|]. intros [_ Hlt].
      apply lookup_ge_None in E. lia.
  - rewrite decide_False; [done|]. by intros [? _].
Qed.

Lemma subscribers_of_update_deps n g st m :
  subscribers_of m (update_node n (with_dependencies g) st) =
  subscribers_of m st.
Proof.
  unfold subscribers_of. rewrite lookup_update_node.
  destruct (decide (m = n)) as [->|]; [|done].
  by destruct (heap st !! n).
Qed.

Lemma ever_disposed_update_deps n g st m :
  ever_disposed m (update_node n (with_dependencies g) st) =
  ever_disposed m st.
Proof.
  unfold ever_disposed. rewrite lookup_update_node.
  destruct (decide (m = n)) as [->|]; [|done].
  by destruct (heap st !! n).
Qed.

(** *** The invariant under each primitive write *)

Lemma Inv_valid_sub st a b :
  Inv st → a ∈ subscribers_of b st →
  a < length (heap st) ∧ b < length (heap st).
Proof.
  intros HI Hab. split.
  - eapply dependencies_of_valid, (inv_sub_dep _ HI), Hab.
  - by eapply subscribers_of_valid.
Qed.

Lemma Inv_valid_dep st a b :
  Inv st → b ∈ dependencies_of a st →
  a < length (heap st) ∧ b < length (heap st).
Proof.
  intros HI Hab. split.
  - by eapply dependencies_of_valid.
  - destruct (inv_dep_sub _ HI _ _ Hab) as [H|H].
    + by eapply subscribers_of_valid.
    + by apply ever_disposed_valid.
Qed.

Lemma Inv_initial : Inv initial.
Proof.
  split.
  - intros a b. unfold subscribers_of; simpl. by intros ?%elem_of_nil.
  - intros a b. unfold dependencies_of; simpl. by intros ?%elem_of_nil.
  - done.
Qed.

Lemma Inv_with_observer st o :
  Inv st → (∀ n, o = Some n → n < length (heap st)) →
  Inv (with_observer o st).
Proof. intros [I1 I2 I3] Ho. by split. Qed.

Lemma Inv_track_write st o this :
  Inv st → o < length (heap st) → this < length (heap st) →
  Inv (update_node o (with_dependencies (JsSet.add this))
         (update_node this (with_subscribers (JsSet.add o)) st)).
Proof.
  intros [I1 I2 I3] Ho Hthis.
  set (st1 := update_node this _ st).
  assert (Hlen1 : length (heap st1) = length (heap st))
    by apply length_update_node.
  assert (Hsub : ∀ a b, a ∈ subscribers_of b
      (update_node o (with_dependencies (JsSet.add this)) st1)
      ↔ (b = this ∧ a = o) ∨ a ∈ subscribers_of b st).
  { intros a b. rewrite subscribers_of_update_deps. unfold st1.
    rewrite subscribers_of_update_subs. case_decide as Hd.
    - destruct Hd as [-> _]. rewrite elem_of_add. naive_solver.
    - split; [by right|]. intros [[-> ->]|]; [|done].
      destruct Hd. done. }
  assert (Hdep : ∀ a b, b ∈ dependencies_of a
      (update_node o (with_dependencies (JsSet.add this)) st1)
      ↔ (a = o ∧ b = this) ∨ b ∈ dependencies_of a st).
  { intros a b. rewrite dependencies_of_update_deps. case_decide as Hd.
    - destruct Hd as [-> _]. rewrite elem_of_add. unfold st1.
      rewrite dependencies_of_update_subs. naive_solver.
    - unfold st1. rewrite dependencies_of_update_subs.
      split; [by right|]. intros [[-> ->]|]; [|done].
      destruct Hd. split; [done|lia]. }
  split.
  - intros a b. rewrite Hsub, Hdep. naive_solver.
  - intros a b. rewrite Hsub, Hdep, ever_disposed_update_deps.
    unfold st1. rewrite ever_disposed_update_subs.
    intros [[-> ->]|H]; [by left; left|].
    destruct (I2 _ _ H); [left; by right | by right].
  - intros n Hn. rewrite length_update_node, Hlen1. by apply I3.
Qed.

Definition unsubscribe_all (this : nat) (deps : list nat) (st : state)
  : state :=
  foldl (λ s dep, update_node dep (with_subscribers (JsSet.delete this)) s)
        st deps.

Lemma unsubscribe_all_cons this d deps st :
  unsubscribe_all this (d :: deps) st =
  unsubscribe_all this deps
    (update_node d (with_subscribers (JsSet.delete this)) st).
Proof. done. Qed.

Lemma unsubscribe_all_spec this deps st :
  (∀ a b, a ∈ subscribers_of b (unsubscribe_all this deps st) ↔
          a ∈ subscribers_of b st ∧ (b ∈ deps → a ≠ this))
  ∧ (∀ n, dependencies_of n (unsubscribe_all this deps st)
          = dependencies_of n st)
  ∧ (∀ n, ever_disposed n (unsubscribe_all this deps st)
          = ever_disposed n st)
  ∧ length (heap (unsubscribe_all this deps st)) = length (heap st)
  ∧ currentObserver (unsubscribe_all this deps st) = currentObserver st.
Proof.
  revert st. induction deps as [|d deps IH]; intros st.
  - split_and!; try done. intros a b. split; [|by intros []].
    intros H. split; [done|]. by intros ?%elem_of_nil.
  - rewrite unsubscribe_all_cons.
    destruct (IH (update_node d (with_subscribers (JsSet.delete this)) st))
      as (Hs & Hd & He & Hl & Ho).
    split_and!.
    + intros a b. rewrite Hs, subscribers_of_update_subs.
      rewrite elem_of_cons. case_decide as Hc.
      * destruct Hc as [-> _]. rewrite elem_of_delete. naive_solver.
      * split; [|naive_solver]. intros [H1 H2]. split; [done|].
        intros [->|H3]; [|by apply H2].
        intros ->. destruct Hc. split; [done|].
        by eapply subscribers_of_valid.
    + intros n. by rewrite Hd, dependencies_of_update_subs.
    + intros n. by rewrite He, ever_disposed_update_subs.
    + by rewrite Hl, length_update_node.
    + by rewrite Ho.
Qed.

Lemma Inv_clearDependencies this st :
  Inv st →
  Inv (clearDependencies this st)
  ∧ length (heap (clearDependencies this st)) = length (heap st)
  ∧ dependencies_of this (clearDependencies this st) = [].
Proof.
  intros HI. pose proof HI as [I1 I2 I3].
  unfold clearDependencies.
  fold (unsubscribe_all this (dependencies_of this st) st).
  destruct (unsubscribe_all_spec this (dependencies_of this st) st)
    as (Hs & Hd & He & Hl & Ho).
  set (st1 := unsubscribe_all this (dependencies_of this st) st) in *.
  assert (Hdep : ∀ a, dependencies_of a
      (update_node this (with_dependencies (λ _, [])) st1)
      = if decide (a = this) then [] else dependencies_of a st).
  { intros a. rewrite dependencies_of_update_deps.
    destruct (decide (a = this)) as [->|Hne].
    - case_decide as Hc; [done|]. rewrite Hd.
      unfold dependencies_of. destruct (heap st !! this) eqn:E; [|done].
      destruct Hc. split; [done|]. rewrite Hl. by eapply lookup_lt_Some.
    - rewrite decide_False by naive_solver. apply Hd. }
  split_and!.
  - split.
    + intros a b. rewrite subscribers_of_update_deps, Hs, Hdep.
      intros [Hab Hne]. pose proof (I1 _ _ Hab) as Hba.
      destruct (decide (a = this)) as [->|]; [|done].
      by destruct (Hne Hba).
    + intros a b. rewrite subscribers_of_update_deps, Hs, Hdep.
      rewrite ever_disposed_update_deps, He.
      destruct (decide (a = this)) as [->|Hne];
        [by intros ?%elem_of_nil|].
      intros Hab. destruct (I2 _ _ Hab) as [H|H]; [left|by right].
      by split.
    + intros o. simpl. rewrite length_alter. fold (heap st1).
      rewrite Hl, Ho. apply I3.
  - by rewrite length_update_node.
  - rewrite Hdep. by rewrite decide_True.
Qed.

Lemma Inv_base_dispose this st :
  Inv st →
  Inv (base_dispose this st)
  ∧ length (heap (base_dispose this st)) = length (heap st).
Proof.
  intros HI. unfold base_dispose.
  destruct (Inv_clearDependencies this st HI) as (HI1 & Hl1 & _).
  remember (clearDependencies this st) as st1 eqn:Est1. clear Est1.
  pose proof HI1 as [I1 I2 I3].
  set (f := λ nd, mark_disposed (with_subscribers (λ _, []) nd)).
  assert (Hs : ∀ n, subscribers_of n (update_node this f st1)
                    = if decide (n = this) then []
                      else subscribers_of n st1).
  { intros n. unfold subscribers_of. rewrite lookup_update_node.
    destruct (decide (n = this)) as [->|]; [|done].
    by destruct (heap st1 !! this). }
  assert (Hd : ∀ n, dependencies_of n (update_node this f st1)
                    = dependencies_of n st1).
  { intros n. unfold dependencies_of. rewrite lookup_update_node.
    destruct (decide (n = this)) as [->|]; [|done].
    by destruct (heap st1 !! this). }
  assert (He : ∀ n, ever_disposed n (update_node this f st1)
                    = if decide (n = this ∧ this < length (heap st1))
                      then true else ever_disposed n st1).
  { intros n. unfold ever_disposed. rewrite lookup_update_node.
    destruct (decide (n = this)) as [->|Hne].
    - destruct (heap st1 !! this) eqn:E; simpl.
      + rewrite decide_True; [done|]. split; [done|].
        by eapply lookup_lt_Some.
      + rewrite decide_False; [done|]. intros [_ ?].
        apply lookup_ge_None in E. lia.
    - rewrite decide_False; [done|]. by intros [? _]. }
  split; [|by rewrite length_update_node].
  split.
  - intros a b. rewrite Hs, Hd.
    destruct (decide (b = this)); [by intros ?%elem_of_nil|]. apply I1.
  - intros a b. rewrite Hs, Hd, He. intros Hab.
    destruct (decide (b = this)) as [->|Hne].
    + right. rewrite decide_True; [done|]. split; [done|].
      by eapply Inv_valid_dep.
    + rewrite decide_False by naive_solver. by apply I2.
  - intros o. rewrite length_update_node. apply I3.
Qed.

Lemma Inv_alloc k st :
  Inv st → Inv (alloc k st).1.
Proof.
  intros HI. pose proof HI as [I1 I2 I3]. unfold alloc; simpl.
  set (nd := {| subscribers := []; dependencies := []; stale := false;
                kind := k; everDisposed := false |}).
  set (st' := with_heap (λ h, h ++ [nd]) st).
  assert (Hlook : ∀ n, n < length (heap st) →
                       heap st' !! n = heap st !! n).
  { intros n Hn. simpl. by apply lookup_app_l. }
  assert (Hnew : ∀ n, length (heap st) ≤ n →
                      subscribers_of n st' = []
                      ∧ dependencies_of n st' = []).
  { intros n Hn. unfold subscribers_of, dependencies_of. simpl.
    rewrite lookup_app_r by done.
    by destruct (n - length (heap st)) as [|m]. }
  assert (Hs : ∀ a b, a ∈ subscribers_of b st' ↔ a ∈ subscribers_of b st).
  { intros a b. destruct (decide (b < length (heap st))) as [Hb|Hb].
    - unfold subscribers_of. by rewrite Hlook.
    - destruct (Hnew b) as [-> _]; [lia|].
      split; [by intros ?%elem_of_nil|].
      intros ?%subscribers_of_valid. lia. }
  assert (Hd : ∀ a b, b ∈ dependencies_of a st' ↔ b ∈ dependencies_of a st).
  { intros a b. destruct (decide (a < length (heap st))) as [Ha|Ha].
    - unfold dependencies_of. by rewrite Hlook.
    - destruct (Hnew a) as [_ ->]; [lia|].
      split; [by intros ?%elem_of_nil|].
      intros ?%dependencies_of_valid. lia. }
  split.
  - intros a b. rewrite Hs, Hd. apply I1.
  - intros a b. rewrite Hs, Hd. intros Hab.
    destruct (I2 _ _ Hab) as [H|H]; [by left|right].
    unfold ever_disposed. rewrite Hlook; [done|].
    by apply ever_disposed_valid.
  - intros o Ho. simpl. rewrite length_app. simpl.
    specialize (I3 o Ho). lia.
Qed.
(** *** The invariant through the monad *)

(** [Good k m]: from a state that satisfies the invariant and has at
    least [k] nodes, [m] leads to a state that satisfies it and has not
    lost a node, whatever the outcome. *)
Definition Good {A} (k : nat) (m : M A) : Prop :=
  ∀ st, Inv st → k ≤ length (heap st) →
        Inv (m st).1 ∧ length (heap st) ≤ length (heap (m st).1).

Lemma Good_weaken {A} k k' (m : M A) : k ≤ k' → Good k m → Good k' m.
Proof. intros Hk Hm st HI Hlen. apply Hm; [done|lia]. Qed.

Lemma Good_ret {A} k (a : A) : Good k (ret a).
Proof. by intros st HI Hk. Qed.

Lemma Good_throw {A} k e : Good k (@throw A e).
Proof. by intros st HI Hk. Qed.

Lemma Good_out_of_fuel {A} k : Good k (@out_of_fuel A).
Proof. by intros st HI Hk. Qed.

Lemma Good_gets {A} k (g : state → A) : Good k (gets g).
Proof. by intros st HI Hk. Qed.

Lemma Good_bind {A B} k (m : M A) (f : A → M B) :
  Good k m → (∀ a, Good k (f a)) → Good k (bind m f).
Proof.
  intros Hm Hf st HI Hk. unfold bind.
  destruct (Hm st HI Hk) as [HI' Hl].
  destruct (m st) as [st' [a|e|]]; simpl in *; try done.
  destruct (Hf a st' HI') as [HI'' Hl']; [lia|]. split; [done|lia].
Qed.

Lemma Good_modify k (f : state → state) :
  (∀ st, Inv st → k ≤ length (heap st) →
         Inv (f st) ∧ length (heap st) ≤ length (heap (f st))) →
  Good k (modify f).
Proof. intros Hf st HI Hk. by apply Hf. Qed.

Lemma Good_modify_same k (f : state → state) :
  (∀ st, same_graph st (f st)) → Good k (modify f).
Proof.
  intros Hf. apply Good_modify. intros st HI _. split.
  - by eapply same_graph_Inv.
  - by rewrite (same_len _ _ (Hf st)).
Qed.

Lemma Good_finally {A} k (m : M A) (f : M unit) :
  Good k m → Good k f → Good k (finally m f).
Proof.
  intros Hm Hf st HI Hk. unfold finally.
  destruct (Hm st HI Hk) as [HI' Hl].
  destruct (m st) as [st' r]; simpl in *.
  destruct (Hf st' HI') as [HI'' Hl']; [lia|].
  destruct r; try done; destruct (f st') as [st'' [[]|e'|]]; simpl in *;
    (split; [done|lia]).
Qed.

Lemma Good_try_catch {A} k (m : M A) (h : exn → M A) :
  Good k m → (∀ e, Good k (h e)) → Good k (try_catch m h).
Proof.
  intros Hm Hh st HI Hk. unfold try_catch.
  destruct (Hm st HI Hk) as [HI' Hl].
  destruct (m st) as [st' [a|e|]]; simpl in *; try done.
  destruct (Hh e st' HI') as [HI'' Hl']; [lia|]. split; [done|lia].
Qed.

Lemma Good_when k b (m : M unit) : Good k m → Good k (when b m).
Proof. intros Hm. destruct b; [done|apply Good_ret]. Qed.

Lemma Good_for_each {A} k (l : list A) (body : A → M unit) :
  (∀ x, Good k (body x)) → Good k (for_each l body).
Proof.
  intros Hb. induction l as [|x l IH]; simpl.
  - apply Good_ret.
  - apply Good_bind; [apply Hb|done].
Qed.

Lemma Good_fold_each {A B} k (l : list A) (acc : B) (body : B → A → M B) :
  (∀ b x, Good k (body b x)) → Good k (fold_each l acc body).
Proof.
  intros Hb. revert acc. induction l as [|x l IH]; intros acc; simpl.
  - apply Good_ret.
  - apply Good_bind; [apply Hb|]. intros acc'. apply IH.
Qed.

Lemma Good_lookup {A} k n (f : node → M A) :
  (∀ nd, Good (k `max` S n) (f nd)) → Good k (bind (lookup_node n) f).
Proof.
  intros Hf st HI Hk. unfold bind, lookup_node.
  destruct (heap st !! n) as [nd|] eqn:E; [|done].
  apply Hf; [done|]. apply lookup_lt_Some in E. lia.
Qed.

Lemma Good_alloc k kd : Good k (alloc kd).
Proof.
  intros st HI Hk. split; [by apply Inv_alloc|].
  simpl. rewrite length_app. lia.
Qed.

Lemma Good_track this : Good (S this) (track this).
Proof.
  intros st HI Hk. unfold track.
  destruct (currentObserver st) as [o|] eqn:Eo; [|done].
  case_bool_decide; [|done]. cbn [fst]. split.
  - apply Inv_track_write; [done| |lia]. by apply (inv_observer _ HI).
  - by rewrite !length_update_node.
Qed.

Lemma Good_clearDependencies k this : Good k (modify (clearDependencies this)).
Proof.
  apply Good_modify. intros st HI _.
  destruct (Inv_clearDependencies this st HI) as (? & Hl & _).
  split; [done|lia].
Qed.

Lemma Good_base_dispose k this : Good k (modify (base_dispose this)).
Proof.
  apply Good_modify. intros st HI _.
  destruct (Inv_base_dispose this st HI) as (? & Hl).
  split; [done|lia].
Qed.

Lemma Good_update_neutral k n f :
  graph_neutral f → Good k (modify (update_node n f)).
Proof.
  intros Hf. apply Good_modify_same. intros st.
  by apply same_graph_update_node.
Qed.

Lemma Good_log k ev : Good k (modify (log ev)).
Proof. apply Good_modify_same. intros st. by apply same_graph_heap_eq. Qed.

Lemma Good_with_stack k f : Good k (modify (with_stack f)).
Proof. apply Good_modify_same. intros st. by apply same_graph_heap_eq. Qed.

Lemma Good_with_depth k f : Good k (modify (with_depth f)).
Proof. apply Good_modify_same. intros st. by apply same_graph_heap_eq. Qed.

Lemma Good_with_batched k f : Good k (modify (with_batched f)).
Proof. apply Good_modify_same. intros st. by apply same_graph_heap_eq. Qed.

Lemma Good_observing {A} k this (body : M A) :
  this < k → Good k body → Good k (observing this body).
Proof.
  intros Hthis Hbody st HI Hk. unfold observing.
  pose proof (inv_observer _ HI) as Hobs.
  unfold bind at 1. unfold gets at 1.
  set (prev := currentObserver st) in *.
  assert (Hprev : ∀ st', length (heap st) ≤ length (heap st') →
            ∀ n, prev = Some n → n < length (heap st')).
  { intros st' Hl n Hn. specialize (Hobs n Hn). lia. }
  assert (Hrest : Good (length (heap st))
            (finally body
               (modify (with_stack (@removelast nat)) ;;
                modify (with_observer prev)))).
  { apply Good_finally; [by eapply Good_weaken, Hbody|].
    apply Good_bind; [apply Good_with_stack|]. intros _.
    apply Good_modify. intros st' HI' Hl'. split; [|done].
    apply Inv_with_observer; [done|]. by apply Hprev. }
  assert (Hpre : Good (length (heap st))
            (modify (with_observer (Some this)) ;;
             modify (with_stack (λ s, s ++ [this])) ;;
             finally body
               (modify (with_stack (@removelast nat)) ;;
                modify (with_observer prev)))).
  { apply Good_bind.
    - apply Good_modify. intros st' HI' Hl'. split; [|done].
      apply Inv_with_observer; [done|]. intros n [= <-]. lia.
    - intros _. apply Good_bind; [apply Good_with_stack|]. by intros _. }
  by apply Hpre.
Qed.

Lemma Good_untrack {A} k (fn : M A) : Good k fn → Good k (untrack fn).
Proof.
  intros Hfn st HI Hk. unfold untrack.
  pose proof (inv_observer _ HI) as Hobs.
  unfold bind at 1. unfold gets at 1.
  set (prev := currentObserver st) in *.
  assert (Hpre : Good (length (heap st))
            (modify (with_observer None) ;;
             finally fn (modify (with_observer prev)))).
  { apply Good_bind.
    - apply Good_modify. intros st' HI' Hl'. split; [|done].
      by apply Inv_with_observer.
    - intros _. apply Good_finally; [by eapply Good_weaken, Hfn|].
      apply Good_modify. intros st' HI' Hl'. split; [|done].
      apply Inv_with_observer; [done|]. intros n Hn.
      specialize (Hobs n Hn). lia. }
  by apply Hpre.
Qed.

Lemma Good_batch {A} k (flush : M unit) (fn : M A) :
  Good k flush → Good k fn → Good k (batch flush fn).
Proof.
  intros Hflush Hfn. unfold batch.
  apply Good_bind; [apply Good_with_depth|]. intros _.
  apply Good_finally; [done|].
  apply Good_bind; [apply Good_with_depth|]. intros _.
  apply Good_bind; [apply Good_gets|]. intros d.
  by apply Good_when.
Qed.
(** *** The invariant through each method *)

Section MethodsGood.
Variable self : call → M value.
Hypothesis self_good : ∀ c, Good 0 (self c).

Lemma Good_self k c : Good k (self c).
Proof. eapply Good_weaken, self_good. lia. Qed.

Lemma Good_do k c : Good k (do_ self c).
Proof.
  apply Good_bind; [apply Good_self|]. intros _. apply Good_ret.
Qed.

Lemma Good_void k m : Good k m → Good k (void m).
Proof. intros Hm. apply Good_bind; [done|]. intros _. apply Good_ret. Qed.

Lemma Good_notify k this : Good k (notify self this).
Proof.
  unfold notify. apply Good_bind; [apply Good_gets|]. intros subs.
  apply Good_bind.
  - apply Good_for_each. intros x.
    apply Good_bind; [apply Good_gets|]. intros live.
    apply Good_when, Good_update_neutral, graph_neutral_with_stale.
  - intros _. apply Good_for_each. intros x.
    apply Good_bind; [apply Good_gets|]. intros live.
    apply Good_when, Good_do.
Qed.

Lemma Good_Signal_get this v : Good (S this) (Signal_get this v).
Proof.
  apply Good_bind; [apply Good_track|]. intros _. apply Good_ret.
Qed.

Lemma Good_Signal_set k this old v : Good k (Signal_set self this old v).
Proof.
  unfold Signal_set. destruct (negb (Object_is old v)); [|apply Good_ret].
  apply Good_bind;
    [apply Good_update_neutral, graph_neutral_with_kind|]. intros _.
  apply Good_bind;
    [apply Good_update_neutral, graph_neutral_with_stale|]. intros _.
  apply Good_bind; [apply Good_gets|]. intros d.
  destruct (d >? 0)%Z; [apply Good_with_batched|apply Good_do].
Qed.

Lemma Good_computed_value k this : Good k (computed_value this).
Proof.
  apply Good_lookup. intros nd.
  destruct (kind nd); first [apply Good_ret|apply Good_throw].
Qed.

Lemma Good_defined k v : Good k (defined v).
Proof. destruct v; first [apply Good_ret|apply Good_throw]. Qed.

Lemma Good_Computed_recompute this compute :
  Good (S this) (Computed_recompute self this compute).
Proof.
  apply Good_bind; [apply Good_clearDependencies|]. intros _.
  apply Good_observing; [lia|].
  apply Good_bind; [apply Good_log|]. intros _.
  apply Good_bind; [apply Good_self|]. intros v.
  apply Good_bind;
    [apply Good_update_neutral, graph_neutral_with_kind|]. intros _.
  apply Good_update_neutral, graph_neutral_with_stale.
Qed.

Lemma Good_Computed_get this nd computed :
  Good (S this) (Computed_get self this nd computed).
Proof.
  apply Good_bind; [apply Good_when, Good_do|]. intros _.
  apply Good_bind; [apply Good_track|]. intros _.
  apply Good_bind; [apply Good_computed_value|]. intros v.
  apply Good_defined.
Qed.

Lemma Good_Computed_peek k this computed :
  Good k (Computed_peek self this computed).
Proof.
  apply Good_bind; [apply Good_when, Good_do|]. intros _.
  apply Good_bind; [apply Good_computed_value|]. intros v.
  apply Good_defined.
Qed.

Lemma Good_Computed_update k this nd : Good k (Computed_update self this nd).
Proof.
  unfold Computed_update. destruct (negb (stale nd)); [apply Good_ret|].
  apply Good_bind; [apply Good_do|]. intros _. apply Good_notify.
Qed.

Lemma Good_Computed_dispose k this v compute :
  Good k (Computed_dispose this v compute).
Proof.
  apply Good_bind;
    [apply Good_update_neutral, graph_neutral_with_kind|]. intros _.
  apply Good_bind;
    [apply Good_update_neutral, graph_neutral_with_stale|]. intros _.
  apply Good_base_dispose.
Qed.

Lemma Good_set_cleanup k this c : Good k (modify (set_cleanup this c)).
Proof. apply Good_update_neutral, graph_neutral_with_kind. Qed.

Lemma Good_set_disposed k this : Good k (modify (set_disposed this)).
Proof. apply Good_update_neutral, graph_neutral_with_kind. Qed.

Lemma Good_run_cleanup k this cleanup : Good k (run_cleanup self this cleanup).
Proof.
  destruct cleanup as [c|]; [|apply Good_ret]. simpl.
  apply Good_bind; [apply Good_log|]. intros _.
  apply Good_bind; [apply Good_do|]. intros _.
  apply Good_set_cleanup.
Qed.

Lemma Good_Effect_run this cleanup disposed effect cleanupOf :
  Good (S this) (Effect_run self this cleanup disposed effect cleanupOf).
Proof.
  unfold Effect_run. destruct disposed; [apply Good_ret|].
  apply Good_bind; [apply Good_clearDependencies|]. intros _.
  apply Good_observing; [lia|].
  apply Good_bind; [apply Good_run_cleanup|]. intros _.
  apply Good_bind; [apply Good_log|]. intros _.
  apply Good_bind; [apply Good_self|]. intros v.
  apply Good_bind; [apply Good_set_cleanup|]. intros _.
  apply Good_update_neutral, graph_neutral_with_stale.
Qed.

Lemma Good_Effect_update k this nd disposed :
  Good k (Effect_update self this nd disposed).
Proof.
  unfold Effect_update.
  destruct (negb (stale nd) || disposed); [apply Good_ret|apply Good_do].
Qed.

Lemma Good_Effect_dispose k this cleanup disposed :
  Good k (Effect_dispose self this cleanup disposed).
Proof.
  unfold Effect_dispose. destruct disposed; [apply Good_ret|].
  apply Good_bind; [apply Good_set_disposed|]. intros _.
  apply Good_bind; [apply Good_run_cleanup|]. intros _.
  apply Good_base_dispose.
Qed.

Lemma Good_flushBatchedUpdates k : Good k (flushBatchedUpdates self).
Proof.
  unfold flushBatchedUpdates.
  apply Good_bind; [apply Good_gets|]. intros batched.
  case_bool_decide; [apply Good_ret|].
  apply Good_bind.
  { apply Good_fold_each. intros pending sig.
    apply Good_bind; [apply Good_gets|]. intros subs.
    apply Good_fold_each. intros pending' x.
    apply Good_bind;
      [apply Good_update_neutral, graph_neutral_with_stale|].
    intros _. apply Good_ret. }
  intros pending. apply Good_bind; [apply Good_with_batched|]. intros _.
  apply Good_for_each. intros x. apply Good_do.
Qed.

Lemma Good_run_prog p : Good 0 (run_prog self p).
Proof.
  destruct p; simpl.
  - apply Good_ret.
  - apply Good_throw.
  - apply Good_bind; [apply Good_self|]. intros v. apply Good_self.
  - apply Good_bind; [apply Good_self|]. intros v. apply Good_self.
  - apply Good_bind; [apply Good_self|]. intros _. apply Good_self.
  - apply Good_bind; [apply Good_self|]. intros _. apply Good_self.
  - apply Good_bind; [|intros v; apply Good_self].
    apply Good_batch; [apply Good_do|apply Good_self].
  - apply Good_bind; [|intros v; apply Good_self].
    apply Good_untrack, Good_self.
  - apply Good_bind; [|intros v; apply Good_self].
    apply Good_try_catch; [apply Good_self|]. intros e. apply Good_self.
  - apply Good_bind; [apply Good_alloc|]. intros n. apply Good_self.
  - apply Good_bind; [apply Good_alloc|]. intros n. apply Good_self.
  - apply Good_bind; [apply Good_alloc|]. intros n.
    apply Good_bind; [apply Good_self|]. intros _. apply Good_self.
Qed.

Lemma Good_dispatch c : Good 0 (dispatch self c).
Proof.
  destruct c; simpl;
    try (apply Good_lookup; intros nd; destruct (kind nd)).
  all: try apply Good_throw.
  all: try apply Good_ret.
  all: try apply Good_void.
  - apply Good_run_prog.
  - apply Good_Signal_get.
  - apply Good_Computed_get.
  - apply Good_Computed_peek.
  - apply Good_Signal_set.
  - apply Good_Computed_recompute.
  - apply Good_Computed_update.
  - apply Good_Effect_update.
  - apply Good_notify.
  - apply Good_Effect_run.
  - apply Good_base_dispose.
  - apply Good_Computed_dispose.
  - apply Good_Effect_dispose.
  - apply Good_flushBatchedUpdates.
Qed.
End MethodsGood.

Lemma Good_exec fuel c : Good 0 (exec fuel c).
Proof.
  revert c. induction fuel as [|fuel IH]; intros c; simpl.
  - apply Good_out_of_fuel.
  - by apply Good_dispatch.
Qed.

Lemma Inv_exec fuel c st : Inv st → Inv (exec fuel c st).1.
Proof. intros HI. apply (Good_exec fuel c st HI). lia. Qed.

Lemma reachable_Inv st : reachable st → Inv st.
Proof.
  induction 1 as [|fuel c st _ IH]; [apply Inv_initial|by apply Inv_exec].
Qed.

(** *** A batch around code that writes no signal *)

Lemma batch_without_writes {A} fuel (a : A) st :
  (batchDepth st = 0%Z → batchedSignals st = []) →
  batch (do_ (exec (S fuel)) CFlush) (ret a) st = (st, Normal a).
Proof.
  intros Hidle. destruct st as [h o stk d bs tr]; simpl in *.
  unfold batch, bind, modify, finally, ret, gets, with_depth; simpl.
  rewrite Z.pred_succ.
  destruct (d =? 0)%Z eqn:Ed; simpl; [|done].
  apply Z.eqb_eq in Ed. rewrite (Hidle Ed).
  unfold do_, bind, void, flushBatchedUpdates, bind, gets; simpl.
  by subst d.
Qed.

(** *** The repository's reactive tests, on the embedding

    Each is a case of [reactive/signal.test.ts], with the count its
    [expect] states. *)

Definition body_runs (n : nat) (p : prog) : nat :=
  effect_runs n (Scenario.run 64 p).1.

Definition cleanup_runs (n : nat) (p : prog) : nat :=
  length (filter (λ ev, ev = EvCleanup n) (trace (Scenario.run 64 p).1)).

(** 'should handle effects creating effects': after [count.set(1)] the
    outer body has run twice and the inner bodies three times. *)
Example test_effects_creating_effects :
  let p :=
    NewSignal (VNum 0) (λ count,
    NewEffect
      (Get count (λ _,
       NewEffect (Get count (λ _, Scenario.done)) (λ _, None)
                 (λ _, Scenario.done)))
      (λ _, None)
      (λ _, SetSig count (VNum 1) Scenario.done)) in
  body_runs 1 p = 2 ∧ body_runs 2 p + body_runs 3 p = 3.
Proof. vm_compute. by split. Qed.

(** 'should handle dynamic dependencies' (Effect): four runs. *)
Example test_dynamic_dependencies :
  body_runs 3
    (NewSignal (VNum 1) (λ condition,
     NewSignal (VNum 1) (λ a,
     NewSignal (VNum 2) (λ b,
     NewEffect
       (Get condition (λ c,
          match c with
          | VNum 1 => Get a (λ _, Scenario.done)
          | _ => Get b (λ _, Scenario.done)
          end))
       (λ _, None)
       (λ _,
        SetSig a (VNum 10) (SetSig b (VNum 20)
        (SetSig condition (VNum 0)
        (SetSig a (VNum 100) (SetSig b (VNum 200) Scenario.done)))))))))
  = 4.
Proof. reflexivity. Qed.

(** 'should handle disposal' (Computed): a disposed computed recomputes
    on its next [get()]. *)
Example test_computed_disposal :
  (Scenario.run 64
     (NewSignal (VNum 1) (λ count,
      NewComputed (Get count (λ x, Ret (Scenario.arith Z.mul x (VNum 2))))
        (λ doubled,
         Get doubled (λ _,
         Dispose doubled
           (SetSig count (VNum 10) (Get doubled (λ v, Ret v)))))))).2
  = Normal (VNum 20).
Proof. reflexivity. Qed.

(** 'should handle cleanup function' and 'should call cleanup on
    dispose': the cleanup runs before each re-run, and once on a
    disposal that is then repeated. *)
Example test_cleanup :
  cleanup_runs 1
    (NewSignal (VNum 0) (λ count,
     NewEffect (Get count (λ _, Scenario.done)) (λ _, Some Scenario.done)
       (λ _, SetSig count (VNum 1) (SetSig count (VNum 2) Scenario.done))))
  = 2
  ∧ cleanup_runs 0
      (NewEffect Scenario.done (λ _, Some Scenario.done)
         (λ e, Dispose e (Dispose e Scenario.done)))
    = 1.
Proof. vm_compute. by split. Qed.

(** 'should not run after disposal'. *)
Example test_no_run_after_disposal :
  body_runs 1
    (Scenario.watched (VNum 0)
       (λ count e, Dispose e (SetSig count (VNum 1) Scenario.done)))
  = 1.
Proof. reflexivity. Qed.

(** 'should handle nested batches': three writes, one more run. *)
Example test_nested_batches :
  body_runs 1
    (Scenario.watched (VNum 0) (λ count _,
       Batch
         (SetSig count (VNum 1)
            (Batch (SetSig count (VNum 2) Scenario.done)
                   (λ _, SetSig count (VNum 3) Scenario.done)))
         (λ _, Scenario.done)))
  = 2.
Proof. reflexivity. Qed.

(** 'should allow partial tracking' ([untrack]). *)
Example test_untrack :
  body_runs 2
    (NewSignal (VNum 1) (λ a,
     NewSignal (VNum 2) (λ b,
     NewEffect
       (Get a (λ _, Untrack (Get b (λ v, Ret v)) (λ _, Scenario.done)))
       (λ _, None)
       (λ _, SetSig a (VNum 10) (SetSig b (VNum 20) Scenario.done)))))
  = 2.
Proof. reflexivity. Qed.

(** *** The claims about the reactive graph *)

(** C1. Glitch-free batching. For the diamond [s = 1], [b = s * 2],
    [c = s + 1], [d = b + c] and one effect reading [d]: the effect body
    has run once after construction and [d] holds [4]; after [batch(() => { s.set(2); })]
    it has run exactly once more, and [d] holds [7]. The flush belongs
    to the outermost exit: a batch that exits at depth one leaves the
    write pending and the effect alone, and in
    [batch(() => { batch(() => { s.set(2); }); return d.peek(); })]
    the inner exit leaves [d] at [4], the outer exit then runs the
    effect once. *)
Theorem batch_runs_diamond_effect_once :
  let setup := Scenario.run 64 (Scenario.diamond (λ _ _ _ _ _, Scenario.done)) in
  let batched :=
    Scenario.run 64
      (Scenario.diamond (λ s _ _ _ _, Scenario.batch_set s (VNum 2))) in
  let inner :=
    exec 64 (CProg (Scenario.batch_set 0 (VNum 2)))
         (with_depth (λ _, 1%Z) setup.1) in
  let nested :=
    Scenario.run 64
      (Scenario.diamond (λ s _ _ d _,
         Scenario.nested_batch_set s d (VNum 2))) in
  (setup.2 = Normal VUndefined
   ∧ effect_runs 4 setup.1 = 1
   ∧ Scenario.held 3 setup.1 = Some (VNum 4))
  ∧ (batched.2 = Normal VUndefined
     ∧ effect_runs 4 batched.1 = 2
     ∧ Scenario.held 3 batched.1 = Some (VNum 7)
     ∧ batchDepth batched.1 = 0%Z
     ∧ batchedSignals batched.1 = [])
  ∧ (inner.2 = Normal VUndefined
     ∧ effect_runs 4 inner.1 = 1
     ∧ batchDepth inner.1 = 1%Z
     ∧ batchedSignals inner.1 = [0])
  ∧ (nested.2 = Normal (VNum 4)
     ∧ effect_runs 4 nested.1 = 2
     ∧ Scenario.held 3 nested.1 = Some (VNum 7)).
Proof. vm_compute. repeat split. Qed.

(** C9. Write idempotence. [s.set(v)] with [Object.is(s.value, v)]
    returns with the whole state as it was: no node is marked stale, no
    subscriber runs, nothing is batched. In particular an effect reading
    [s = signal(5)] has run once and [s.set(5)] does not run it again;
    with [s = signal(NaN)], neither does [s.set(NaN)] twice; and from
    [s = signal(5)], [s.set(NaN); s.set(NaN)] runs it once, for the first
    write. *)
Theorem set_same_value_notifies_nobody :
  (∀ fuel st n nd old v,
     heap st !! n = Some nd →
     kind nd = SignalNode old →
     Object_is old v = true →
     exec (S fuel) (CSet n v) st = (st, Normal VUndefined))
  ∧ Object_is VNaN VNaN = true
  ∧ effect_runs 1
      (Scenario.run 64 (Scenario.watched (VNum 5) (λ _ _, Scenario.done))).1
    = 1
  ∧ effect_runs 1
      (Scenario.run 64
         (Scenario.watched (VNum 5) (λ s _, SetSig s (VNum 5) Scenario.done))).1
    = 1
  ∧ effect_runs 1
      (Scenario.run 64
         (Scenario.watched VNaN (λ s _, Scenario.set_twice s VNaN VNaN))).1
    = 1
  ∧ effect_runs 1
      (Scenario.run 64
         (Scenario.watched (VNum 5) (λ s _, Scenario.set_twice s VNaN VNaN))).1
    = 2.
Proof.
  split; [|vm_compute; repeat split].
  intros fuel st n nd old v Hn Hk Heq. simpl.
  unfold bind at 1. unfold lookup_node. rewrite Hn, Hk.
  unfold void, Signal_set. by rewrite Heq.
Qed.

Lemma set_same_value_notifies_nobody_witness :
  let st := (Scenario.run 64
               (Scenario.watched VNaN (λ _ _, Scenario.done))).1 in
  exec 1 (CSet 0 VNaN) st = (st, Normal VUndefined).
Proof.
  intros st.
  eapply (proj1 set_same_value_notifies_nobody 0 st 0 _ VNaN VNaN);
    reflexivity.
Defined.

(** C8 as stated fails: after [s = signal(1)], an effect reading [s],
    and [s.dispose()], the effect still lists [s] among its
    dependencies and [s] has no subscriber. *)
Lemma dispose_breaks_symmetry : ¬ (∀ st, reachable st → symmetric st).
Proof.
  intros H.
  pose (p := Scenario.watched (VNum 1) (λ s _, Dispose s Scenario.done)).
  assert (Hr : reachable (exec 64 (CProg p) initial).1)
    by apply reachable_exec, reachable_initial.
  specialize (H _ Hr 1 0).
  assert (Hdep : 0 ∈ dependencies_of 1 (exec 64 (CProg p) initial).1)
    by (vm_compute; apply list_elem_of_here).
  apply H in Hdep. vm_compute in Hdep. by apply elem_of_nil in Hdep.
Qed.

(** C8, amended. In every state the graph can reach, after any call and
    at any point inside one: whenever B's subscriber set contains A,
    A's dependency set contains B; and whenever A's dependency set
    contains B, B's subscriber set contains A unless [dispose()] has run
    on B. *)
Theorem edges_symmetric_up_to_dispose st :
  reachable st →
  (∀ a b, a ∈ subscribers_of b st → b ∈ dependencies_of a st)
  ∧ (∀ a b, b ∈ dependencies_of a st →
            ever_disposed b st = false → a ∈ subscribers_of b st).
Proof.
  intros [I1 I2 _]%reachable_Inv. split; [done|].
  intros a b Hab Hb. destruct (I2 _ _ Hab) as [|Hd]; [done|].
  by rewrite Hd in Hb.
Qed.

Lemma edges_symmetric_up_to_dispose_witness :
  let st := (Scenario.run 64
               (Scenario.watched (VNum 1)
                  (λ s _, Dispose s Scenario.done))).1 in
  (∀ a b, a ∈ subscribers_of b st → b ∈ dependencies_of a st)
  ∧ (∀ a b, b ∈ dependencies_of a st →
            ever_disposed b st = false → a ∈ subscribers_of b st).
Proof.
  intros st. apply (edges_symmetric_up_to_dispose st).
  apply reachable_exec, reachable_initial.
Defined.
End ReactiveFacts.

(** ** Facts about insertion-ordered maps *)

Module JsMapFacts.
Section Facts.
Context {K V : Type} `{EqDecision K}.
Implicit Types (k : K) (v : V) (m : list (K * V)).

Lemma get_set k k' v m :
  JsMap.get k (JsMap.set k' v m) =
  if decide (k = k') then Some v else JsMap.get k m.
Proof.
  induction m as [|[k0 v0] m IH]; simpl.
  - by destruct (decide (k = k')).
  - destruct (decide (k' = k0)) as [->|Hne]; simpl.
    + by destruct (decide (k = k0)).
    + destruct (decide (k = k0)) as [->|Hne'].
      * rewrite decide_False; [done|]. by intros ->.
      * done.
Qed.

Lemma get_set_eq k v m : JsMap.get k (JsMap.set k v m) = Some v.
Proof. rewrite get_set. by rewrite decide_True. Qed.

Lemma get_set_ne k k' v m :
  k ≠ k' → JsMap.get k (JsMap.set k' v m) = JsMap.get k m.
Proof. intros Hne. rewrite get_set. by rewrite decide_False. Qed.

Lemma elem_of_keys k m : k ∈ JsMap.keys m ↔ is_Some (JsMap.get k m).
Proof.
  unfold JsMap.keys. induction m as [|[k0 v0] m IH]; simpl.
  - rewrite elem_of_nil. split; [done|]. by intros [? ?].
  - rewrite elem_of_cons, IH. destruct (decide (k = k0)) as [->|Hne].
    + split; [by eauto|by left].
    + split; [by intros [?|?]|by right].
Qed.

Lemma not_elem_of_keys k m : k ∉ JsMap.keys m ↔ JsMap.get k m = None.
Proof. rewrite elem_of_keys, eq_None_not_Some. done. Qed.

Lemma map_has_true k m : JsMap.has k m = true ↔ k ∈ JsMap.keys m.
Proof.
  rewrite elem_of_keys. unfold JsMap.has.
  destruct (JsMap.get k m); split; try done; try by eauto.
Qed.

Lemma keys_set k v m :
  JsMap.keys (JsMap.set k v m) =
  if JsMap.has k m then JsMap.keys m else JsMap.keys m ++ [k].
Proof.
  unfold JsMap.keys, JsMap.has. induction m as [|[k0 v0] m IH]; simpl.
  - done.
  - destruct (decide (k = k0)) as [->|Hne]; simpl; [done|].
    destruct (JsMap.get k m); simpl in *; f_equal; exact IH.
Qed.

Lemma elem_of_keys_set k k' v m :
  k ∈ JsMap.keys (JsMap.set k' v m) ↔ k = k' ∨ k ∈ JsMap.keys m.
Proof.
  rewrite !elem_of_keys, get_set. destruct (decide (k = k')) as [->|Hne].
  - split; [by left|by eauto].
  - split; [by right|by intros [?|?]].
Qed.

Lemma NoDup_keys_set k v m :
  NoDup (JsMap.keys m) → NoDup (JsMap.keys (JsMap.set k v m)).
Proof.
  intros Hm. rewrite keys_set. destruct (JsMap.has k m) eqn:E; [done|].
  apply NoDup_app. split_and!; [done| |apply NoDup_singleton].
  intros x Hx ->%list_elem_of_singleton.
  apply map_has_true in Hx. congruence.
Qed.

Lemma get_delete k k' m :
  JsMap.get k (JsMap.delete k' m) =
  if decide (k = k') then None else JsMap.get k m.
Proof.
  unfold JsMap.delete. induction m as [|[k0 v0] m IH]; simpl.
  - by destruct (decide (k = k')).
  - rewrite filter_cons. simpl. destruct (decide (k0 ≠ k')) as [Hne|Heq].
    + simpl. rewrite IH. destruct (decide (k = k0)) as [->|];
        [by rewrite decide_False|done].
    + apply dec_stable in Heq as ->. rewrite IH.
      by destruct (decide (k = k')).
Qed.

Lemma keys_delete k m :
  JsMap.keys (JsMap.delete k m) = filter (λ x, x ≠ k) (JsMap.keys m).
Proof.
  unfold JsMap.keys, JsMap.delete. induction m as [|[k0 v0] m IH]; [done|].
  rewrite fmap_cons, !filter_cons. simpl.
  destruct (decide (k0 ≠ k)); [rewrite fmap_cons; simpl|]; by rewrite IH.
Qed.

Lemma elem_of_keys_delete k k' m :
  k ∈ JsMap.keys (JsMap.delete k' m) ↔ k ≠ k' ∧ k ∈ JsMap.keys m.
Proof. rewrite keys_delete. by rewrite list_elem_of_filter. Qed.
End Facts.
End JsMapFacts.

(** ** Facts about the strings of the query cache *)

Module JsStringFacts.
Local Open Scope string_scope.

Lemma prefix_append (s t : string) : String.prefix s (s ++ t) = true.
Proof.
  induction s as [|a s IH]; simpl; [by destruct t|].
  destruct (Ascii.ascii_dec a a); [done|congruence].
Qed.

Lemma prefix_refl (s : string) : String.prefix s s = true.
Proof.
  induction s as [|a s IH]; simpl; [done|].
  destruct (Ascii.ascii_dec a a); [done|congruence].
Qed.

Lemma prefix_append_l (sub s t : string) :
  String.prefix sub s = true → String.prefix sub (s ++ t) = true.
Proof.
  revert s. induction sub as [|a sub IH]; intros s; simpl.
  - intros _. by destruct (s ++ t).
  - destruct s as [|b s]; simpl; [done|].
    destruct (Ascii.ascii_dec a b); [apply IH|done].
Qed.

Lemma includes_prefix (s sub : string) :
  String.prefix sub s = true → JsString.includes s sub = true.
Proof. intros Hp. destruct s; simpl in *; by rewrite Hp. Qed.

Lemma includes_self_append (s t : string) :
  JsString.includes (s ++ t) s = true.
Proof. apply includes_prefix, prefix_append. Qed.

Lemma includes_append_r (p t sub : string) :
  JsString.includes t sub = true → JsString.includes (p ++ t) sub = true.
Proof.
  intros Ht. induction p as [|a p IH]; simpl; [done|].
  rewrite IH. apply orb_true_r.
Qed.

Lemma includes_append_l (s t sub : string) :
  JsString.includes s sub = true → JsString.includes (s ++ t) sub = true.
Proof.
  induction s as [|a s IH]; simpl.
  - rewrite orb_false_r. intros Hp.
    destruct sub; [|done]. by destruct t.
  - intros [Hp|Hi]%orb_true_iff.
    + apply orb_true_iff. left.
      by apply (prefix_append_l sub (String a s) t).
    + rewrite (IH Hi). apply orb_true_r.
Qed.

Lemma includes_join_part sep (l : list string) p c :
  p ∈ l → JsString.includes p c = true →
  JsString.includes (JsString.join sep l) c = true.
Proof.
  intros Hp Hc. induction l as [|p' l IH]; [by apply elem_of_nil in Hp|].
  apply elem_of_cons in Hp as [<-|Hp].
  - destruct l as [|q l]; [done|].
    change (JsString.join sep (p :: q :: l))
      with (p ++ (sep ++ JsString.join sep (q :: l))).
    by apply includes_append_l.
  - destruct l as [|q l]; [by apply elem_of_nil in Hp|].
    change (JsString.join sep (p' :: q :: l))
      with (p' ++ (sep ++ JsString.join sep (q :: l))).
    by apply includes_append_r, includes_append_r, IH.
Qed.

Lemma includes_join sep (l : list string) c :
  c ∈ l → JsString.includes (JsString.join sep l) c = true.
Proof.
  intros Hc. apply (includes_join_part sep l c c Hc).
  apply includes_prefix, prefix_refl.
Qed.

Lemma elem_of_insert x y l : x ∈ JsString.insert y l ↔ x = y ∨ x ∈ l.
Proof.
  induction l as [|z l IH]; simpl.
  - rewrite list_elem_of_singleton, elem_of_nil. tauto.
  - destruct (JsString.leb y z).
    + by rewrite elem_of_cons.
    + rewrite !elem_of_cons, IH. tauto.
Qed.

Lemma elem_of_sort x l : x ∈ JsString.sort l ↔ x ∈ l.
Proof.
  unfold JsString.sort. induction l as [|y l IH]; simpl; [done|].
  by rewrite elem_of_insert, elem_of_cons, IH.
Qed.
End JsStringFacts.

(** ** Facts about the scheduler *)

Module SchedulerFacts.
Import JsSetFacts JsMapFacts.
Import SystemScheduler.

(** *** [topologicalSort] returns or throws, with no id twice *)

Section Visit.
Variable systemMap : list (SystemId * System.t).
Hypothesis keyed : ∀ k s, JsMap.get k systemMap = Some s → System.id s = k.

(** What holds of the three locals between two calls of [visit]. *)
Record marks_ok (m : marks) : Prop := mkMarksOk {
  ok_sorted : System.id <$> sorted m = visited m;
  ok_visited : NoDup (visited m);
  ok_visiting : NoDup (visiting m);
  ok_known : ∀ x, x ∈ visiting m → x ∈ JsMap.keys systemMap;
  ok_apart : ∀ x, x ∈ visiting m → x ∉ visited m
}.

(** What a call leaves: the same systems in progress, none of them
    visited. *)
Definition visit_post (fuel : nat) (m : marks) (r : result marks) : Prop :=
  match r with
  | Returns m' => marks_ok m' ∧ visiting m' = visiting m
  | ThrowsCircular _ => True
  | NoFuel => False
  end.

Definition visit_spec (fuel : nat)
    (visit : System.t → marks → result marks) : Prop :=
  ∀ system m,
    System.id system ∈ JsMap.keys systemMap →
    marks_ok m →
    length (JsMap.keys systemMap) < fuel + length (visiting m) →
    visit_post fuel m (visit system m).

Lemma visit_after_spec fuel visit afterIds m :
  visit_spec fuel visit →
  marks_ok m →
  length (JsMap.keys systemMap) < fuel + length (visiting m) →
  visit_post fuel m (visit_after visit systemMap afterIds m).
Proof.
  intros Hvisit. revert m. induction afterIds as [|a rest IH];
    intros m Hm Hfuel; simpl; [done|].
  destruct (JsMap.get a systemMap) as [s|] eqn:Ea; [|by apply IH].
  assert (Hs : System.id s ∈ JsMap.keys systemMap).
  { rewrite (keyed _ _ Ea). apply elem_of_keys. by eauto. }
  pose proof (Hvisit s m Hs Hm Hfuel) as Hpost.
  destruct (visit s m) as [m'| |]; simpl in *; [|done|done].
  destruct Hpost as [Hm' Hv].
  specialize (IH m' Hm'). rewrite Hv in IH. specialize (IH Hfuel).
  destruct (visit_after visit systemMap rest m'); simpl in *; [|done|done].
  destruct IH as [? ->]. by split.
Qed.

Lemma length_visiting_bound m :
  marks_ok m → length (visiting m) ≤ length (JsMap.keys systemMap).
Proof.
  intros [_ _ Hnd Hk _]. apply submseteq_length, NoDup_submseteq; [done|].
  intros x Hx. by apply Hk.
Qed.

Lemma delete_add_fresh (x : SystemId) (l : list SystemId) :
  x ∉ l → JsSet.delete x (JsSet.add x l) = l.
Proof.
  intros Hx. unfold JsSet.add, JsSet.delete.
  rewrite bool_decide_eq_false_2 by done.
  rewrite filter_app, filter_cons, filter_nil.
  rewrite decide_False by naive_solver. rewrite app_nil_r.
  induction l as [|y l IH]; [done|].
  rewrite filter_cons. apply not_elem_of_cons in Hx as [Hne Hx].
  rewrite decide_True by done. by rewrite IH.
Qed.

Lemma add_fresh (x : SystemId) (l : list SystemId) :
  x ∉ l → JsSet.add x l = l ++ [x].
Proof.
  intros Hx. unfold JsSet.add. by rewrite bool_decide_eq_false_2.
Qed.

Lemma visit_meets_spec fuel : visit_spec fuel (visit fuel systemMap).
Proof.
  induction fuel as [|fuel IH]; intros system m Hsys Hm Hfuel.
  - simpl. unfold JsSet.has. repeat case_bool_decide; simpl; try done.
    pose proof (length_visiting_bound m Hm). lia.
  - simpl. unfold JsSet.has at 1 2.
    case_bool_decide as Hvisited; [done|].
    case_bool_decide as Hvisiting; [done|].
    set (m1 := {| sorted := sorted m; visited := visited m;
                  visiting := JsSet.add (System.id system) (visiting m) |}).
    assert (Hvis1 : visiting m1 = visiting m ++ [System.id system])
      by (by apply add_fresh).
    assert (Hm1 : marks_ok m1).
    { destruct Hm as [H1 H2 H3 H4 H5]. split; simpl; try done.
      - by apply NoDup_add.
      - intros x [->|Hx]%elem_of_add; [done|by apply H4].
      - intros x [->|Hx]%elem_of_add; [done|by apply H5]. }
    assert (Hfuel1 : length (JsMap.keys systemMap)
                     < fuel + length (visiting m1)).
    { rewrite Hvis1, length_app. simpl. lia. }
    pose proof (visit_after_spec fuel (visit fuel systemMap)
                  (System.runAfter system) m1 IH Hm1 Hfuel1) as Hpost.
    destruct (visit_after (visit fuel systemMap) systemMap
                (System.runAfter system) m1) as [m2| |];
      simpl in *; [|done|done].
    destruct Hpost as [Hm2 Hv2].
    assert (Hunmark : JsSet.delete (System.id system) (visiting m2)
                      = visiting m).
    { rewrite Hv2. by apply delete_add_fresh. }
    assert (Hfresh : System.id system ∉ visited m2).
    { apply (ok_apart _ Hm2). rewrite Hv2, Hvis1.
      apply elem_of_app. right. apply list_elem_of_here. }
    assert (Hin : ∀ x, x ∈ visiting m → x ∈ visiting m2).
    { intros x Hx. rewrite Hv2, Hvis1. apply elem_of_app. by left. }
    destruct Hm as [_ _ H3 H4 _]. destruct Hm2 as [G1 G2 _ _ G5].
    destruct (defers systemMap (System.runBefore system) m2); simpl;
      rewrite Hunmark; (split; [|done]); split; simpl; try done.
    + intros x Hx. by apply G5, Hin.
    + rewrite fmap_app, G1. simpl. by rewrite add_fresh.
    + by apply NoDup_add.
    + intros x Hx [->|Hx']%elem_of_add; [done|].
      by apply (G5 x (Hin x Hx)).
Qed.

Lemma visit_all_spec fuel l m :
  (∀ s, s ∈ l → System.id s ∈ JsMap.keys systemMap) →
  marks_ok m →
  length (JsMap.keys systemMap) < fuel + length (visiting m) →
  visit_post fuel m (visit_all (visit fuel systemMap) l m).
Proof.
  revert m. induction l as [|s l IH]; intros m Hl Hm Hfuel; simpl; [done|].
  pose proof (visit_meets_spec fuel s m) as Hpost.
  specialize (Hpost (Hl s (list_elem_of_here _ _)) Hm Hfuel).
  destruct (visit fuel systemMap s m) as [m'| |]; simpl in *; [|done|done].
  destruct Hpost as [Hm' Hv].
  specialize (IH m'). rewrite Hv in IH.
  specialize (IH (λ x Hx, Hl x (list_elem_of_further _ _ _ Hx)) Hm' Hfuel).
  destruct (visit_all (visit fuel systemMap) l m'); simpl in *; [|done|done].
  destruct IH as [? ->]. by split.
Qed.
End Visit.

Definition index_by_id (systems : list System.t)
  : list (SystemId * System.t) :=
  foldl (λ acc s, JsMap.set (System.id s) s acc) [] systems.

Lemma index_by_id_spec systems acc :
  (∀ k s, JsMap.get k acc = Some s → System.id s = k) →
  let m := foldl (λ acc s, JsMap.set (System.id s) s acc) acc systems in
  (∀ k s, JsMap.get k m = Some s → System.id s = k)
  ∧ (∀ s, s ∈ systems → System.id s ∈ JsMap.keys m)
  ∧ (∀ k, k ∈ JsMap.keys acc → k ∈ JsMap.keys m)
  ∧ length (JsMap.keys m) ≤ length (JsMap.keys acc) + length systems.
Proof.
  revert acc. induction systems as [|x l IH]; intros acc Hacc; simpl.
  - split_and!; try done; [by intros s ?%elem_of_nil|lia].
  - destruct (IH (JsMap.set (System.id x) x acc)) as (H1 & H2 & H3 & H4).
    { intros k s. rewrite get_set.
      destruct (decide (k = System.id x)) as [->|]; [by intros [= ->]|].
      apply Hacc. }
    split_and!; try done.
    + intros s [->|Hs]%elem_of_cons; [|by apply H2].
      apply H3, elem_of_keys_set. by left.
    + intros k Hk. apply H3, elem_of_keys_set. by right.
    + etrans; [exact H4|]. rewrite keys_set.
      destruct (JsMap.has (System.id x) acc); [lia|].
      rewrite length_app. simpl. lia.
Qed.

Lemma elem_of_insert_by_priority x y l :
  x ∈ insert_by_priority y l ↔ x = y ∨ x ∈ l.
Proof.
  induction l as [|z l IH]; simpl.
  - rewrite list_elem_of_singleton, elem_of_nil. tauto.
  - destruct (System.priority z <? System.priority y)%Z.
    + by rewrite elem_of_cons.
    + rewrite !elem_of_cons, IH. tauto.
Qed.

Lemma elem_of_byPriority x l : x ∈ byPriority l ↔ x ∈ l.
Proof.
  unfold byPriority.
  assert (H : ∀ acc, x ∈ foldl (λ acc y, insert_by_priority y acc) acc l
                     ↔ x ∈ acc ∨ x ∈ l).
  { induction l as [|y l IH]; intros acc; simpl.
    - rewrite elem_of_nil. tauto.
    - rewrite IH, elem_of_insert_by_priority, elem_of_cons. tauto. }
  rewrite H, elem_of_nil. tauto.
Qed.

(** The sort never runs out of the fuel it gives itself, and an order it
    returns names no system twice. *)
Lemma topologicalSort_spec systems :
  match topologicalSort systems with
  | Returns l => NoDup (System.id <$> l)
  | ThrowsCircular _ => True
  | NoFuel => False
  end.
Proof.
  unfold topologicalSort.
  destruct (index_by_id_spec systems []) as (Hkeyed & Hin & _ & Hlen);
    [done|]. simpl in *.
  set (M := foldl (λ acc s, JsMap.set (System.id s) s acc) [] systems) in *.
  pose proof (visit_all_spec M Hkeyed (S (length systems))
                (byPriority systems)
                {| sorted := []; visited := []; visiting := [] |}) as H.
  simpl in H.
  destruct (visit_all _ _ _) as [m| |]; [|done|].
  - destruct H as [[H1 H2 _ _ _] _].
    + intros s Hs. by apply Hin, elem_of_byPriority.
    + split; simpl; try done; try apply NoDup_nil_2;
        by intros x ?%elem_of_nil.
    + lia.
    + by rewrite H1.
  - apply H.
    + intros s Hs. by apply Hin, elem_of_byPriority.
    + split; simpl; try done; try apply NoDup_nil_2;
        by intros x ?%elem_of_nil.
    + lia.
Qed.

(** *** The order computation as a whole *)

Definition orders_ok (order : list (SystemPhase.t * list SystemId)) : Prop :=
  ∀ p l, JsMap.get p order = Some l → NoDup l.

Lemma order_phases_spec systems ps order :
  orders_ok order →
  match order_phases systems ps order with
  | (order', Returns _) => orders_ok order'
  | (_, ThrowsCircular _) => True
  | (_, NoFuel) => False
  end.
Proof.
  revert order. induction ps as [|p ps IH]; intros order Hok; simpl; [done|].
  pose proof (topologicalSort_spec
                (filter (λ s, System.hasPhase p s = true) systems)) as Hsort.
  destruct (topologicalSort _) as [l| |]; [|done|done].
  apply IH. intros q l'. rewrite get_set.
  destruct (decide (q = p)) as [->|]; [by intros [= <-]|apply Hok].
Qed.

Lemma recomputeExecutionOrder_spec s :
  let '(s', r) := recomputeExecutionOrder s in
  systems s' = systems s ∧ calls s' = calls s
  ∧ phaseCalls s' = phaseCalls s
  ∧ match r with
    | Returns _ => dirty s' = false ∧ orders_ok (executionOrder s')
    | ThrowsCircular _ => dirty s' = dirty s
    | NoFuel => False
    end.
Proof.
  unfold recomputeExecutionOrder.
  pose proof (order_phases_spec (JsMap.values (systems s)) allPhases [])
    as Hspec.
  destruct (order_phases _ _ _) as [order r]. simpl.
  split_and!; try done. destruct r as [[]| |]; try done.
  - split; [done|]. apply Hspec. by intros p l.
  - by apply Hspec.
Qed.

(** *** One step of the dispatch loop *)

(** Would the loop invoke the system registered under [i]? *)
Definition runs (i : SystemId) (s : t) : bool :=
  match JsMap.get i (systems s) with
  | Some system => System.isEnabled system
  | None => false
  end.

(** The strategy the handler chain resolves a failure to: the system's
    own handler if it has one, with [IGNORE] when that returns nothing;
    else what the phase-level handler returns, if there is one. *)
Definition resolved (errorHandler : option SystemErrorHandler)
    (p : SystemPhase.t) (system : System.t) (error : Error)
  : option SystemErrorStrategy :=
  let errorCtx :=
    {| ec_systemId := System.id system; ec_error := error; ec_phase := p;
       ec_consecutiveFailures := System.consecutiveFailures system + 1 |} in
  match System.onError system with
  | Some handler => Some (default IGNORE (handler errorCtx))
  | None =>
      match errorHandler with
      | Some handler => handler errorCtx
      | None => None
      end
  end.

(** The system after one dispatch in which it was invoked. *)
Definition after_dispatch (errorHandler : option SystemErrorHandler)
    (ctx : SystemContext.t) (system : System.t) : System.t :=
  match System.fn system ctx with
  | None => System.setFailures 0 system
  | Some error =>
      let failed :=
        System.setFailures (System.consecutiveFailures system + 1) system in
      if bool_decide (resolved errorHandler (SystemContext.phase ctx)
                               system error = Some DISABLE)
      then System.setEnabled false failed else failed
  end.

Definition in_phase (p : SystemPhase.t) (ctx : SystemContext.t)
  : SystemContext.t :=
  {| SystemContext.deltaTime := SystemContext.deltaTime ctx;
     SystemContext.time := SystemContext.time ctx;
     SystemContext.phase := p |}.

Lemma dispatch_frame p ctx h i s :
  executionOrder (dispatch p ctx h i s) = executionOrder s
  ∧ dirty (dispatch p ctx h i s) = dirty s
  ∧ phaseCalls (dispatch p ctx h i s) = phaseCalls s.
Proof.
  unfold dispatch. destruct (JsMap.get i (systems s)) as [sys|]; [|done].
  destruct (System.isEnabled sys); [|done].
  destruct (System.run _ sys) as [[sys1 called] thrown].
  destruct thrown as [e|]; [|by destruct called].
  destruct h as [handler|]; [|by destruct called].
  case_bool_decide; by destruct called.
Qed.

Lemma dispatch_systems p ctx h i s j :
  JsMap.get j (systems (dispatch p ctx h i s)) =
  if decide (j = i)
  then (λ system, if System.isEnabled system
                  then after_dispatch h (in_phase p ctx) system
                  else system) <$> JsMap.get i (systems s)
  else JsMap.get j (systems s).
Proof.
  unfold dispatch. fold (in_phase p ctx).
  destruct (JsMap.get i (systems s)) as [sys|] eqn:Ei; simpl.
  2:{ destruct (decide (j = i)) as [->|]; [by rewrite Ei|done]. }
  destruct (System.isEnabled sys) eqn:Een.
  2:{ destruct (decide (j = i)) as [->|]; [by rewrite Ei|done]. }
  unfold System.run, after_dispatch, resolved.
  unfold System.isEnabled in Een. rewrite Een. simpl.
  destruct (System.fn sys (in_phase p ctx)) as [e|]; simpl.
  - destruct (System.onError sys) as [own|]; simpl.
    + case_bool_decide as Hd; simpl; rewrite get_set;
        (destruct (decide (j = i)); [|done]); f_equal;
        case_bool_decide as Hd'; try done.
      * by rewrite Hd in Hd'.
      * by injection Hd'.
    + destruct h as [handler|]; simpl.
      * case_bool_decide as Hd; simpl; rewrite !get_set;
          by destruct (decide (j = i)).
      * rewrite get_set. by destruct (decide (j = i)).
  - rewrite get_set. by destruct (decide (j = i)).
Qed.

Lemma dispatch_calls p ctx h i s :
  calls (dispatch p ctx h i s) =
  calls s ++ (if runs i s then [(i, in_phase p ctx)] else []).
Proof.
  unfold dispatch, runs. fold (in_phase p ctx).
  destruct (JsMap.get i (systems s)) as [sys|]; [|by rewrite app_nil_r].
  destruct (System.isEnabled sys) eqn:Een; [|by rewrite app_nil_r].
  unfold System.run. unfold System.isEnabled in Een. rewrite Een. simpl.
  destruct (System.fn sys (in_phase p ctx)) as [e|]; simpl; [|done].
  destruct (System.onError sys) as [own|]; simpl.
  - by case_bool_decide.
  - destruct h as [handler|]; [|done]. by case_bool_decide.
Qed.

(** *** The dispatch loop *)

Lemma filter_ext_in {A} (P Q : A → Prop)
    `{∀ x, Decision (P x)} `{∀ x, Decision (Q x)} (l : list A) :
  (∀ x, x ∈ l → P x ↔ Q x) → filter P l = filter Q l.
Proof.
  induction l as [|x l IH]; intros HPQ; [done|].
  rewrite !filter_cons.
  assert (Hx : P x ↔ Q x) by apply HPQ, list_elem_of_here.
  rewrite IH by (intros y Hy; by apply HPQ, list_elem_of_further).
  destruct (decide (P x)), (decide (Q x)); tauto.
Qed.

Definition dispatch_all (p : SystemPhase.t) (ctx : SystemContext.t)
    (h : option SystemErrorHandler) (l : list SystemId) (s : t) : t :=
  foldl (λ acc systemId, dispatch p ctx h systemId acc) s l.

Lemma dispatch_all_frame p ctx h l s :
  executionOrder (dispatch_all p ctx h l s) = executionOrder s
  ∧ dirty (dispatch_all p ctx h l s) = dirty s
  ∧ phaseCalls (dispatch_all p ctx h l s) = phaseCalls s.
Proof.
  revert s. induction l as [|i l IH]; intros s; simpl; [done|].
  destruct (IH (dispatch p ctx h i s)) as (-> & -> & ->).
  apply dispatch_frame.
Qed.


Lemma dispatch_all_calls p ctx h l s :
  NoDup l →
  calls (dispatch_all p ctx h l s) =
  calls s ++ ((λ i, (i, in_phase p ctx)) <$> filter (λ i, runs i s = true) l).
Proof.
  revert s. induction l as [|i l IH]; intros s Hnd; simpl.
  { by rewrite app_nil_r. }
  apply NoDup_cons in Hnd as [Hi Hnd]. rewrite IH by done.
  rewrite dispatch_calls, <-app_assoc. f_equal.
  rewrite filter_cons.
  assert (Hsame : filter (λ j, runs j (dispatch p ctx h i s) = true) l
                  = filter (λ j, runs j s = true) l).
  { apply filter_ext_in. intros j Hj. unfold runs.
    rewrite dispatch_systems. rewrite decide_False; [done|].
    by intros ->. }
  rewrite Hsame. by destruct (runs i s).
Qed.

Lemma executePhase_unfold p ctx h s :
  executePhase p ctx h s =
  let '(s1, r) :=
    if dirty s then recomputeExecutionOrder s else (s, Returns tt) in
  match r with
  | Returns _ =>
      (dispatch_all p ctx h
         (default [] (JsMap.get p (executionOrder s1)))
         (log_phase p ctx s1), Returns tt)
  | other => (s1, other)
  end.
Proof. done. Qed.

(** *** The claims about the scheduler *)

(** C2, on the code. With [A] declaring [runBefore: [B]] and both at
    priority 0: registered [A] then [B], the computed order is [[B]] and
    [A] is in no order at all, so a tick never invokes it; registered
    [B] then [A], the order is [[B; A]], with [A] after the system it
    asked to precede. [runAfter] is honoured ([X] after [Y] whatever the
    priorities), a two-cycle of [runAfter] throws, and equal constraints
    leave descending priority, then registration order. On every input
    the sort returns or throws, and an order it returns holds no system
    twice: what fails is that every system is in it, and the side of
    [runBefore]. *)
Theorem runBefore_drops_or_misplaces :
  Scenario.order_ids
    (topologicalSort [Scenario.system "A" 0 ["B"] [];
                      Scenario.system "B" 0 [] []])
  = Some ["B"]
  ∧ Scenario.order_ids
      (topologicalSort [Scenario.system "B" 0 [] [];
                        Scenario.system "A" 0 ["B"] []])
    = Some ["B"; "A"]
  ∧ calls (executePhase SystemPhase.update Scenario.tick
             (Some defaultErrorHandler)
             (Scenario.scheduler_of
                [Scenario.system "A" 0 ["B"] [];
                 Scenario.system "B" 0 [] []])).1
    = [("B", Scenario.tick)]
  ∧ Scenario.order_ids
      (topologicalSort [Scenario.system "X" 5 [] ["Y"];
                        Scenario.system "Y" 0 [] []])
    = Some ["Y"; "X"]
  ∧ topologicalSort [Scenario.system "Z" 0 [] ["Y"];
                     Scenario.system "Y" 0 [] ["Z"]]
    = ThrowsCircular "Z"
  ∧ Scenario.order_ids
      (topologicalSort [Scenario.system "a" 1 [] [];
                        Scenario.system "b" 3 [] [];
                        Scenario.system "c" 1 [] [];
                        Scenario.system "d" 3 [] []])
    = Some ["b"; "d"; "a"; "c"]
  ∧ (∀ systems,
       match topologicalSort systems with
       | Returns l => NoDup (System.id <$> l)
       | ThrowsCircular _ => True
       | NoFuel => False
       end).
Proof.
  split_and!; try (vm_compute; reflexivity). apply topologicalSort_spec.
Qed.



End SchedulerFacts.

(** ** Facts about the world's tick *)

Module WorldFacts.
Import JsMapFacts SchedulerFacts.
Import World.
Local Open Scope Q_scope.

(** The order computation of the scheduler does not throw: either the
    order is up to date, or the constraints admit one. *)
Definition schedulable (s : SystemScheduler.t) : Prop :=
  SystemScheduler.dirty s = true →
  (SystemScheduler.recomputeExecutionOrder s).2 = SystemScheduler.Returns tt.

Lemma executePhase_schedulable p ctx h s :
  schedulable s →
  ∃ s', SystemScheduler.executePhase p ctx h s
        = (s', SystemScheduler.Returns tt)
        ∧ SystemScheduler.dirty s' = false
        ∧ SystemScheduler.phaseCalls s'
          = SystemScheduler.phaseCalls s ++ [(p, ctx)].
Proof.
  intros Hs. rewrite executePhase_unfold.
  assert (∃ s1, (if SystemScheduler.dirty s
                 then SystemScheduler.recomputeExecutionOrder s
                 else (s, SystemScheduler.Returns tt))
                = (s1, SystemScheduler.Returns tt)
                ∧ SystemScheduler.dirty s1 = false
                ∧ SystemScheduler.phaseCalls s1
                  = SystemScheduler.phaseCalls s)
    as (s1 & -> & Hd & Hp).
  { destruct (SystemScheduler.dirty s) eqn:Ed; [|by exists s].
    specialize (Hs Ed).
    pose proof (recomputeExecutionOrder_spec s) as Hspec.
    destruct (SystemScheduler.recomputeExecutionOrder s) as [s1 r].
    simpl in Hs. subst r. exists s1. naive_solver. }
  eexists. split; [done|].
  destruct (dispatch_all_frame p ctx h
              (default [] (JsMap.get p (SystemScheduler.executionOrder s1)))
              (SystemScheduler.log_phase p ctx s1)) as (_ & -> & ->).
  simpl. by rewrite Hp.
Qed.

(** Two worlds that differ in their scheduler only. *)
Definition same_but_scheduler (w w' : t) : Prop :=
  entities w' = entities w ∧ componentStore w' = componentStore w
  ∧ queryCache w' = queryCache w ∧ config w' = config w
  ∧ time w' = time w ∧ fixedTime w' = fixedTime w
  ∧ accumulator w' = accumulator w
  ∧ running w' = running w ∧ paused w' = paused w.

Definition phase_context (p : SystemPhase.t) (dt t' : Q) : SystemContext.t :=
  {| SystemContext.deltaTime := dt; SystemContext.time := t';
     SystemContext.phase := p |}.

Lemma runPhase_schedulable p dt t' w :
  schedulable (systemScheduler w) →
  ∃ w', runPhase p dt t' w = (w', SystemScheduler.Returns tt)
        ∧ same_but_scheduler w w'
        ∧ schedulable (systemScheduler w')
        ∧ SystemScheduler.phaseCalls (systemScheduler w')
          = SystemScheduler.phaseCalls (systemScheduler w)
            ++ [(p, phase_context p dt t')].
Proof.
  intros Hs. unfold runPhase. fold (phase_context p dt t').
  destruct (executePhase_schedulable p (phase_context p dt t')
              (Some (errorHandler (config w))) _ Hs)
    as (s' & -> & Hd & Hp).
  eexists. split; [done|]. split_and!; try done.
  intros Hd'. simpl in Hd'. congruence.
Qed.

Lemma phase_runs_snoc p q ctx w w' :
  SystemScheduler.phaseCalls (systemScheduler w')
  = SystemScheduler.phaseCalls (systemScheduler w) ++ [(q, ctx)] →
  Scenario.phase_runs p w'
  = (Scenario.phase_runs p w + (if decide (q = p) then 1 else 0))%nat.
Proof.
  intros H. unfold Scenario.phase_runs. rewrite H, filter_app, length_app.
  f_equal. rewrite filter_cons, filter_nil. simpl.
  by destruct (decide (q = p)).
Qed.

Lemma inject_succ (n : nat) :
  inject_Z (Z.of_nat (S n)) == inject_Z (Z.of_nat n) + 1.
Proof. rewrite Nat2Z.inj_succ, <-Z.add_1_r, inject_Z_plus. reflexivity. Qed.

(** The [while] loop of [update]: [n] drains, each taken with the
    accumulator at least the timestep and the count below the cap; it
    stops with the accumulator below the timestep or the cap reached. *)
Lemma fixedLoop_spec budget fixedUpdates w :
  schedulable (systemScheduler w) →
  (maxFixedUpdates (config w) - fixedUpdates ≤ Z.of_nat budget)%Z →
  ∃ (n : nat) w',
    fixedLoop budget fixedUpdates w
    = (w', (fixedUpdates + Z.of_nat n)%Z, SystemScheduler.Returns tt)
    ∧ config w' = config w ∧ paused w' = paused w ∧ time w' = time w
    ∧ schedulable (systemScheduler w')
    ∧ fixedTime w'
      == fixedTime w + inject_Z (Z.of_nat n) * fixedTimestep (config w)
    ∧ accumulator w'
      == accumulator w - inject_Z (Z.of_nat n) * fixedTimestep (config w)
    ∧ (∀ p, Scenario.phase_runs p w'
            = (Scenario.phase_runs p w
               + (if decide (SystemPhase.fixedUpdate = p) then n else 0))%nat)
    ∧ (∀ i : nat, (i < n)%nat →
         fixedTimestep (config w)
         <= accumulator w - inject_Z (Z.of_nat i) * fixedTimestep (config w)
         ∧ (fixedUpdates + Z.of_nat i < maxFixedUpdates (config w))%Z)
    ∧ (accumulator w' < fixedTimestep (config w)
       ∨ (maxFixedUpdates (config w) ≤ fixedUpdates + Z.of_nat n)%Z).
Proof.
  revert fixedUpdates w.
  induction budget as [|budget IH]; intros fu w Hs Hbudget.
  - exists 0%nat, w. simpl.
    destruct (Qle_bool _ _ && (fu <? _)%Z) eqn:Eg.
    { apply andb_true_iff in Eg as [_ Hlt%Z.ltb_lt]. lia. }
    rewrite Z.add_0_r. split_and!; try done.
    + ring.
    + ring.
    + intros p. by destruct (decide _); rewrite Nat.add_0_r.
    + intros i Hi. lia.
    + right. simpl in Hbudget. lia.
  - simpl.
    destruct (Qle_bool (fixedTimestep (config w)) (accumulator w)) eqn:Eacc;
      simpl.
    2:{ exists 0%nat, w. rewrite Z.add_0_r. split_and!; try done.
        + ring.
        + ring.
        + intros p. by destruct (decide _); rewrite Nat.add_0_r.
        + intros i Hi. lia.
        + left. apply Qnot_le_lt. intros Hle%Qle_bool_iff. congruence. }
    destruct (fu <? maxFixedUpdates (config w))%Z eqn:Efu.
    2:{ exists 0%nat, w. rewrite Z.add_0_r. split_and!; try done.
        + ring.
        + ring.
        + intros p. by destruct (decide _); rewrite Nat.add_0_r.
        + intros i Hi. lia.
        + right. apply Z.ltb_ge in Efu. lia. }
    apply Qle_bool_iff in Eacc. apply Z.ltb_lt in Efu.
    destruct (runPhase_schedulable SystemPhase.fixedUpdate
                (fixedTimestep (config w)) (fixedTime w) w Hs)
      as (w1 & -> & Hsame & Hs1 & Hcalls).
    destruct Hsame as (_ & _ & _ & Hcfg & Htime & Hft & Hacc & _ & Hpaused).
    set (w2 := with_clock (time w1)
                 (fixedTime w1 + fixedTimestep (config w))
                 (accumulator w1 - fixedTimestep (config w)) w1).
    destruct (IH (fu + 1)%Z w2) as
      (n & w' & -> & Hc & Hp & Ht & Hs' & Hft' & Hacc' & Hruns & Hdr & Hstop).
    { done. }
    { simpl. rewrite Hcfg. lia. }
    simpl in Hc, Hp, Ht, Hft', Hacc', Hdr, Hstop.
    rewrite Hcfg in *. rewrite Hft in Hft'. rewrite Hacc in Hacc', Hdr.
    exists (S n), w'.
    replace (fu + 1 + Z.of_nat n)%Z with (fu + Z.of_nat (S n))%Z by lia.
    split_and!; try done; try congruence.
    + rewrite Hft', inject_succ. ring.
    + rewrite Hacc', inject_succ. ring.
    + intros p. rewrite Hruns.
      assert (Scenario.phase_runs p w2 = Scenario.phase_runs p w1) as ->
        by done.
      rewrite (phase_runs_snoc p _ _ w w1 Hcalls).
      destruct (decide (SystemPhase.fixedUpdate = p)); lia.
    + intros [|i] Hi.
      * split; [|lia].
        assert (accumulator w
                - inject_Z (Z.of_nat 0) * fixedTimestep (config w)
                == accumulator w) as -> by (simpl; ring).
        done.
      * destruct (Hdr i) as [Hle Hlt]; [lia|]. split; [|lia].
        assert (accumulator w
                - inject_Z (Z.of_nat (S i)) * fixedTimestep (config w)
                == accumulator w - fixedTimestep (config w)
                   - inject_Z (Z.of_nat i) * fixedTimestep (config w))
          as -> by (rewrite inject_succ; ring).
        done.
    + destruct Hstop as [?|?]; [by left|right; lia].
Qed.

(** [update(deltaTime)] on a world that is not paused and whose
    constraints admit an order. *)
Lemma update_spec deltaTime w :
  paused w = false →
  schedulable (systemScheduler w) →
  ∃ (n : nat) w',
    update deltaTime w = (w', SystemScheduler.Returns tt)
    ∧ (∀ i : nat, (i < n)%nat →
         fixedTimestep (config w)
         <= accumulator w + deltaTime
            - inject_Z (Z.of_nat i) * fixedTimestep (config w)
         ∧ (Z.of_nat i < maxFixedUpdates (config w))%Z)
    ∧ (accumulator w + deltaTime
       - inject_Z (Z.of_nat n) * fixedTimestep (config w)
       < fixedTimestep (config w)
       ∨ (maxFixedUpdates (config w) ≤ Z.of_nat n)%Z)
    ∧ Scenario.phase_runs SystemPhase.fixedUpdate w'
      = (Scenario.phase_runs SystemPhase.fixedUpdate w + n)%nat
    ∧ Scenario.phase_runs SystemPhase.update w'
      = (Scenario.phase_runs SystemPhase.update w + 1)%nat
    ∧ Scenario.phase_runs SystemPhase.lateUpdate w'
      = (Scenario.phase_runs SystemPhase.lateUpdate w + 1)%nat
    ∧ time w' == time w + deltaTime
    ∧ fixedTime w'
      == fixedTime w + inject_Z (Z.of_nat n) * fixedTimestep (config w)
    ∧ accumulator w'
      == (if (maxFixedUpdates (config w) <=? Z.of_nat n)%Z then 0
          else accumulator w + deltaTime
               - inject_Z (Z.of_nat n) * fixedTimestep (config w))
    ∧ paused w' = false
    ∧ schedulable (systemScheduler w').
Proof.
  intros Hpaused Hs. unfold update. rewrite Hpaused.
  set (w1 := with_clock (time w + deltaTime) (fixedTime w)
               (accumulator w + deltaTime) w).
  destruct (fixedLoop_spec (Z.to_nat (maxFixedUpdates (config w1))) 0 w1)
    as (n & w2 & -> & Hc & Hp & Ht & Hs2 & Hft & Hacc & Hruns & Hdr & Hstop).
  { done. } { lia. }
  simpl in Hc, Hp, Ht, Hft, Hacc, Hruns, Hdr, Hstop.
  rewrite Hc. change (0 + Z.of_nat n)%Z with (Z.of_nat n).
  set (w3 := if (Z.of_nat n >=? maxFixedUpdates (config w))%Z
             then with_clock (time w2) (fixedTime w2) 0 w2 else w2).
  assert (H3 : config w3 = config w ∧ paused w3 = false
               ∧ time w3 = time w + deltaTime
               ∧ fixedTime w3 = fixedTime w2
               ∧ systemScheduler w3 = systemScheduler w2).
  { unfold w3. destruct (_ >=? _)%Z; simpl; split_and!; congruence. }
  destruct H3 as (Hc3 & Hp3 & Ht3 & Hft3 & Hsch3).
  destruct (runPhase_schedulable SystemPhase.update deltaTime (time w3) w3)
    as (w4 & -> & Hsame4 & Hs4 & Hcalls4); [by rewrite Hsch3|].
  destruct (runPhase_schedulable SystemPhase.lateUpdate deltaTime
              (time w4) w4 Hs4)
    as (w5 & -> & Hsame5 & Hs5 & Hcalls5).
  destruct Hsame4 as (_ & _ & _ & Hc4 & Ht4 & Hft4 & Hacc4 & _ & Hp4).
  destruct Hsame5 as (_ & _ & _ & Hc5 & Ht5 & Hft5 & Hacc5 & _ & Hp5).
  assert (Hr3 : ∀ p, Scenario.phase_runs p w3 = Scenario.phase_runs p w2).
  { intros p. unfold Scenario.phase_runs. by rewrite Hsch3. }
  assert (Hr1 : ∀ p, Scenario.phase_runs p w1 = Scenario.phase_runs p w)
    by done.
  exists n, w5. split_and!; try done.
  - destruct Hstop as [Hlt|Hcap]; [left|right; lia].
    by rewrite <-Hacc.
  - rewrite (phase_runs_snoc _ _ _ _ _ Hcalls5),
      (phase_runs_snoc _ _ _ _ _ Hcalls4), Hr3, Hruns, Hr1. simpl. lia.
  - rewrite (phase_runs_snoc _ _ _ _ _ Hcalls5),
      (phase_runs_snoc _ _ _ _ _ Hcalls4), Hr3, Hruns, Hr1. simpl. lia.
  - rewrite (phase_runs_snoc _ _ _ _ _ Hcalls5),
      (phase_runs_snoc _ _ _ _ _ Hcalls4), Hr3, Hruns, Hr1. simpl. lia.
  - rewrite Ht5, Ht4, Ht3. reflexivity.
  - rewrite Hft5, Hft4, Hft3. exact Hft.
  - rewrite Hacc5, Hacc4. unfold w3.
    destruct (Z.of_nat n >=? maxFixedUpdates (config w))%Z eqn:Ecap.
    + rewrite (proj2 (Z.leb_le _ _)) by (apply Z.geb_le in Ecap; lia).
      reflexivity.
    + rewrite (proj2 (Z.leb_gt _ _)).
      * exact Hacc.
      * rewrite Z.geb_leb in Ecap. apply Z.leb_gt in Ecap. lia.
  - congruence.
Qed.

(** *** The claims about the world *)



(** C10. While the world is paused, [update(deltaTime)] returns at once
    with the world as it was, for every [deltaTime]: no phase runs, and
    time, fixed time and the accumulator are what they were. Across a
    pause and resume, an [update(d1)] while paused and an [update(d2)]
    after resuming advance time by [d2] alone. *)
Theorem paused_update_is_noop :
  (∀ deltaTime w,
     paused w = true →
     update deltaTime w = (w, SystemScheduler.Returns tt))
  ∧ (∀ d1 d2 w,
       schedulable (systemScheduler w) →
       ∃ w',
         update d2 (resume (update d1 (pause w)).1)
         = (w', SystemScheduler.Returns tt)
         ∧ getTime w' == getTime w + d2
         ∧ Scenario.phase_runs SystemPhase.update w'
           = (Scenario.phase_runs SystemPhase.update w + 1)%nat).
Proof.
  split.
  - intros deltaTime w Hp. unfold update. by rewrite Hp.
  - intros d1 d2 w Hs.
    assert (Hnoop : (update d1 (pause w)).1 = pause w) by done.
    rewrite Hnoop.
    destruct (update_spec d2 (resume (pause w)))
      as (n & w' & Hu & _ & _ & _ & Hruns & _ & Ht & _); [done|done|].
    exists w'. by split_and!.
Qed.

Lemma paused_update_is_noop_witness :
  let w := pause Scenario.fixed_world in
  update 1000 w = (w, SystemScheduler.Returns tt).
Proof.
  intros w. apply (proj1 paused_update_is_noop 1000 w). reflexivity.
Defined.

End WorldFacts.

(** ** Facts about the component store and the queries *)

Module QueryFacts.
Import JsSetFacts JsMapFacts.

Lemma filter_none {A} (P : A → Prop) `{∀ x, Decision (P x)} (l : list A) :
  (∀ x, x ∈ l → ¬ P x) → filter P l = [].
Proof.
  induction l as [|x l IH]; intros Hl; [done|].
  rewrite filter_cons, decide_False by apply Hl, list_elem_of_here.
  apply IH. intros y Hy. by apply Hl, list_elem_of_further.
Qed.

Lemma elem_of_collect {A} `{EqDecision A} (keep : A → bool)
    (l acc : list A) (e : A) :
  e ∈ foldl (λ results x, if keep x then JsSet.add x results else results)
            acc l
  ↔ e ∈ acc ∨ (e ∈ l ∧ keep e = true).
Proof.
  revert acc. induction l as [|x l IH]; intros acc; simpl.
  - rewrite elem_of_nil. tauto.
  - rewrite IH, elem_of_cons. destruct (keep x) eqn:Ex.
    + rewrite elem_of_add. split; [|naive_solver].
      intros [[->|?]|[? ?]]; eauto.
    + split; [naive_solver|].
      intros [?|[[->|?] ?]]; [by left|congruence|by right].
Qed.

(** The recomputation keeps the candidates that match. *)
Lemma elem_of_compute store q e :
  e ∈ Query.compute store q
  ↔ e ∈ Query.getCandidateEntities store q
    ∧ Query.matches store q e = true.
Proof.
  unfold Query.compute. rewrite elem_of_collect, elem_of_nil. tauto.
Qed.

Lemma execute_dirty store q :
  Query.dirty q = true →
  Query.execute store q
  = ({| Query.filters := Query.filters q;
        Query.cachedResults := Some (Query.compute store q);
        Query.dirty := false |}, Query.compute store q).
Proof. intros Hd. unfold Query.execute. by rewrite Hd. Qed.




(** Which entities the store has an entry for. *)
Lemma getAllEntities_add e c s e' :
  e' ∈ ComponentStore.getAllEntities (ComponentStore.add e c s)
  ↔ e' = e ∨ e' ∈ ComponentStore.getAllEntities s.
Proof.
  unfold ComponentStore.getAllEntities, ComponentStore.add. simpl.
  apply elem_of_keys_set.
Qed.

Lemma getAllEntities_remove e cid s :
  ComponentStore.getAllEntities (ComponentStore.remove e cid s).1
  = ComponentStore.getAllEntities s.
Proof.
  unfold ComponentStore.getAllEntities, ComponentStore.remove.
  destruct (JsMap.get e (ComponentStore.components s)) as [ec|] eqn:E;
    [|done].
  assert (Hhas : JsMap.has e (ComponentStore.components s) = true).
  { unfold JsMap.has. by rewrite E. }
  destruct (JsMap.has cid ec); simpl; by rewrite keys_set, Hhas.
Qed.

Lemma getAllEntities_removeAllComponents e s e' :
  e' ∈ ComponentStore.getAllEntities (ComponentStore.removeAllComponents e s)
  ↔ e' ≠ e ∧ e' ∈ ComponentStore.getAllEntities s.
Proof.
  unfold ComponentStore.getAllEntities, ComponentStore.removeAllComponents.
  destruct (JsMap.get e (ComponentStore.components s)) as [ec|] eqn:E; simpl.
  - apply elem_of_keys_delete.
  - split; [|by intros [_ ?]]. intros He'. split; [|done].
    intros ->. apply elem_of_keys in He'. rewrite E in He'.
    by destruct He'.
Qed.

(** *** The reverse index agrees with the components *)

(** [indexed s]: an entity is in the index set of a component type
    exactly when the store says it has a component of that type. *)
Definition indexed (s : ComponentStore.t) : Prop :=
  ∀ e c, e ∈ ComponentStore.getEntitiesWithComponent c s
         ↔ ComponentStore.has e c s = true.

Lemma has_entry e c s :
  ComponentStore.has e c s = true → e ∈ ComponentStore.getAllEntities s.
Proof.
  unfold ComponentStore.has, ComponentStore.getAllEntities.
  intros H. apply elem_of_keys.
  destruct (JsMap.get e (ComponentStore.components s)); [by eauto|done].
Qed.

Lemma has_add e c s e' c' :
  ComponentStore.has e' c' (ComponentStore.add e c s)
  = if decide (e' = e ∧ c' = componentId c) then true
    else ComponentStore.has e' c' s.
Proof.
  unfold ComponentStore.has, ComponentStore.add. simpl.
  rewrite get_set. destruct (decide (e' = e)) as [->|Hne].
  - rewrite get_set. destruct (decide (c' = componentId c)) as [->|Hc].
    + rewrite decide_True by done. rewrite length_app. simpl.
      apply bool_decide_eq_true_2. lia.
    + rewrite decide_False by naive_solver.
      by destruct (JsMap.get e (ComponentStore.components s)).
  - by rewrite decide_False by naive_solver.
Qed.

Lemma index_add e c s c' :
  ComponentStore.getEntitiesWithComponent c' (ComponentStore.add e c s)
  = if decide (c' = componentId c)
    then JsSet.add e
           (ComponentStore.getEntitiesWithComponent (componentId c) s)
    else ComponentStore.getEntitiesWithComponent c' s.
Proof.
  unfold ComponentStore.getEntitiesWithComponent, ComponentStore.add. simpl.
  rewrite get_set. by destruct (decide (c' = componentId c)).
Qed.

Lemma indexed_new : indexed ComponentStore.new.
Proof.
  intros e c. unfold ComponentStore.getEntitiesWithComponent,
    ComponentStore.has. simpl. by rewrite elem_of_nil.
Qed.

Lemma indexed_add e c s : indexed s → indexed (ComponentStore.add e c s).
Proof.
  intros Hs e' c'. unfold indexed in Hs. rewrite has_add, index_add.
  destruct (decide (c' = componentId c)) as [->|Hc].
  - rewrite elem_of_add, Hs. destruct (decide (e' = e)) as [->|He].
    + rewrite decide_True by done. naive_solver.
    + rewrite decide_False by naive_solver. naive_solver.
  - rewrite decide_False by naive_solver. apply Hs.
Qed.

Lemma index_unindex e cid ix c' :
  default [] (JsMap.get c' (ComponentStore.unindex e cid ix))
  = if decide (c' = cid)
    then JsSet.delete e (default [] (JsMap.get cid ix))
    else default [] (JsMap.get c' ix).
Proof.
  unfold ComponentStore.unindex.
  destruct (JsMap.get cid ix) as [index|] eqn:E.
  - case_bool_decide as Hlen.
    + rewrite get_delete. destruct (decide (c' = cid)); [|done]. simpl.
      by destruct (JsSet.delete e index).
    + rewrite get_set. by destruct (decide (c' = cid)).
  - destruct (decide (c' = cid)) as [->|]; [|done]. by rewrite E.
Qed.

Lemma has_remove e cid s e' c' :
  ComponentStore.has e' c' (ComponentStore.remove e cid s).1
  = if decide (e' = e ∧ c' = cid) then false
    else ComponentStore.has e' c' s.
Proof.
  unfold ComponentStore.has, ComponentStore.remove.
  destruct (JsMap.get e (ComponentStore.components s)) as [ec|] eqn:E.
  - assert (Hget : JsMap.get e'
             (JsMap.set e (JsMap.delete cid ec) (ComponentStore.components s))
             = if decide (e' = e) then Some (JsMap.delete cid ec)
               else JsMap.get e' (ComponentStore.components s))
      by apply get_set.
    destruct (JsMap.has cid ec); simpl; rewrite Hget;
      (destruct (decide (e' = e)) as [->|];
       [|by rewrite decide_False by naive_solver]);
      rewrite get_delete, E;
      (destruct (decide (c' = cid)) as [->|];
       [by rewrite decide_True|by rewrite decide_False by naive_solver]).
  - simpl. destruct (decide (e' = e ∧ c' = cid)) as [[-> ->]|]; [|done].
    by rewrite E.
Qed.

Lemma indexed_remove e cid s :
  indexed s → indexed (ComponentStore.remove e cid s).1.
Proof.
  intros Hs e' c'. unfold indexed in Hs. rewrite has_remove.
  unfold ComponentStore.remove.
  destruct (JsMap.get e (ComponentStore.components s)) as [ec|] eqn:E.
  2:{ simpl. rewrite Hs. destruct (decide _) as [[-> ->]|]; [|done].
      unfold ComponentStore.has. by rewrite E. }
  destruct (JsMap.has cid ec) eqn:Ehas; simpl.
  - unfold ComponentStore.getEntitiesWithComponent. simpl.
    rewrite index_unindex. destruct (decide (c' = cid)) as [->|Hc].
    + rewrite elem_of_delete.
      fold (ComponentStore.getEntitiesWithComponent cid s). rewrite Hs.
      destruct (decide (e' = e)) as [->|].
      * rewrite decide_True by done. naive_solver.
      * rewrite decide_False by naive_solver. naive_solver.
    + rewrite decide_False by naive_solver. apply Hs.
  - change (e' ∈ ComponentStore.getEntitiesWithComponent c' s
            ↔ (if decide (e' = e ∧ c' = cid) then false
               else ComponentStore.has e' c' s) = true).
    rewrite Hs. destruct (decide _) as [[-> ->]|]; [|done].
    unfold ComponentStore.has. rewrite E.
    unfold JsMap.has in Ehas. by destruct (JsMap.get cid ec).
Qed.

Lemma index_unindex_all e cids ix c' :
  default [] (JsMap.get c' (foldl (λ ix cid, ComponentStore.unindex e cid ix)
                                  ix cids))
  = if bool_decide (c' ∈ cids)
    then JsSet.delete e (default [] (JsMap.get c' ix))
    else default [] (JsMap.get c' ix).
Proof.
  revert ix. induction cids as [|cid cids IH]; intros ix; simpl; [done|].
  rewrite IH, index_unindex. destruct (decide (c' = cid)) as [->|Hne].
  - rewrite (bool_decide_eq_true_2 (cid ∈ cid :: cids))
      by apply list_elem_of_here.
    case_bool_decide; [|done].
    unfold JsSet.delete. by rewrite list_filter_filter, (list_filter_iff _
      (λ y, y ≠ e)) by tauto.
  - case_bool_decide as H1; case_bool_decide as H2; try done.
    + destruct H2. by apply list_elem_of_further.
    + by apply elem_of_cons in H2 as [?|?].
Qed.

Lemma indexed_removeAllComponents e s :
  indexed s → indexed (ComponentStore.removeAllComponents e s).
Proof.
  intros Hs e' c'. unfold indexed in Hs.
  unfold ComponentStore.removeAllComponents.
  destruct (JsMap.get e (ComponentStore.components s)) as [ec|] eqn:E;
    [|apply Hs].
  unfold ComponentStore.getEntitiesWithComponent, ComponentStore.has. simpl.
  rewrite index_unindex_all, get_delete.
  fold (ComponentStore.getEntitiesWithComponent c' s).
  assert (Hold : e' ∈ ComponentStore.getEntitiesWithComponent c' s
                 ↔ ComponentStore.has e' c' s = true) by apply Hs.
  unfold ComponentStore.has in Hold.
  destruct (decide (e' = e)) as [->|Hne].
  - rewrite E in Hold. case_bool_decide as Hc.
    + rewrite elem_of_delete. naive_solver.
    + rewrite Hold. apply not_elem_of_keys in Hc. by rewrite Hc.
  - case_bool_decide; [|done]. rewrite elem_of_delete. naive_solver.
Qed.

(** *** The candidates lose no entity that matches *)

Section Candidates.
Variable store : ComponentStore.t.
Abbreviation idx c := (ComponentStore.getEntitiesWithComponent c store).

Lemma elem_of_add_all (l acc : list EntityId) e :
  e ∈ foldl (λ c x, JsSet.add x c) acc l ↔ e ∈ acc ∨ e ∈ l.
Proof.
  revert acc. induction l as [|x l IH]; intros acc; simpl.
  - rewrite elem_of_nil. tauto.
  - rewrite IH, elem_of_add, elem_of_cons. tauto.
Qed.

Lemma elem_of_union_components (cs : list ComponentId)
    (acc : list EntityId) e :
  e ∈ foldl (λ cands' cid, foldl (λ c x, JsSet.add x c) cands' (idx cid))
            acc cs
  ↔ e ∈ acc ∨ ∃ c, c ∈ cs ∧ e ∈ idx c.
Proof.
  revert acc. induction cs as [|c cs IH]; intros acc; simpl.
  - split; [by left|]. intros [?|(c & ?%elem_of_nil & _)]; done.
  - rewrite IH, elem_of_add_all. split.
    + intros [[?|?]|(c' & ? & ?)]; [by left| |].
      * right. exists c. split; [apply list_elem_of_here|done].
      * right. exists c'. split; [by apply list_elem_of_further|done].
    + intros [?|(c' & [->|?]%elem_of_cons & ?)]; eauto.
Qed.

Lemma elem_of_union_filters (fs : list QueryFilter)
    (acc : list EntityId) e :
  e ∈ foldl (λ cands f,
        foldl (λ cands' cid, foldl (λ c x, JsSet.add x c) cands' (idx cid))
              cands (filterComponents f)) acc fs
  ↔ e ∈ acc ∨ ∃ f c, f ∈ fs ∧ c ∈ filterComponents f ∧ e ∈ idx c.
Proof.
  revert acc. induction fs as [|f fs IH]; intros acc; simpl.
  - split; [by left|]. intros [?|(f & c & ?%elem_of_nil & _)]; done.
  - rewrite IH, elem_of_union_components. split.
    + intros [[?|(c & ? & ?)]|(f' & c & ? & ? & ?)]; [by left| |].
      * right. exists f, c. split_and!; [apply list_elem_of_here|done|done].
      * right. exists f', c.
        split_and!; [by apply list_elem_of_further|done|done].
    + intros [?|(f' & c & [->|?]%elem_of_cons & ? & ?)]; eauto 10.
Qed.

(** Membership in a candidate set that may not have been started. *)
Definition among (e : EntityId) (cands : option (list EntityId)) : Prop :=
  match cands with
  | Some l => e ∈ l
  | None => True
  end.

Definition narrow (cands : option (list EntityId)) (cid : ComponentId)
  : option (list EntityId) :=
  match cands with
  | None => Some (idx cid)
  | Some c => Some (filter (λ id, id ∈ idx cid) c)
  end.

Lemma narrow_components (cs : list ComponentId) cands e :
  let r := foldl narrow cands cs in
  (among e r ↔ among e cands ∧ ∀ c, c ∈ cs → e ∈ idx c)
  ∧ (r = None ↔ cands = None ∧ cs = []).
Proof.
  revert cands. induction cs as [|c cs IH]; intros cands; simpl.
  - split; [|naive_solver]. split; [|naive_solver].
    intros Ha. split; [done|]. by intros c ?%elem_of_nil.
  - destruct (IH (narrow cands c)) as [IH1 IH2]. split.
    + rewrite IH1. destruct cands as [l|]; simpl.
      * rewrite list_elem_of_filter. split.
        -- intros [[Ha Hb] Hc]. split; [done|].
           intros c' [->|Hc']%elem_of_cons; [done|by apply Hc].
        -- intros [Ha Hb].
           split_and!; [apply Hb, list_elem_of_here|done|].
           intros c' Hc'. by apply Hb, list_elem_of_further.
      * split.
        -- intros [Ha Hb]. split; [done|].
           intros c' [->|Hc']%elem_of_cons; [done|by apply Hb].
        -- intros [_ Hb]. split; [apply Hb, list_elem_of_here|].
           intros c' Hc'. by apply Hb, list_elem_of_further.
    + rewrite IH2. split; [|naive_solver].
      intros [Ha _]. by destruct cands.
Qed.

Lemma narrow_filters (fs : list QueryFilter) cands e :
  let r := foldl (λ cands f, foldl narrow cands (filterComponents f))
                 cands fs in
  (among e r ↔ among e cands
               ∧ ∀ f c, f ∈ fs → c ∈ filterComponents f → e ∈ idx c)
  ∧ (r = None ↔ cands = None ∧ ∀ f, f ∈ fs → filterComponents f = []).
Proof.
  revert cands. induction fs as [|f fs IH]; intros cands; simpl.
  - split.
    + split; [|naive_solver]. intros Ha. split; [done|].
      by intros f c ?%elem_of_nil.
    + split; [|naive_solver]. intros Ha. split; [done|].
      by intros f ?%elem_of_nil.
  - destruct (IH (foldl narrow cands (filterComponents f))) as [IH1 IH2].
    destruct (narrow_components (filterComponents f) cands e) as [N1 N2].
    simpl in N1, N2. split.
    + rewrite IH1, N1. split.
      * intros [[Ha Hb] Hc]. split; [done|].
        intros f' c [->|Hf']%elem_of_cons Hcc; [by apply Hb|by eapply Hc].
      * intros [Ha Hb]. split_and!; [done| |].
        -- intros c Hc. eapply Hb; [apply list_elem_of_here|done].
        -- intros f' c Hf' Hc.
           eapply Hb; [by apply list_elem_of_further|done].
    + rewrite IH2, N2. split.
      * intros [[Ha Hb] Hc]. split; [done|].
        intros f' [->|Hf']%elem_of_cons; [done|by apply Hc].
      * intros [Ha Hb]. split_and!; [done|apply Hb, list_elem_of_here|].
        intros f' Hf'. by apply Hb, list_elem_of_further.
Qed.

Lemma getCandidateEntities_unfold q :
  Query.getCandidateEntities store q =
  let anyFilters := filter (λ f, type f = FilterAny) (Query.filters q) in
  let candidates0 :=
    if bool_decide (0 < length anyFilters) then
      Some (foldl (λ cands f,
              foldl (λ cands' cid, foldl (λ c x, JsSet.add x c) cands'
                                         (idx cid))
                    cands (filterComponents f)) [] anyFilters)
    else None in
  let allFilters := filter (λ f, type f = FilterAll) (Query.filters q) in
  match foldl (λ cands f, foldl narrow cands (filterComponents f))
              candidates0 allFilters with
  | Some c => c
  | None => ComponentStore.getAllEntities store
  end.
Proof. done. Qed.

Lemma matches_spec q e :
  Query.matches store q e = true ↔
  ∀ f, f ∈ Query.filters q →
    match type f with
    | FilterAll => ∀ c, c ∈ filterComponents f →
                        ComponentStore.has e c store = true
    | FilterAny => ∃ c, c ∈ filterComponents f
                        ∧ ComponentStore.has e c store = true
    | FilterNone => ∀ c, c ∈ filterComponents f →
                         ComponentStore.has e c store = false
    end.
Proof.
  unfold Query.matches. rewrite forallb_forall.
  apply forall_proper. intros f. rewrite <-list_elem_of_In.
  apply forall_proper. intros Hf. destruct (type f).
  - rewrite forallb_forall. apply forall_proper. intros c.
    by rewrite <-list_elem_of_In.
  - rewrite existsb_exists. apply exist_proper. intros c.
    by rewrite <-list_elem_of_In.
  - rewrite negb_true_iff, <-not_true_iff_false, existsb_exists. split.
    + intros H c Hc. apply not_true_iff_false. intros Hh. apply H.
      exists c. by rewrite <-list_elem_of_In.
    + intros H (c & Hc%list_elem_of_In & Hh). by rewrite (H c Hc) in Hh.
Qed.

(** The recomputation returns exactly the entities of the store that
    satisfy every filter, when the index agrees with the components. *)
Lemma compute_correct q e :
  indexed store →
  e ∈ Query.compute store q
  ↔ e ∈ ComponentStore.getAllEntities store
    ∧ Query.matches store q e = true.
Proof.
  intros Hix. unfold indexed in Hix.
  rewrite elem_of_compute, getCandidateEntities_unfold. simpl.
  set (anyFilters := filter (λ f, type f = FilterAny) (Query.filters q)).
  set (allFilters := filter (λ f, type f = FilterAll) (Query.filters q)).
  set (candidates0 := if bool_decide (0 < length anyFilters) then _ else _).
  destruct (narrow_filters allFilters candidates0 e) as [N1 N2].
  simpl in N1, N2.
  destruct (foldl _ candidates0 allFilters) as [cands|] eqn:Ecands;
    [|done].
  simpl in N1. split; intros [He Hm]; (split; [|done]).
  - (* a candidate has an entry *)
    apply N1 in He as [H0 Hall].
    destruct (bool_decide (0 < length anyFilters)) eqn:Eany;
      unfold candidates0 in *; simpl in H0.
    + apply elem_of_union_filters in H0
        as [?%elem_of_nil|(f & c & _ & _ & Hc)]; [done|].
      by apply (has_entry e c), Hix.
    + assert (¬ (None = None ∧ ∀ f, f ∈ allFilters → filterComponents f = []))
        as Hsome by (rewrite <-N2; discriminate).
      destruct (decide (Forall (λ f, filterComponents f = []) allFilters))
        as [Hnil|Hcons].
      { destruct Hsome. split; [done|]. by apply Forall_forall. }
      apply not_Forall_Exists in Hcons; [|apply _].
      apply Exists_exists in Hcons as (f & Hf & Hne).
      destruct (filterComponents f) as [|c cs] eqn:Ef; [done|].
      apply (has_entry e c), Hix, (Hall f); [done|].
      rewrite Ef. apply list_elem_of_here.
  - (* a match is a candidate *)
    apply N1. pose proof (proj1 (matches_spec q e) Hm) as Hspec. split.
    + unfold candidates0. case_bool_decide as Hany; [|done]. simpl.
      apply elem_of_union_filters. right.
      destruct anyFilters as [|f fs] eqn:Eany; [simpl in Hany; lia|].
      assert (Hf : f ∈ anyFilters) by (rewrite Eany; apply list_elem_of_here).
      unfold anyFilters in Hf. apply list_elem_of_filter in Hf as [Ht Hf].
      specialize (Hspec f Hf). rewrite Ht in Hspec.
      destruct Hspec as (c & Hc & Hh). exists f, c.
      split_and!; [apply list_elem_of_here|done|by apply Hix].
    + intros f c Hf Hc. unfold allFilters in Hf.
      apply list_elem_of_filter in Hf as [Ht Hf].
      specialize (Hspec f Hf). rewrite Ht in Hspec. by apply Hix, Hspec.
Qed.
End Candidates.

(** *** Worlds built through the API keep the index in step *)

(** A tick leaves the entities, the store and the query cache alone. *)
Definition same_data (w w' : World.t) : Prop :=
  World.componentStore w' = World.componentStore w
  ∧ World.entities w' = World.entities w
  ∧ World.queryCache w' = World.queryCache w.

Lemma runPhase_data p dt t' w : same_data w (World.runPhase p dt t' w).1.
Proof.
  unfold World.runPhase. by destruct (SystemScheduler.executePhase _ _ _ _).
Qed.

Lemma same_data_trans w1 w2 w3 :
  same_data w1 w2 → same_data w2 w3 → same_data w1 w3.
Proof. intros (? & ? & ?) (? & ? & ?). split_and!; congruence. Qed.

Lemma fixedLoop_data budget fixedUpdates w :
  same_data w (World.fixedLoop budget fixedUpdates w).1.1.
Proof.
  revert fixedUpdates w. induction budget as [|budget IH];
    intros fu w; simpl.
  - by destruct (_ && _).
  - destruct (_ && _); [|done].
    pose proof (runPhase_data SystemPhase.fixedUpdate
                  (World.fixedTimestep (World.config w))
                  (World.fixedTime w) w) as Hdata.
    destruct (World.runPhase _ _ _ w) as [w1 r]. simpl in Hdata.
    destruct r as [[]| |]; simpl; try done.
    eapply same_data_trans; [|apply IH]. done.
Qed.

Lemma update_data deltaTime w : same_data w (World.update deltaTime w).1.
Proof.
  unfold World.update. destruct (World.paused w); [done|].
  set (w1 := World.with_clock _ _ _ w).
  pose proof (fixedLoop_data
                (Z.to_nat (World.maxFixedUpdates (World.config w1))) 0 w1)
    as H2.
  destruct (World.fixedLoop _ _ w1) as [[w2 fu] r]. simpl in H2.
  destruct r as [[]| |]; simpl; try done.
  set (w3 := if (fu >=? _)%Z then _ else w2).
  assert (H3 : same_data w2 w3) by (unfold w3; by destruct (_ >=? _)%Z).
  pose proof (runPhase_data SystemPhase.update deltaTime (World.time w3) w3)
    as H4.
  destruct (World.runPhase _ _ _ w3) as [w4 r4]. simpl in H4.
  assert (H14 : same_data w w4).
  { eapply same_data_trans; [|exact H4].
    eapply same_data_trans; [|exact H3]. exact H2. }
  destruct r4 as [[]| |]; simpl; try done.
  eapply same_data_trans; [exact H14|apply runPhase_data].
Qed.

Lemma built_indexed w : built w → indexed (World.componentStore w).
Proof.
  induction 1 as
    [cfg|next w _ IH|id next w next' w' entity _ IH Hc|id w _ IH
    |id c w w' _ IH Ha|id cid w _ IH|d w _ IH|key w _ IH
    |system w w' _ IH Ha|deltaTime w _ IH|w _ IH|w _ IH|w _ IH].
  - apply indexed_new.
  - done.
  - unfold World.createEntityWithId in Hc.
    destruct (JsMap.has id (World.entities w)); [done|].
    by injection Hc as _ <- _.
  - unfold World.destroyEntity.
    destruct (JsMap.get id (World.entities w)); [|done].
    by apply indexed_removeAllComponents.
  - unfold World.addComponent in Ha.
    destruct (negb _); [done|]. injection Ha as <-.
    by apply indexed_add.
  - unfold World.removeComponent.
    pose proof (indexed_remove id cid _ IH) as Hr.
    destruct (ComponentStore.remove id cid (World.componentStore w))
      as [store' removed]. by destruct removed.
  - unfold World.query. by destruct (QueryCache.get d (World.queryCache w)).
  - unfold World.execute.
    destruct (JsMap.get key _); [|done].
    by destruct (Query.execute _ _).
  - unfold World.addSystem in Ha.
    destruct (SystemScheduler.add _ _); [|done]. by injection Ha as <-.
  - by rewrite (proj1 (update_data deltaTime w)).
  - done.
  - done.
  - apply indexed_new.
Qed.

(** In a built world every entity with an entry in the store is live. *)
Lemma built_entries_live w e :
  built w →
  e ∈ ComponentStore.getAllEntities (World.componentStore w) →
  World.hasEntity e w = true.
Proof.
  intros Hw. revert e. unfold World.hasEntity.
  induction Hw as
    [cfg|next w _ IH|id next w next' w' entity _ IH Hc|id w _ IH
    |id c w w' _ IH Ha|id cid w _ IH|d w _ IH|key w _ IH
    |system w w' _ IH Ha|deltaTime w _ IH|w _ IH|w _ IH|w _ IH]; intros e.
  - by intros ?%elem_of_nil.
  - simpl. intros He. apply map_has_true, elem_of_keys_set. right.
    by apply map_has_true, IH.
  - unfold World.createEntityWithId in Hc.
    destruct (JsMap.has id (World.entities w)); [done|].
    injection Hc as _ <- _. simpl. intros He.
    apply map_has_true, elem_of_keys_set. right. by apply map_has_true, IH.
  - unfold World.destroyEntity.
    destruct (JsMap.get id (World.entities w)); [|apply IH]. simpl.
    intros [Hne He]%getAllEntities_removeAllComponents.
    apply map_has_true, elem_of_keys_delete. split; [done|].
    by apply map_has_true, IH.
  - unfold World.addComponent in Ha.
    destruct (JsMap.has id (World.entities w)) eqn:Eid; [|done].
    injection Ha as <-. simpl.
    intros [->|He]%getAllEntities_add; [done|by apply IH].
  - unfold World.removeComponent.
    pose proof (getAllEntities_remove id cid (World.componentStore w)) as Hk.
    destruct (ComponentStore.remove id cid (World.componentStore w))
      as [store' removed]. simpl in Hk.
    destruct removed; simpl; rewrite Hk; apply IH.
  - unfold World.query.
    destruct (QueryCache.get d (World.queryCache w)). apply IH.
  - unfold World.execute.
    destruct (JsMap.get key _); [|apply IH].
    destruct (Query.execute _ _). apply IH.
  - unfold World.addSystem in Ha.
    destruct (SystemScheduler.add _ _); [|done]. injection Ha as <-.
    apply IH.
  - destruct (update_data deltaTime w) as (-> & -> & _). apply IH.
  - apply IH.
  - apply IH.
  - by intros ?%elem_of_nil.
Qed.


(** ** The keys of the query cache *)

(** Every cached query sits under a key that contains each component
    type its filters name: what [markDirtyForComponent] relies on when
    it tests [key.includes(componentId)]. *)
Definition keyed (c : QueryCache.t) : Prop :=
  ∀ key q,
    JsMap.get key (QueryCache.queries c) = Some q →
    ∀ f cid, f ∈ Query.filters q → cid ∈ filterComponents f →
             JsString.includes key cid = true.

Lemma key_part_includes label l cid :
  cid ∈ l →
  ∃ p, QueryCache.key_part label (Some l) = [p]
       ∧ JsString.includes p cid = true.
Proof.
  intros Hc. eexists. split; [done|].
  by apply JsStringFacts.includes_append_r, JsStringFacts.includes_join,
    JsStringFacts.elem_of_sort.
Qed.

Lemma getKey_includes d cid :
  (∃ l, (all d = Some l ∨ any d = Some l ∨ none d = Some l) ∧ cid ∈ l) →
  JsString.includes (QueryCache.getKey d) cid = true.
Proof.
  intros (l & Hd & Hc). unfold QueryCache.getKey.
  destruct (key_part_includes "all:" l cid Hc) as (pa & Ea & Ha).
  destruct (key_part_includes "any:" l cid Hc) as (py & Ey & Hy).
  destruct (key_part_includes "none:" l cid Hc) as (pn & En & Hn).
  destruct Hd as [Hd|[Hd|Hd]]; rewrite Hd.
  - apply (JsStringFacts.includes_join_part _ _ pa); [|done].
    rewrite Ea. apply elem_of_app. left. apply list_elem_of_here.
  - apply (JsStringFacts.includes_join_part _ _ py); [|done].
    rewrite Ey. apply elem_of_app. right. apply elem_of_app. left.
    apply list_elem_of_here.
  - apply (JsStringFacts.includes_join_part _ _ pn); [|done].
    rewrite En. apply elem_of_app. right. apply elem_of_app. right.
    apply list_elem_of_here.
Qed.

Lemma elem_of_push_filter ty cs fs f :
  f ∈ Query.push_filter ty cs fs →
  f ∈ fs ∨ ∃ l, cs = Some l ∧ f = mkFilter ty l.
Proof.
  unfold Query.push_filter. destruct cs as [l|]; [|by left].
  destruct (bool_decide (0 < length l)); [|by left].
  intros [Hf|Hf%list_elem_of_singleton]%elem_of_app; [by left|].
  right. by exists l.
Qed.

Lemma new_sorted_keyed d q f cid :
  Query.new (QueryCache.sorted d) = Some q →
  f ∈ Query.filters q → cid ∈ filterComponents f →
  JsString.includes (QueryCache.getKey d) cid = true.
Proof.
  unfold Query.new. destruct (bool_decide (length _ = 0)); [done|].
  intros [= <-]. simpl. intros Hf Hc. apply getKey_includes.
  apply elem_of_push_filter in Hf as [Hf|(l & Hl & ->)].
  - apply elem_of_push_filter in Hf as [Hf|(l & Hl & ->)].
    + apply elem_of_push_filter in Hf as [Hf|(l & Hl & ->)];
        [by apply elem_of_nil in Hf|].
      destruct (all d) as [l'|] eqn:E; [|done]. injection Hl as <-.
      exists l'. split; [by left|]. by apply JsStringFacts.elem_of_sort.
    + destruct (any d) as [l'|] eqn:E; [|done]. injection Hl as <-.
      exists l'. split; [by right; left|].
      by apply JsStringFacts.elem_of_sort.
  - destruct (none d) as [l'|] eqn:E; [|done]. injection Hl as <-.
    exists l'. split; [by right; right|].
    by apply JsStringFacts.elem_of_sort.
Qed.

Lemma keyed_new : keyed QueryCache.new.
Proof. by intros key q. Qed.

Lemma keyed_get d c : keyed c → keyed (QueryCache.get d c).1.
Proof.
  intros Hc. unfold QueryCache.get.
  destruct (JsMap.get (QueryCache.getKey d) (QueryCache.queries c)); [done|].
  destruct (Query.new (QueryCache.sorted d)) as [query|] eqn:Hn; [|done].
  intros key q. simpl. rewrite get_set.
  destruct (decide (key = QueryCache.getKey d)) as [->|_]; [|apply Hc].
  intros [= <-] f cid. by apply new_sorted_keyed.
Qed.

(** Marking queries dirty moves no query to another key and changes no
    filter. *)
Lemma get_mark (g : string → bool) key (m : list (string * Query.t)) :
  JsMap.get key
    ((λ kq, if g kq.1 then (kq.1, Query.markDirty kq.2) else kq) <$> m)
  = (λ q, if g key then Query.markDirty q else q) <$> JsMap.get key m.
Proof.
  induction m as [|[k q] m IH]; [done|]. rewrite fmap_cons. simpl.
  destruct (g k) eqn:Hg; simpl.
  - destruct (decide (key = k)) as [->|_]; [by rewrite Hg|done].
  - destruct (decide (key = k)) as [->|_]; [by rewrite Hg|done].
Qed.

Lemma get_markDirtyForComponent cid key c :
  JsMap.get key (QueryCache.queries (QueryCache.markDirtyForComponent cid c))
  = (λ q, if JsString.includes key cid then Query.markDirty q else q)
    <$> JsMap.get key (QueryCache.queries c).
Proof. apply (get_mark (λ k, JsString.includes k cid)). Qed.

Lemma get_markAllDirty key c :
  JsMap.get key (QueryCache.queries (QueryCache.markAllDirty c))
  = Query.markDirty <$> JsMap.get key (QueryCache.queries c).
Proof.
  unfold QueryCache.markAllDirty. simpl.
  induction (QueryCache.queries c) as [|[k q] m IH]; [done|].
  rewrite fmap_cons. simpl. by destruct (decide (key = k)).
Qed.

Lemma keyed_markDirtyForComponent cid c :
  keyed c → keyed (QueryCache.markDirtyForComponent cid c).
Proof.
  intros Hc key q. rewrite get_markDirtyForComponent.
  destruct (JsMap.get key (QueryCache.queries c)) as [q0|] eqn:Hq; [|done].
  intros [= <-] f c'.
  destruct (JsString.includes key cid); apply (Hc key q0 Hq).
Qed.

Lemma keyed_markAllDirty c : keyed c → keyed (QueryCache.markAllDirty c).
Proof.
  intros Hc key q. rewrite get_markAllDirty.
  destruct (JsMap.get key (QueryCache.queries c)) as [q0|] eqn:Hq; [|done].
  intros [= <-]. apply (Hc key q0 Hq).
Qed.

Lemma execute_filters store q :
  Query.filters (Query.execute store q).1 = Query.filters q.
Proof.
  unfold Query.execute.
  by destruct (Query.dirty q), (Query.cachedResults q).
Qed.

Lemma built_keyed w : built w → keyed (World.queryCache w).
Proof.
  induction 1 as
    [cfg|next w _ IH|id next w next' w' entity _ IH Hc|id w _ IH
    |id c w w' _ IH Ha|id cid w _ IH|d w _ IH|key w _ IH
    |system w w' _ IH Ha|deltaTime w _ IH|w _ IH|w _ IH|w _ IH].
  - apply keyed_new.
  - done.
  - unfold World.createEntityWithId in Hc.
    destruct (JsMap.has id (World.entities w)); [done|].
    by injection Hc as _ <- _.
  - unfold World.destroyEntity.
    destruct (JsMap.get id (World.entities w)); [|done].
    by apply keyed_markAllDirty.
  - unfold World.addComponent in Ha.
    destruct (negb _); [done|]. injection Ha as <-.
    by apply keyed_markDirtyForComponent.
  - unfold World.removeComponent.
    destruct (ComponentStore.remove id cid (World.componentStore w))
      as [store' removed].
    destruct removed; [|done]. by apply keyed_markDirtyForComponent.
  - unfold World.query.
    pose proof (keyed_get d _ IH) as Hg.
    by destruct (QueryCache.get d (World.queryCache w)).
  - unfold World.execute.
    destruct (JsMap.get key _) as [q0|] eqn:Hq; [|done].
    pose proof (execute_filters (World.componentStore w) q0) as Hf.
    destruct (Query.execute _ _) as [q' results]. cbn [fst] in Hf.
    intros key' q.
    cbn [fst World.with_cache World.queryCache QueryCache.queries].
    rewrite get_set.
    destruct (decide (key' = key)) as [->|_]; [|apply IH].
    intros [= <-]. rewrite Hf. by apply IH.
  - unfold World.addSystem in Ha.
    destruct (SystemScheduler.add _ _); [|done]. by injection Ha as <-.
  - by rewrite (proj2 (proj2 (update_data deltaTime w))).
  - done.
  - done.
  - apply keyed_new.
Qed.

(** [addComponent] and a successful [removeComponent] leave dirty every
    cached query that names the component type. *)
Lemma markDirtyForComponent_sound cid c key q f :
  keyed c →
  JsMap.get key (QueryCache.queries (QueryCache.markDirtyForComponent cid c))
  = Some q →
  f ∈ Query.filters q → cid ∈ filterComponents f →
  Query.dirty q = true.
Proof.
  intros Hc. rewrite get_markDirtyForComponent.
  destruct (JsMap.get key (QueryCache.queries c)) as [q0|] eqn:Hq; [|done].
  intros [= <-] Hf Hcid.
  assert (Hi : JsString.includes key cid = true).
  { apply (Hc key q0 Hq f); [|done].
    by destruct (JsString.includes key cid). }
  by rewrite Hi.
Qed.
(** *** The repository's query and world tests, on the embedding *)

Definition component (cid : ComponentId) : Component :=
  {| componentId := cid; payload := 0; entity := None |}.

Definition store_of (l : list (EntityId * ComponentId)) : ComponentStore.t :=
  foldl (λ s ec, ComponentStore.add ec.1 (component ec.2) s)
        ComponentStore.new l.

Definition results_of (d : QueryDescriptor) (s : ComponentStore.t)
  : option (list EntityId) :=
  (λ q, (Query.execute s q).2) <$> Query.new d.

(** [core/query.test.ts], 'should combine multiple query filters' and
    'should query entities with any specified component'. *)
Example test_combined_filters :
  results_of
    {| all := Some ["CompA"]; any := Some ["CompB"; "CompC"];
       none := Some ["CompC"] |}
    (store_of [(1, "CompA"); (1, "CompB"); (2, "CompA"); (2, "CompC");
               (3, "CompB"); (3, "CompC");
               (4, "CompA"); (4, "CompB"); (4, "CompC")]%Z)
  = Some [1%Z]
  ∧ results_of
      {| all := None; any := Some ["CompA"; "CompB"]; none := None |}
      (store_of [(1, "CompA"); (2, "CompB"); (3, "CompC")]%Z)
    = Some [1; 2]%Z
  ∧ results_of {| all := None; any := None; none := None |}
               ComponentStore.new
    = None.
Proof. vm_compute. by repeat split. Qed.

(** [core/world.test.ts], 'should track world time' and 'should handle
    fixed update'. *)
Example test_world_time :
  let w := World.new World.defaultConfig in
  World.getTime (World.update 16 (World.update 16 w).1).1 == 32
  ∧ Scenario.phase_runs SystemPhase.fixedUpdate (World.update 32 w).1 = 1.
Proof. vm_compute. by split. Qed.

(** *** The claims about queries *)

(** C4. Query cache coherence. [execute()] on a query whose dirty flag
    is set returns the recomputation over the store as it is now (the
    candidates drawn from the component index that match every filter),
    caches it and clears the flag; [markDirty()] sets the flag. In a
    world built through its methods that recomputation is exactly the
    set of entities in the store that satisfy the filters at the time
    of the call, and [addComponent] (like a [removeComponent] that
    removed something) leaves dirty every cached query whose filters
    name the component's type. In the scenario: with [e1] holding [A] and [e2] holding
    [A] and [B], [query({all: [A, B]}).execute()] is [{e2}]; after
    [addComponent(e1, B)] the same descriptor yields the same cached
    query, with no query constructed, its flag set and its stale result
    still in place, and its next [execute()] returns [{e1, e2}]. *)
Theorem dirty_query_is_recomputed :
  (∀ store q,
     Query.dirty q = true →
     let '(q', results) := Query.execute store q in
     results = Query.compute store q
     ∧ Query.cachedResults q' = Some results
     ∧ Query.dirty q' = false
     ∧ Query.filters q' = Query.filters q
     ∧ ∀ e, e ∈ results
            ↔ e ∈ Query.getCandidateEntities store q
              ∧ Query.matches store q e = true)
  ∧ (∀ w key q,
       built w →
       JsMap.get key (QueryCache.queries (World.queryCache w)) = Some q →
       Query.dirty q = true →
       ∃ results,
         (World.execute key w).2 = Some results
         ∧ ∀ e, e ∈ results
                ↔ e ∈ ComponentStore.getAllEntities (World.componentStore w)
                  ∧ Query.matches (World.componentStore w) q e = true)
  ∧ (∀ w e c w' key q f,
       built w →
       World.addComponent e c w = Some w' →
       JsMap.get key (QueryCache.queries (World.queryCache w')) = Some q →
       f ∈ Query.filters q → componentId c ∈ filterComponents f →
       Query.dirty q = true)
  ∧ (∀ w e cid key q f,
       built w →
       (World.removeComponent e cid w).2 = true →
       JsMap.get key
         (QueryCache.queries
            (World.queryCache (World.removeComponent e cid w).1)) = Some q →
       f ∈ Query.filters q → cid ∈ filterComponents f →
       Query.dirty q = true)
  ∧ (∀ q, Query.dirty (Query.markDirty q) = true)
  ∧ match Scenario.populated with
    | Some (w, e1, e2) =>
        match World.query Scenario.both w with
        | (w1, Some key) =>
            let '(w2, first) := World.execute key w1 in
            first = Some [e2]
            ∧ match World.addComponent e1 Scenario.componentB w2 with
              | Some w3 =>
                  World.query Scenario.both w3 = (w3, Some key)
                  ∧ QueryCache.size (World.queryCache w3) = 1
                  ∧ (Query.dirty
                       <$> JsMap.get key
                             (QueryCache.queries (World.queryCache w3)))
                    = Some true
                  ∧ (Query.cachedResults
                       <$> JsMap.get key
                             (QueryCache.queries (World.queryCache w3)))
                    = Some (Some [e2])
                  ∧ (World.execute key w3).2 = Some [e1; e2]
                  ∧ e1 ≠ e2
              | None => False
              end
        | (_, None) => False
        end
    | None => False
    end.
Proof.
  split_and!.
  - intros store q Hd. rewrite execute_dirty by done. simpl.
    split_and!; try done. apply elem_of_compute.
  - intros w key q Hw Hget Hd. unfold World.execute. rewrite Hget.
    rewrite execute_dirty by done. simpl. eexists. split; [done|].
    intros e. by apply compute_correct, built_indexed.
  - intros w e c w' key q f Hw Ha. unfold World.addComponent in Ha.
    destruct (negb _); [done|]. injection Ha as <-.
    intros Hg Hf Hc.
    by eapply (markDirtyForComponent_sound _ (World.queryCache w)),
      Hc; [apply built_keyed| |].
  - intros w e cid key q f Hw. unfold World.removeComponent.
    destruct (ComponentStore.remove e cid (World.componentStore w))
      as [store' removed].
    destruct removed; [|done]. intros _ Hg Hf Hc.
    by eapply (markDirtyForComponent_sound _ (World.queryCache w)),
      Hc; [apply built_keyed| |].
  - done.
  - vm_compute. repeat split. discriminate.
Qed.

Lemma dirty_query_is_recomputed_witness :
  let q := {| Query.filters := [mkFilter FilterAll ["A"]];
              Query.cachedResults := Some [];
              Query.dirty := true |} in
  let store := ComponentStore.add 7%Z Scenario.componentA ComponentStore.new in
  (Query.execute store q).2 = Query.compute store q.
Proof.
  intros q store.
  pose proof (proj1 dirty_query_is_recomputed store q eq_refl) as H.
  destruct (Query.execute store q) as [q' results]. exact (proj1 H).
Defined.




End QueryFacts.

(** ** Facts about the entity table *)

Module EntityFacts.
Import JsMapFacts QueryFacts.
Import World.

Lemma length_set {K V} `{EqDecision K} (k : K) (v : V) m :
  length (JsMap.set k v m)
  = if JsMap.has k m then length m else S (length m).
Proof.
  unfold JsMap.has. induction m as [|[k0 v0] m IH]; simpl; [done|].
  destruct (decide (k = k0)) as [->|]; simpl; [done|].
  rewrite IH. by destruct (JsMap.get k m).
Qed.

(** The table holds each id once, and each entity under its own id. *)
Lemma built_entities_keyed w :
  built w →
  NoDup (JsMap.keys (entities w))
  ∧ ∀ k e, JsMap.get k (entities w) = Some e → Entity.id e = k.
Proof.
  induction 1 as
    [cfg|next w _ IH|id next w next' w' entity _ IH Hc|id w _ IH
    |id c w w' _ IH Ha|id cid w _ IH|d w _ IH|key w _ IH
    |system w w' _ IH Ha|deltaTime w _ IH|w _ IH|w _ IH|w _ IH].
  - split; [apply NoDup_nil_2|done].
  - destruct IH as [Hnd Hk]. simpl. split; [by apply NoDup_keys_set|].
    intros k e. rewrite get_set.
    destruct (decide (k = next)) as [->|]; [by intros [= <-]|apply Hk].
  - unfold createEntityWithId in Hc.
    destruct (JsMap.has id (entities w)); [done|].
    injection Hc as _ <- _. destruct IH as [Hnd Hk]. simpl.
    split; [by apply NoDup_keys_set|].
    intros k e. rewrite get_set.
    destruct (decide (k = id)) as [->|]; [by intros [= <-]|apply Hk].
  - unfold destroyEntity. destruct (JsMap.get id (entities w)); [|done].
    destruct IH as [Hnd Hk]. simpl. split.
    + rewrite keys_delete. by apply NoDup_filter.
    + intros k e. rewrite get_delete.
      destruct (decide (k = id)); [done|apply Hk].
  - unfold addComponent in Ha. destruct (negb _); [done|].
    by injection Ha as <-.
  - unfold removeComponent.
    destruct (ComponentStore.remove id cid (componentStore w)) as [? []];
      done.
  - unfold query. by destruct (QueryCache.get d (queryCache w)).
  - unfold execute. destruct (JsMap.get key _); [|done].
    by destruct (Query.execute _ _).
  - unfold addSystem in Ha.
    destruct (SystemScheduler.add _ _); [|done]. by injection Ha as <-.
  - by destruct (update_data deltaTime w) as (_ & -> & _).
  - done.
  - done.
  - split; [apply NoDup_nil_2|done].
Qed.

(** C3, on the code. On a new world with the counter at its initial
    value, [createEntityWithId(1)] succeeds; the next [createEntity()]
    draws id [1] from the counter, an id the world already holds, and
    stores its entity over the live one without an error: the world
    still counts one entity, and the component added to the first is
    found under the second. In general [createEntity()] returns the
    counter's value whether or not that id is live, and when it is live
    the number of entities does not grow. What does hold: the guard of
    [createEntityWithId] rejects an id in use, and the table of a world
    built through its methods holds each id once, each entity under its
    own id. *)
Theorem createEntity_reuses_a_live_id :
  (let w0 := new defaultConfig in
   match createEntityWithId 1%Z Entity.initialNextEntityId w0 with
   | Some (next1, w1, explicit) =>
       match addComponent (Entity.id explicit) Scenario.componentA w1 with
       | Some w2 =>
           let '(next2, w3, counted) := createEntity next1 w2 in
           Entity.id counted = Entity.id explicit
           ∧ hasEntity (Entity.id counted) w2 = true
           ∧ getEntityCount w2 = 1
           ∧ getEntityCount w3 = 1
           ∧ hasComponent (Entity.id counted) "A" w3 = true
       | None => False
       end
   | None => False
   end)
  ∧ (∀ next w,
       let '(next', w', entity) := createEntity next w in
       Entity.id entity = next
       ∧ next' = (next + 1)%Z
       ∧ hasEntity next w' = true
       ∧ getEntityCount w'
         = if hasEntity next w then getEntityCount w
           else S (getEntityCount w))
  ∧ (∀ id next w,
       hasEntity id w = true → createEntityWithId id next w = None)
  ∧ (∀ w, built w →
          NoDup (JsMap.keys (entities w))
          ∧ ∀ k e, JsMap.get k (entities w) = Some e → Entity.id e = k).
Proof.
  split_and!.
  - vm_compute. repeat split.
  - intros next w. simpl. split_and!; try done.
    + unfold hasEntity. simpl. apply map_has_true, elem_of_keys_set.
      by left.
    + unfold getEntityCount, hasEntity. simpl. apply length_set.
  - intros id next w Hid. unfold createEntityWithId.
    unfold hasEntity in Hid. by rewrite Hid.
  - apply built_entities_keyed.
Qed.
End EntityFacts.

(** ** The module-level variables of the reactive graph across a call *)

Module ReactiveSafety.
Import Reactive.
Local Open Scope rx_scope.

(** The three variables a call must leave as it found them. *)
Definition frame (st : state) : option nat * list nat * Z :=
  (currentObserver st, observerStack st, batchDepth st).

(** No write is pending outside a batch. *)
Definition settled (st : state) : Prop :=
  (0 ≤ batchDepth st)%Z ∧ (batchDepth st = 0%Z → batchedSignals st = []).

(** A state update that touches neither the frame nor the pending
    writes. *)
Definition inert (f : state → state) : Prop :=
  ∀ st, frame (f st) = frame st ∧ batchedSignals (f st) = batchedSignals st.

(** [Restores m]: unless the fuel runs out, [m] ends, by return or by
    throw, with the frame it started from, and with no write pending
    outside a batch if none was. *)
Definition Restores {A} (m : M A) : Prop :=
  ∀ st, (m st).2 ≠ OutOfFuel →
        frame (m st).1 = frame st ∧ (settled st → settled (m st).1).

(** [Flushes m]: started outside every batch, [m] leaves no write
    pending. *)
Definition Flushes {A} (m : M A) : Prop :=
  ∀ st, (m st).2 ≠ OutOfFuel → batchDepth st = 0%Z →
        frame (m st).1 = frame st ∧ settled (m st).1.

(** [Inert m]: [m] returns, and is inert. *)
Definition Inert {A} (m : M A) : Prop :=
  ∀ st, (∃ a, (m st).2 = Normal a)
        ∧ frame (m st).1 = frame st
        ∧ batchedSignals (m st).1 = batchedSignals st.

Lemma settled_same st st' :
  frame st' = frame st → batchedSignals st' = batchedSignals st →
  settled st → settled st'.
Proof.
  unfold settled, frame. intros [= _ _ ->] ->. done.
Qed.

Lemma settled_in_batch st st' :
  frame st' = frame st → batchDepth st ≠ 0%Z → settled st → settled st'.
Proof.
  unfold settled, frame. intros [= _ _ Hd] Hne [Hpos _]. rewrite Hd.
  split; [done|]. intros. done.
Qed.

Lemma inert_with_heap f : inert (with_heap f).
Proof. by intros []. Qed.

Lemma inert_log ev : inert (log ev).
Proof. by intros []. Qed.

Lemma inert_update_node n f : inert (update_node n f).
Proof. apply inert_with_heap. Qed.

Lemma inert_compose f g : inert f → inert g → inert (λ st, f (g st)).
Proof.
  intros Hf Hg st. destruct (Hf (g st)) as [-> ->]. apply Hg.
Qed.

Lemma inert_foldl {B} (step : state → B → state) (l : list B) :
  (∀ b, inert (λ st, step st b)) → inert (λ st, foldl step st l).
Proof.
  intros Hs. induction l as [|b l IH]; intros st; simpl; [done|].
  destruct (IH (step st b)) as [-> ->]. apply (Hs b).
Qed.

Lemma inert_clearDependencies this : inert (clearDependencies this).
Proof.
  intros st. unfold clearDependencies.
  destruct (inert_update_node this (with_dependencies (λ _, []))
              (foldl (λ s dep, update_node dep
                                 (with_subscribers (JsSet.delete this)) s)
                     st (dependencies_of this st))) as [-> ->].
  apply (inert_foldl
           (λ s dep, update_node dep (with_subscribers (JsSet.delete this)) s)).
  intros dep. apply inert_update_node.
Qed.

Lemma inert_base_dispose this : inert (base_dispose this).
Proof.
  intros st. unfold base_dispose.
  destruct (inert_update_node this
              (λ nd, mark_disposed (with_subscribers (λ _, []) nd))
              (clearDependencies this st)) as [-> ->].
  apply inert_clearDependencies.
Qed.

(** *** Through the monad *)

Lemma Restores_ret {A} (a : A) : Restores (ret a).
Proof. by intros st _. Qed.

Lemma Restores_throw {A} e : Restores (@throw A e).
Proof. by intros st _. Qed.

Lemma Restores_out_of_fuel {A} : Restores (@out_of_fuel A).
Proof. by intros st H. Qed.

Lemma Restores_gets {A} (g : state → A) : Restores (gets g).
Proof. by intros st _. Qed.

Lemma Restores_bind {A B} (m : M A) (f : A → M B) :
  Restores m → (∀ a, Restores (f a)) → Restores (bind m f).
Proof.
  intros Hm Hf st. unfold bind. specialize (Hm st).
  destruct (m st) as [st' [a|e|]]; simpl in *; [|by auto|done].
  intros Hend. destruct (Hm ltac:(done)) as [HF HS].
  destruct (Hf a st' Hend) as [HF' HS'].
  split; [congruence|auto].
Qed.

Lemma Restores_modify (f : state → state) : inert f → Restores (modify f).
Proof.
  intros Hf st _. destruct (Hf st) as [HF HB]. simpl.
  split; [done|]. by apply settled_same.
Qed.

Lemma Restores_finally {A} (m : M A) (f : M unit) :
  Restores m → Restores f → Restores (finally m f).
Proof.
  intros Hm Hf st. unfold finally. specialize (Hm st).
  destruct (m st) as [st' r]; simpl in *.
  specialize (Hf st').
  destruct r as [a|e|]; [| |done];
    (destruct (f st') as [st'' [[]|e'|]]; simpl in *; [| |done];
     intros _;
     destruct (Hm ltac:(done)) as [HF HS];
     destruct (Hf ltac:(done)) as [HF' HS'];
     (split; [congruence|auto])).
Qed.

Lemma Restores_try_catch {A} (m : M A) (h : exn → M A) :
  Restores m → (∀ e, Restores (h e)) → Restores (try_catch m h).
Proof.
  intros Hm Hh st. unfold try_catch. specialize (Hm st).
  destruct (m st) as [st' [a|e|]]; simpl in *; [by auto| |done].
  intros Hend. destruct (Hm ltac:(done)) as [HF HS].
  destruct (Hh e st' Hend) as [HF' HS'].
  split; [congruence|auto].
Qed.

Lemma Restores_when b (m : M unit) : Restores m → Restores (when b m).
Proof. intros Hm. destruct b; [done|apply Restores_ret]. Qed.

Lemma Restores_for_each {A} (l : list A) (body : A → M unit) :
  (∀ x, Restores (body x)) → Restores (for_each l body).
Proof.
  intros Hb. induction l as [|x l IH]; simpl.
  - apply Restores_ret.
  - apply Restores_bind; [apply Hb|done].
Qed.

Lemma Restores_lookup {A} n (f : node → M A) :
  (∀ nd, Restores (f nd)) → Restores (bind (lookup_node n) f).
Proof.
  intros Hf st. unfold bind, lookup_node.
  destruct (heap st !! n) as [nd|]; [apply Hf|done].
Qed.

Lemma Restores_alloc k : Restores (alloc k).
Proof.
  intros st _. simpl. destruct (inert_with_heap
    (λ h, h ++ [{| subscribers := []; dependencies := []; stale := false;
                   kind := k; everDisposed := false |}]) st) as [HF HB].
  split; [done|]. by apply settled_same.
Qed.

Lemma Restores_track this : Restores (track this).
Proof.
  intros st _. unfold track.
  destruct (currentObserver st) as [o|] eqn:Eo; [|done].
  case_bool_decide; [|done]. cbn [fst].
  destruct (inert_compose
              (update_node o (with_dependencies (JsSet.add this)))
              (update_node this (with_subscribers (JsSet.add o)))
              (inert_update_node _ _) (inert_update_node _ _) st)
    as [HF HB].
  split; [done|]. by apply settled_same.
Qed.

Lemma removelast_snoc (l : list nat) x : removelast (l ++ [x]) = l.
Proof. apply removelast_last. Qed.

(** The prologue and epilogue of [recompute] and [run] undo each
    other, also when the body throws. *)
Lemma Restores_observing {A} this (body : M A) :
  Restores body → Restores (observing this body).
Proof.
  intros Hbody st. unfold observing, bind, gets, modify, finally.
  cbn [fst snd].
  remember (with_stack (λ s, s ++ [this]) (with_observer (Some this) st))
    as st1 eqn:E1.
  assert (H1 : batchDepth st1 = batchDepth st
               ∧ batchedSignals st1 = batchedSignals st
               ∧ observerStack st1 = observerStack st ++ [this])
    by (by subst st1).
  clear E1. destruct H1 as (Hd1 & Hb1 & Hs1).
  assert (Hset : settled st → settled st1).
  { unfold settled. by rewrite Hd1, Hb1. }
  specialize (Hbody st1).
  destruct (body st1) as [st2 r]. cbn [fst snd] in Hbody.
  assert (Hout : r ≠ OutOfFuel →
            frame (with_observer (currentObserver st)
                     (with_stack (@removelast nat) st2)) = frame st
            ∧ (settled st →
               settled (with_observer (currentObserver st)
                          (with_stack (@removelast nat) st2)))).
  { intros Hr. destruct (Hbody Hr) as [HF HS]. split.
    - unfold frame in HF. injection HF as _ Hst Hdp.
      unfold frame, with_observer, with_stack. cbn.
      by rewrite Hst, Hs1, removelast_snoc, Hdp, Hd1.
    - intros Hst. specialize (HS (Hset Hst)).
      unfold settled in *. exact HS. }
  destruct r as [a|e|]; cbn; [| |done]; intros _; by apply Hout.
Qed.

Lemma Restores_untrack {A} (fn : M A) : Restores fn → Restores (untrack fn).
Proof.
  intros Hfn st. unfold untrack, bind, gets, modify, finally.
  cbn [fst snd].
  remember (with_observer None st) as st1 eqn:E1.
  assert (H1 : batchDepth st1 = batchDepth st
               ∧ batchedSignals st1 = batchedSignals st
               ∧ observerStack st1 = observerStack st)
    by (by subst st1).
  clear E1. destruct H1 as (Hd1 & Hb1 & Hs1).
  assert (Hset : settled st → settled st1).
  { unfold settled. by rewrite Hd1, Hb1. }
  specialize (Hfn st1).
  destruct (fn st1) as [st2 r]. cbn [fst snd] in Hfn.
  assert (Hout : r ≠ OutOfFuel →
            frame (with_observer (currentObserver st) st2) = frame st
            ∧ (settled st →
               settled (with_observer (currentObserver st) st2))).
  { intros Hr. destruct (Hfn Hr) as [HF HS]. split.
    - unfold frame in HF. injection HF as _ Hst Hdp.
      unfold frame, with_observer. cbn.
      by rewrite Hst, Hs1, Hdp, Hd1.
    - intros Hst. specialize (HS (Hset Hst)).
      unfold settled in *. exact HS. }
  destruct r as [a|e|]; cbn; [| |done]; intros _; by apply Hout.
Qed.

(** The epilogue of [batch]: [batchDepth--], then the flush if the
    depth is back to zero. *)
Definition batch_exit (flush : M unit) : M unit :=
  modify (with_depth Z.pred) ;;
  d <- gets batchDepth ;;
  when (d =? 0)%Z flush.

Lemma batch_exit_spec (flush : M unit) st2 (d : Z) :
  Flushes flush →
  batchDepth st2 = Z.succ d →
  (batch_exit flush st2).2 ≠ OutOfFuel →
  frame (batch_exit flush st2).1
  = (currentObserver st2, observerStack st2, d)
  ∧ ((0 ≤ d)%Z → settled (batch_exit flush st2).1).
Proof.
  intros Hflush Hd. unfold batch_exit, bind, gets, modify, when.
  cbn [fst snd].
  remember (with_depth Z.pred st2) as st3 eqn:E3.
  assert (H3 : frame st3 = (currentObserver st2, observerStack st2, d)).
  { subst st3. unfold frame. cbn. by rewrite Hd, Z.pred_succ. }
  clear E3.
  assert (Hd3 : batchDepth st3 = d) by (by injection H3).
  destruct (batchDepth st3 =? 0)%Z eqn:Ed.
  - apply Z.eqb_eq in Ed. intros Hend.
    destruct (Hflush st3 Hend Ed) as [HF HS].
    split; [congruence|done].
  - apply Z.eqb_neq in Ed. intros _. cbn. split; [done|].
    intros Hpos. split; [lia|]. intros Hz. congruence.
Qed.

Lemma batch_unfold {A} (flush : M unit) (fn : M A) st :
  batch flush fn st =
  match fn (with_depth Z.succ st) with
  | (st2, OutOfFuel) => (st2, OutOfFuel)
  | (st2, r) =>
      match batch_exit flush st2 with
      | (st4, Normal _) => (st4, r)
      | (st4, Thrown e) => (st4, Thrown e)
      | (st4, OutOfFuel) => (st4, OutOfFuel)
      end
  end.
Proof. reflexivity. Qed.

(** [batch]: the depth comes back to what it was, and the exit from the
    outermost batch flushes, also when [fn] throws. *)
Lemma Restores_batch {A} (flush : M unit) (fn : M A) :
  Flushes flush → Restores fn → Restores (batch flush fn).
Proof.
  intros Hflush Hfn st. rewrite batch_unfold.
  remember (with_depth Z.succ st) as st1 eqn:E1.
  assert (H1 : frame st1
               = (currentObserver st, observerStack st,
                  Z.succ (batchDepth st))) by (by subst st1).
  clear E1. specialize (Hfn st1).
  destruct (fn st1) as [st2 r]. cbn [fst snd] in Hfn.
  assert (Hout : r ≠ OutOfFuel →
            (batch_exit flush st2).2 ≠ OutOfFuel →
            frame (batch_exit flush st2).1 = frame st
            ∧ (settled st → settled (batch_exit flush st2).1)).
  { intros Hr Hend. destruct (Hfn Hr) as [HF _].
    rewrite H1 in HF. unfold frame in HF. injection HF as Ho Hs Hd.
    destruct (batch_exit_spec flush st2 (batchDepth st) Hflush Hd Hend)
      as [HF' HS'].
    split.
    - rewrite HF', Ho, Hs. done.
    - intros [Hpos _]. by apply HS'. }
  destruct r as [a|e|]; [| |done];
    (destruct (batch_exit flush st2) as [st4 [[]|e4|]];
     cbn [fst snd] in *; [| |done]; intros _; by apply Hout).
Qed.

Lemma Inert_ret {A} (a : A) : Inert (ret a).
Proof. intros st. split; [by exists a|done]. Qed.

Lemma Inert_gets {A} (g : state → A) : Inert (gets g).
Proof. intros st. split; [by eexists|done]. Qed.

Lemma Inert_modify f : inert f → Inert (modify f).
Proof. intros Hf st. split; [by exists tt|apply Hf]. Qed.

Lemma Inert_bind {A B} (m : M A) (f : A → M B) :
  Inert m → (∀ a, Inert (f a)) → Inert (bind m f).
Proof.
  intros Hm Hf st. unfold bind.
  destruct (Hm st) as ([a Ha] & HF & HB).
  destruct (m st) as [st' r]; simpl in *. subst r.
  destruct (Hf a st') as (Hr & HF' & HB').
  split; [done|]. split; congruence.
Qed.

Lemma Inert_fold_each {A B} (l : list A) (acc : B) (body : B → A → M B) :
  (∀ b x, Inert (body b x)) → Inert (fold_each l acc body).
Proof.
  intros Hb. revert acc. induction l as [|x l IH]; intros acc; simpl.
  - apply Inert_ret.
  - apply Inert_bind; [apply Hb|]. intros acc'. apply IH.
Qed.

Lemma bind_modify {B} (f : state → state) (k : unit → M B) st :
  bind (modify f) k st = k tt (f st).
Proof. reflexivity. Qed.

Lemma bind_inert {A B} (m : M A) (f : A → M B) st :
  Inert m →
  ∃ a st1, frame st1 = frame st
           ∧ batchedSignals st1 = batchedSignals st
           ∧ bind m f st = f a st1.
Proof.
  intros Hm. unfold bind.
  destruct (Hm st) as ([a Ha] & HF & HB).
  destruct (m st) as [st' r]; simpl in *. subst r. by exists a, st'.
Qed.

Lemma Flushes_after_inert {A B} (m : M A) (f : A → M B) :
  Inert m → (∀ a, Flushes (f a)) → Flushes (bind m f).
Proof.
  intros Hm Hf st. unfold bind.
  destruct (Hm st) as ([a Ha] & HF & HB).
  destruct (m st) as [st' r]; simpl in *. subst r.
  intros Hend Hd.
  assert (Hd' : batchDepth st' = 0%Z).
  { unfold frame in HF. injection HF as _ _ ->. done. }
  destruct (Hf a st' Hend Hd') as [HF' HS'].
  split; [congruence|done].
Qed.

Lemma Restores_after_inert {A B} (m : M A) (f : A → M B) :
  Inert m → (∀ a, Restores (f a)) → Restores (bind m f).
Proof.
  intros Hm Hf st. unfold bind.
  destruct (Hm st) as ([a Ha] & HF & HB).
  destruct (m st) as [st' r]; simpl in *. subst r.
  intros Hend. destruct (Hf a st' Hend) as [HF' HS'].
  split; [congruence|]. intros Hst. apply HS'. by apply (settled_same st).
Qed.

(** *** Through each method *)

Section Methods.
Variable self : call → M value.
Hypothesis self_restores : ∀ c, Restores (self c).
Hypothesis self_flushes : Flushes (self CFlush).

Lemma Restores_do c : Restores (do_ self c).
Proof.
  apply Restores_bind; [apply self_restores|]. intros _. apply Restores_ret.
Qed.

Lemma Restores_void m : Restores m → Restores (void m).
Proof.
  intros Hm. apply Restores_bind; [done|]. intros _. apply Restores_ret.
Qed.

Lemma Flushes_void m : Flushes m → Flushes (void m).
Proof.
  intros Hm st. unfold void, bind. specialize (Hm st).
  destruct (m st) as [st' [[]|e|]]; simpl in *; auto.
Qed.

Lemma Flushes_do_flush : Flushes (do_ self CFlush).
Proof.
  intros st. unfold do_, bind. pose proof (self_flushes st) as Hm.
  destruct (self CFlush st) as [st' [a|e|]]; simpl in *; auto.
Qed.

Lemma Restores_notify this : Restores (notify self this).
Proof.
  unfold notify. apply Restores_bind; [apply Restores_gets|]. intros subs.
  apply Restores_bind.
  - apply Restores_for_each. intros x.
    apply Restores_bind; [apply Restores_gets|]. intros live.
    apply Restores_when, Restores_modify, inert_update_node.
  - intros _. apply Restores_for_each. intros x.
    apply Restores_bind; [apply Restores_gets|]. intros live.
    apply Restores_when, Restores_do.
Qed.

Lemma Restores_Signal_set this old v : Restores (Signal_set self this old v).
Proof.
  unfold Signal_set. destruct (negb (Object_is old v)); [|apply Restores_ret].
  apply Restores_bind; [apply Restores_modify, inert_update_node|]. intros _.
  apply Restores_bind; [apply Restores_modify, inert_update_node|]. intros _.
  intros st. unfold bind, gets. cbn [fst snd].
  destruct (batchDepth st >? 0)%Z eqn:Ed.
  - intros _. simpl. split; [done|]. intros [Hpos _]. split; [done|].
    simpl. lia.
  - apply Restores_do.
Qed.

Lemma Restores_computed_value this : Restores (computed_value this).
Proof.
  apply Restores_lookup. intros nd.
  destruct (kind nd); first [apply Restores_ret|apply Restores_throw].
Qed.

Lemma Restores_defined v : Restores (defined v).
Proof. destruct v; first [apply Restores_ret|apply Restores_throw]. Qed.

Lemma Restores_Computed_recompute this compute :
  Restores (Computed_recompute self this compute).
Proof.
  apply Restores_bind; [apply Restores_modify, inert_clearDependencies|].
  intros _. apply Restores_observing.
  apply Restores_bind; [apply Restores_modify, inert_log|]. intros _.
  apply Restores_bind; [apply self_restores|]. intros v.
  apply Restores_bind; [apply Restores_modify, inert_update_node|]. intros _.
  apply Restores_modify, inert_update_node.
Qed.

Lemma Restores_run_cleanup this cleanup :
  Restores (run_cleanup self this cleanup).
Proof.
  destruct cleanup as [c|]; [|apply Restores_ret]. simpl.
  apply Restores_bind; [apply Restores_modify, inert_log|]. intros _.
  apply Restores_bind; [apply Restores_do|]. intros _.
  apply Restores_modify, inert_update_node.
Qed.

Lemma Restores_Effect_run this cleanup disposed effect cleanupOf :
  Restores (Effect_run self this cleanup disposed effect cleanupOf).
Proof.
  unfold Effect_run. destruct disposed; [apply Restores_ret|].
  apply Restores_bind; [apply Restores_modify, inert_clearDependencies|].
  intros _. apply Restores_observing.
  apply Restores_bind; [apply Restores_run_cleanup|]. intros _.
  apply Restores_bind; [apply Restores_modify, inert_log|]. intros _.
  apply Restores_bind; [apply self_restores|]. intros v.
  apply Restores_bind; [apply Restores_modify, inert_update_node|]. intros _.
  apply Restores_modify, inert_update_node.
Qed.

(** The two loops of [flushBatchedUpdates] after its early return. *)
Definition flush_rest (batched : list nat) : M unit :=
  pending <- fold_each batched [] (λ pending sig,
    subs <- gets (subscribers_of sig) ;;
    fold_each subs pending (λ pending' subscriber,
      modify (update_node subscriber (with_stale true)) ;;
      ret (JsSet.add subscriber pending'))) ;;
  modify (with_batched (λ _, [])) ;;
  for_each pending (λ subscriber, do_ self (CUpdate subscriber)).

Lemma Inert_collect (batched : list nat) :
  Inert (fold_each batched [] (λ pending sig,
    subs <- gets (subscribers_of sig) ;;
    fold_each subs pending (λ pending' subscriber,
      modify (update_node subscriber (with_stale true)) ;;
      ret (JsSet.add subscriber pending')))).
Proof.
  apply Inert_fold_each. intros pending sig.
  apply Inert_bind; [apply Inert_gets|]. intros subs.
  apply Inert_fold_each. intros pending' x.
  apply Inert_bind; [apply Inert_modify, inert_update_node|].
  intros _. apply Inert_ret.
Qed.

Lemma Restores_updates (pending : list nat) :
  Restores (for_each pending (λ subscriber, do_ self (CUpdate subscriber))).
Proof. apply Restores_for_each. intros x. apply Restores_do. Qed.

Lemma flush_rest_spec batched st :
  (flush_rest batched st).2 ≠ OutOfFuel →
  frame (flush_rest batched st).1 = frame st
  ∧ ((0 ≤ batchDepth st)%Z → settled (flush_rest batched st).1).
Proof.
  unfold flush_rest.
  destruct (bind_inert _
              (λ pending,
                 modify (with_batched (λ _, [])) ;;
                 for_each pending (λ subscriber,
                   do_ self (CUpdate subscriber)))
              st (Inert_collect batched))
    as (pending & st1 & HF & HB & ->).
  rewrite !bind_modify.
  remember (with_batched (λ _, []) st1) as st2 eqn:E2.
  assert (H2 : frame st2 = frame st ∧ batchedSignals st2 = [])
    by (by subst st2).
  clear E2. destruct H2 as [HF2 HB2].
  intros Hend. destruct (Restores_updates pending st2 Hend) as [HF' HS'].
  split; [congruence|]. intros Hpos. apply HS'.
  split; [|done]. unfold frame in HF2. injection HF2 as _ _ Hd.
  by rewrite Hd.
Qed.

Lemma flushBatchedUpdates_unfold st :
  flushBatchedUpdates self st =
  if bool_decide (length (batchedSignals st) = 0) then (st, Normal tt)
  else flush_rest (batchedSignals st) st.
Proof.
  unfold flushBatchedUpdates, bind at 1, gets at 1. cbn [fst snd].
  by case_bool_decide.
Qed.

Lemma Flushes_flushBatchedUpdates : Flushes (flushBatchedUpdates self).
Proof.
  intros st. rewrite flushBatchedUpdates_unfold. case_bool_decide as Hl.
  - intros _ Hd. split; [done|]. split; simpl; [lia|].
    intros _. by apply nil_length_inv.
  - intros Hend Hd. destruct (flush_rest_spec _ st Hend) as [HF HS].
    split; [done|]. apply HS. lia.
Qed.

Lemma Restores_flushBatchedUpdates : Restores (flushBatchedUpdates self).
Proof.
  intros st. rewrite flushBatchedUpdates_unfold. case_bool_decide as Hl.
  - by intros _.
  - intros Hend. destruct (flush_rest_spec _ st Hend) as [HF HS].
    split; [done|]. intros [Hpos _]. by apply HS.
Qed.

Lemma Restores_run_prog p : Restores (run_prog self p).
Proof.
  destruct p; simpl.
  - apply Restores_ret.
  - apply Restores_throw.
  - apply Restores_bind; [apply self_restores|]. intros v.
    apply self_restores.
  - apply Restores_bind; [apply self_restores|]. intros v.
    apply self_restores.
  - apply Restores_bind; [apply self_restores|]. intros _.
    apply self_restores.
  - apply Restores_bind; [apply self_restores|]. intros _.
    apply self_restores.
  - apply Restores_bind; [|intros v; apply self_restores].
    apply Restores_batch; [apply Flushes_do_flush|apply self_restores].
  - apply Restores_bind; [|intros v; apply self_restores].
    apply Restores_untrack, self_restores.
  - apply Restores_bind; [|intros v; apply self_restores].
    apply Restores_try_catch; [apply self_restores|]. intros e.
    apply self_restores.
  - apply Restores_bind; [apply Restores_alloc|]. intros n.
    apply self_restores.
  - apply Restores_bind; [apply Restores_alloc|]. intros n.
    apply self_restores.
  - apply Restores_bind; [apply Restores_alloc|]. intros n.
    apply Restores_bind; [apply self_restores|]. intros _.
    apply self_restores.
Qed.

Lemma Restores_dispatch c : Restores (dispatch self c).
Proof.
  destruct c; simpl;
    try (apply Restores_lookup; intros nd; destruct (kind nd)).
  all: try apply Restores_throw.
  all: try apply Restores_ret.
  all: try apply Restores_void.
  - apply Restores_run_prog.
  - apply Restores_bind; [apply Restores_track|]. intros _.
    apply Restores_ret.
  - unfold Computed_get.
    apply Restores_bind; [apply Restores_when, Restores_do|]. intros _.
    apply Restores_bind; [apply Restores_track|]. intros _.
    apply Restores_bind; [apply Restores_computed_value|]. intros v.
    apply Restores_defined.
  - unfold Computed_peek.
    apply Restores_bind; [apply Restores_when, Restores_do|]. intros _.
    apply Restores_bind; [apply Restores_computed_value|]. intros v.
    apply Restores_defined.
  - apply Restores_Signal_set.
  - apply Restores_Computed_recompute.
  - unfold Computed_update. destruct (negb (stale nd)); [apply Restores_ret|].
    apply Restores_bind; [apply Restores_do|]. intros _.
    apply Restores_notify.
  - unfold Effect_update.
    destruct (negb (stale nd) || disposed);
      [apply Restores_ret|apply Restores_do].
  - apply Restores_notify.
  - apply Restores_Effect_run.
  - apply Restores_modify, inert_base_dispose.
  - unfold Computed_dispose.
    apply Restores_bind; [apply Restores_modify, inert_update_node|].
    intros _.
    apply Restores_bind; [apply Restores_modify, inert_update_node|].
    intros _. apply Restores_modify, inert_base_dispose.
  - unfold Effect_dispose. destruct disposed; [apply Restores_ret|].
    apply Restores_bind; [apply Restores_modify, inert_update_node|].
    intros _.
    apply Restores_bind; [apply Restores_run_cleanup|]. intros _.
    apply Restores_modify, inert_base_dispose.
  - apply Restores_flushBatchedUpdates.
Qed.

Lemma Flushes_dispatch : Flushes (dispatch self CFlush).
Proof. apply Flushes_void, Flushes_flushBatchedUpdates. Qed.
End Methods.

Lemma Restores_exec fuel :
  (∀ c, Restores (exec fuel c)) ∧ Flushes (exec fuel CFlush).
Proof.
  induction fuel as [|fuel [IH1 IH2]]; simpl.
  - split; [intros c; apply Restores_out_of_fuel|]. by intros st H.
  - split; [intros c; by apply Restores_dispatch|by apply Flushes_dispatch].
Qed.

(** *** An effect that was disposed *)

Definition disposed_effect (nd : node) : bool :=
  match kind nd with
  | EffectNode _ true _ _ => true
  | _ => false
  end.

(** The node behind [e] is an effect whose [disposed] flag is set. *)
Definition is_disposed (e : nat) (st : state) : Prop :=
  from_option disposed_effect false (heap st !! e) = true.

(** [Quiet e m]: if [e] is a disposed effect, [m] leaves it one, and
    does not invoke its body; whatever the outcome. *)
Definition Quiet {A} (e : nat) (m : M A) : Prop :=
  ∀ st, is_disposed e st →
        is_disposed e (m st).1 ∧ effect_runs e (m st).1 = effect_runs e st.

Definition quiet (e : nat) (f : state → state) : Prop :=
  ∀ st, is_disposed e st →
        is_disposed e (f st) ∧ effect_runs e (f st) = effect_runs e st.

(** A write to a node that does not turn a disposed effect into
    anything else. *)
Definition keeps_disposed (f : node → node) : Prop :=
  ∀ nd, disposed_effect nd = true → disposed_effect (f nd) = true.

Lemma is_disposed_valid e st : is_disposed e st → e < length (heap st).
Proof.
  unfold is_disposed. destruct (heap st !! e) eqn:E; [|done].
  intros _. by eapply lookup_lt_Some.
Qed.

Lemma quiet_update_node e n f :
  n ≠ e ∨ keeps_disposed f → quiet e (update_node n f).
Proof.
  intros Hf st Hd. split; [|done]. unfold is_disposed in *.
  rewrite ReactiveFacts.lookup_update_node.
  destruct (decide (e = n)) as [->|Hne]; [|done].
  destruct Hf as [Hf|Hf]; [done|].
  destruct (heap st !! n) as [nd|]; [|done]. simpl in *. by apply Hf.
Qed.

Lemma keeps_with_stale b : keeps_disposed (with_stale b).
Proof. by intros []. Qed.

Lemma keeps_with_subscribers f : keeps_disposed (with_subscribers f).
Proof. by intros []. Qed.

Lemma keeps_with_dependencies f : keeps_disposed (with_dependencies f).
Proof. by intros []. Qed.

Lemma keeps_mark_disposed : keeps_disposed mark_disposed.
Proof. by intros []. Qed.

Lemma keeps_compose f g :
  keeps_disposed f → keeps_disposed g → keeps_disposed (λ nd, f (g nd)).
Proof. intros Hf Hg nd Hnd. by apply Hf, Hg. Qed.

Lemma quiet_compose e f g : quiet e f → quiet e g → quiet e (λ st, f (g st)).
Proof.
  intros Hf Hg st Hd. destruct (Hg st Hd) as [Hd' Hr].
  destruct (Hf (g st) Hd') as [Hd'' Hr']. split; [done|congruence].
Qed.

Lemma quiet_foldl {B} e (step : state → B → state) (l : list B) :
  (∀ b, quiet e (λ st, step st b)) → quiet e (λ st, foldl step st l).
Proof.
  intros Hs. induction l as [|b l IH]; intros st Hd; simpl; [done|].
  destruct (Hs b st Hd) as [Hd' Hr].
  destruct (IH (step st b) Hd') as [Hd'' Hr']. split; [done|congruence].
Qed.

Lemma quiet_clearDependencies e this : quiet e (clearDependencies this).
Proof.
  intros st Hd. unfold clearDependencies.
  apply (quiet_compose e
           (update_node this (with_dependencies (λ _, [])))
           (λ st', foldl (λ s dep, update_node dep
                            (with_subscribers (JsSet.delete this)) s)
                         st' (dependencies_of this st))); [| |done].
  - apply quiet_update_node. right. apply keeps_with_dependencies.
  - apply (quiet_foldl e
             (λ s dep, update_node dep
                         (with_subscribers (JsSet.delete this)) s)).
    intros dep. apply quiet_update_node. right. apply keeps_with_subscribers.
Qed.

Lemma quiet_base_dispose e this : quiet e (base_dispose this).
Proof.
  intros st Hd. unfold base_dispose.
  apply (quiet_compose e
           (update_node this
              (λ nd, mark_disposed (with_subscribers (λ _, []) nd)))
           (clearDependencies this)); [| |done].
  - apply quiet_update_node. right.
    apply (keeps_compose mark_disposed (with_subscribers (λ _, []))).
    + apply keeps_mark_disposed.
    + apply keeps_with_subscribers.
  - apply quiet_clearDependencies.
Qed.

Lemma quiet_set_cleanup e this c : quiet e (set_cleanup this c).
Proof.
  apply quiet_update_node. right. intros [s d stl k ed].
  unfold disposed_effect. simpl. by destruct k as [| |? []].
Qed.

Lemma quiet_set_disposed e this : quiet e (set_disposed this).
Proof.
  apply quiet_update_node. right. intros [s d stl k ed].
  unfold disposed_effect. simpl. by destruct k as [| |? []].
Qed.

Lemma effect_runs_log e ev st :
  effect_runs e (log ev st)
  = effect_runs e st + (if decide (ev = EvEffect e) then 1 else 0).
Proof.
  unfold effect_runs, log. simpl. rewrite filter_app, length_app.
  f_equal. rewrite filter_cons, filter_nil.
  by destruct (decide (ev = EvEffect e)).
Qed.

Lemma quiet_log e ev : ev ≠ EvEffect e → quiet e (log ev).
Proof.
  intros Hev st Hd. split; [done|].
  rewrite effect_runs_log, decide_False by done. lia.
Qed.

(** *** Through the monad *)

Lemma Quiet_ret {A} e (a : A) : Quiet e (ret a).
Proof. by intros st Hd. Qed.

Lemma Quiet_throw {A} e x : Quiet e (@throw A x).
Proof. by intros st Hd. Qed.

Lemma Quiet_out_of_fuel {A} e : Quiet e (@out_of_fuel A).
Proof. by intros st Hd. Qed.

Lemma Quiet_gets {A} e (g : state → A) : Quiet e (gets g).
Proof. by intros st Hd. Qed.

Lemma Quiet_modify e f : quiet e f → Quiet e (modify f).
Proof. intros Hf st Hd. by apply Hf. Qed.

Lemma Quiet_bind {A B} e (m : M A) (f : A → M B) :
  Quiet e m → (∀ a, Quiet e (f a)) → Quiet e (bind m f).
Proof.
  intros Hm Hf st Hd. unfold bind. destruct (Hm st Hd) as [Hd' Hr].
  destruct (m st) as [st' [a|x|]]; simpl in *; try done.
  destruct (Hf a st' Hd') as [Hd'' Hr']. split; [done|congruence].
Qed.

Lemma Quiet_finally {A} e (m : M A) (f : M unit) :
  Quiet e m → Quiet e f → Quiet e (finally m f).
Proof.
  intros Hm Hf st Hd. unfold finally. destruct (Hm st Hd) as [Hd' Hr].
  destruct (m st) as [st' r]; simpl in *.
  destruct (Hf st' Hd') as [Hd'' Hr'].
  destruct r; try done; destruct (f st') as [st'' [[]|x'|]]; simpl in *;
    (split; [done|congruence]).
Qed.

Lemma Quiet_try_catch {A} e (m : M A) (h : exn → M A) :
  Quiet e m → (∀ x, Quiet e (h x)) → Quiet e (try_catch m h).
Proof.
  intros Hm Hh st Hd. unfold try_catch. destruct (Hm st Hd) as [Hd' Hr].
  destruct (m st) as [st' [a|x|]]; simpl in *; try done.
  destruct (Hh x st' Hd') as [Hd'' Hr']. split; [done|congruence].
Qed.

Lemma Quiet_when e b (m : M unit) : Quiet e m → Quiet e (when b m).
Proof. intros Hm. destruct b; [done|apply Quiet_ret]. Qed.

Lemma Quiet_for_each {A} e (l : list A) (body : A → M unit) :
  (∀ x, Quiet e (body x)) → Quiet e (for_each l body).
Proof.
  intros Hb. induction l as [|x l IH]; simpl.
  - apply Quiet_ret.
  - apply Quiet_bind; [apply Hb|done].
Qed.

Lemma Quiet_fold_each {A B} e (l : list A) (acc : B) (body : B → A → M B) :
  (∀ b x, Quiet e (body b x)) → Quiet e (fold_each l acc body).
Proof.
  intros Hb. revert acc. induction l as [|x l IH]; intros acc; simpl.
  - apply Quiet_ret.
  - apply Quiet_bind; [apply Hb|]. intros acc'. apply IH.
Qed.

(** What a lookup tells: the node found behind [e] itself is the
    disposed effect. *)
Lemma Quiet_lookup {A} e n (f : node → M A) :
  (∀ nd, (n = e → disposed_effect nd = true) → Quiet e (f nd)) →
  Quiet e (bind (lookup_node n) f).
Proof.
  intros Hf st Hd. unfold bind, lookup_node.
  destruct (heap st !! n) as [nd|] eqn:E; [|done].
  apply Hf; [|done]. intros ->. unfold is_disposed in Hd.
  by rewrite E in Hd.
Qed.

Lemma Quiet_alloc e k : Quiet e (alloc k).
Proof.
  intros st Hd. split; [|done]. unfold is_disposed in *. simpl.
  rewrite lookup_app_l; [done|]. by apply is_disposed_valid.
Qed.

Lemma Quiet_track e this : Quiet e (track this).
Proof.
  intros st Hd. unfold track.
  destruct (currentObserver st) as [o|]; [|done].
  case_bool_decide; [|done]. cbn [fst].
  apply (quiet_compose e
           (update_node o (with_dependencies (JsSet.add this)))
           (update_node this (with_subscribers (JsSet.add o)))); [| |done].
  - apply quiet_update_node. right. apply keeps_with_dependencies.
  - apply quiet_update_node. right. apply keeps_with_subscribers.
Qed.

Lemma Quiet_with_observer e o : Quiet e (modify (with_observer o)).
Proof. by intros st Hd. Qed.

Lemma Quiet_with_stack e f : Quiet e (modify (with_stack f)).
Proof. by intros st Hd. Qed.

Lemma Quiet_with_depth e f : Quiet e (modify (with_depth f)).
Proof. by intros st Hd. Qed.

Lemma Quiet_with_batched e f : Quiet e (modify (with_batched f)).
Proof. by intros st Hd. Qed.

Lemma Quiet_observing {A} e this (body : M A) :
  Quiet e body → Quiet e (observing this body).
Proof.
  intros Hbody. unfold observing.
  apply Quiet_bind; [apply Quiet_gets|]. intros prev.
  apply Quiet_bind; [apply Quiet_with_observer|]. intros _.
  apply Quiet_bind; [apply Quiet_with_stack|]. intros _.
  apply Quiet_finally; [done|].
  apply Quiet_bind; [apply Quiet_with_stack|]. intros _.
  apply Quiet_with_observer.
Qed.

Lemma Quiet_untrack {A} e (fn : M A) : Quiet e fn → Quiet e (untrack fn).
Proof.
  intros Hfn. unfold untrack.
  apply Quiet_bind; [apply Quiet_gets|]. intros prev.
  apply Quiet_bind; [apply Quiet_with_observer|]. intros _.
  apply Quiet_finally; [done|]. apply Quiet_with_observer.
Qed.

Lemma Quiet_batch {A} e (flush : M unit) (fn : M A) :
  Quiet e flush → Quiet e fn → Quiet e (batch flush fn).
Proof.
  intros Hflush Hfn. unfold batch.
  apply Quiet_bind; [apply Quiet_with_depth|]. intros _.
  apply Quiet_finally; [done|].
  apply Quiet_bind; [apply Quiet_with_depth|]. intros _.
  apply Quiet_bind; [apply Quiet_gets|]. intros d.
  by apply Quiet_when.
Qed.

(** *** Through each method *)

Section QuietMethods.
Variable e : nat.
Variable self : call → M value.
Hypothesis self_quiet : ∀ c, Quiet e (self c).

Lemma Quiet_do c : Quiet e (do_ self c).
Proof.
  apply Quiet_bind; [apply self_quiet|]. intros _. apply Quiet_ret.
Qed.

Lemma Quiet_void m : Quiet e m → Quiet e (void m).
Proof. intros Hm. apply Quiet_bind; [done|]. intros _. apply Quiet_ret. Qed.

Lemma Quiet_stale n b : Quiet e (modify (update_node n (with_stale b))).
Proof.
  apply Quiet_modify, quiet_update_node. right. apply keeps_with_stale.
Qed.

Lemma Quiet_notify this : Quiet e (notify self this).
Proof.
  unfold notify. apply Quiet_bind; [apply Quiet_gets|]. intros subs.
  apply Quiet_bind.
  - apply Quiet_for_each. intros x.
    apply Quiet_bind; [apply Quiet_gets|]. intros live.
    apply Quiet_when, Quiet_stale.
  - intros _. apply Quiet_for_each. intros x.
    apply Quiet_bind; [apply Quiet_gets|]. intros live.
    apply Quiet_when, Quiet_do.
Qed.

Lemma Quiet_Signal_set this old v :
  this ≠ e → Quiet e (Signal_set self this old v).
Proof.
  intros Hne. unfold Signal_set.
  destruct (negb (Object_is old v)); [|apply Quiet_ret].
  apply Quiet_bind; [apply Quiet_modify, quiet_update_node; by left|].
  intros _. apply Quiet_bind; [apply Quiet_stale|]. intros _.
  apply Quiet_bind; [apply Quiet_gets|]. intros d.
  destruct (d >? 0)%Z; [apply Quiet_with_batched|apply Quiet_do].
Qed.

Lemma Quiet_computed_value this : Quiet e (computed_value this).
Proof.
  apply Quiet_lookup. intros nd _.
  destruct (kind nd); first [apply Quiet_ret|apply Quiet_throw].
Qed.

Lemma Quiet_defined v : Quiet e (defined v).
Proof. destruct v; first [apply Quiet_ret|apply Quiet_throw]. Qed.

Lemma Quiet_Computed_recompute this compute :
  this ≠ e → Quiet e (Computed_recompute self this compute).
Proof.
  intros Hne.
  apply Quiet_bind; [apply Quiet_modify, quiet_clearDependencies|].
  intros _. apply Quiet_observing.
  apply Quiet_bind; [by apply Quiet_modify, quiet_log|]. intros _.
  apply Quiet_bind; [apply self_quiet|]. intros v.
  apply Quiet_bind; [apply Quiet_modify, quiet_update_node; by left|].
  intros _. apply Quiet_stale.
Qed.

Lemma Quiet_run_cleanup this cleanup : Quiet e (run_cleanup self this cleanup).
Proof.
  destruct cleanup as [c|]; [|apply Quiet_ret]. simpl.
  apply Quiet_bind; [by apply Quiet_modify, quiet_log|]. intros _.
  apply Quiet_bind; [apply Quiet_do|]. intros _.
  apply Quiet_modify, quiet_set_cleanup.
Qed.

(** [run()] returns at once on a disposed effect; on any other it
    invokes a body that is not that of [e]. *)
Lemma Quiet_Effect_run this cleanup disposed effect cleanupOf :
  (this = e → disposed = true) →
  Quiet e (Effect_run self this cleanup disposed effect cleanupOf).
Proof.
  intros Hthis. unfold Effect_run.
  destruct disposed; [apply Quiet_ret|].
  assert (Hne : this ≠ e) by (intros ->; by specialize (Hthis eq_refl)).
  apply Quiet_bind; [apply Quiet_modify, quiet_clearDependencies|].
  intros _. apply Quiet_observing.
  apply Quiet_bind; [apply Quiet_run_cleanup|]. intros _.
  apply Quiet_bind.
  { apply Quiet_modify, quiet_log. by intros [= ->]. }
  intros _. apply Quiet_bind; [apply self_quiet|]. intros v.
  apply Quiet_bind; [apply Quiet_modify, quiet_set_cleanup|]. intros _.
  apply Quiet_stale.
Qed.

Lemma Quiet_dispose_rest this cleanup :
  Quiet e (run_cleanup self this cleanup ;; modify (base_dispose this)).
Proof.
  apply Quiet_bind; [apply Quiet_run_cleanup|]. intros _.
  apply Quiet_modify, quiet_base_dispose.
Qed.

Lemma Quiet_Effect_dispose this cleanup disposed :
  Quiet e (Effect_dispose self this cleanup disposed).
Proof.
  unfold Effect_dispose. destruct disposed; [apply Quiet_ret|].
  apply Quiet_bind; [apply Quiet_modify, quiet_set_disposed|]. intros _.
  apply Quiet_dispose_rest.
Qed.

Lemma Quiet_flushBatchedUpdates : Quiet e (flushBatchedUpdates self).
Proof.
  unfold flushBatchedUpdates.
  apply Quiet_bind; [apply Quiet_gets|]. intros batched.
  case_bool_decide; [apply Quiet_ret|].
  apply Quiet_bind.
  { apply Quiet_fold_each. intros pending sig.
    apply Quiet_bind; [apply Quiet_gets|]. intros subs.
    apply Quiet_fold_each. intros pending' x.
    apply Quiet_bind; [apply Quiet_stale|]. intros _. apply Quiet_ret. }
  intros pending. apply Quiet_bind; [apply Quiet_with_batched|]. intros _.
  apply Quiet_for_each. intros x. apply Quiet_do.
Qed.

Lemma Quiet_run_prog p : Quiet e (run_prog self p).
Proof.
  destruct p; simpl.
  - apply Quiet_ret.
  - apply Quiet_throw.
  - apply Quiet_bind; [apply self_quiet|]. intros v. apply self_quiet.
  - apply Quiet_bind; [apply self_quiet|]. intros v. apply self_quiet.
  - apply Quiet_bind; [apply self_quiet|]. intros _. apply self_quiet.
  - apply Quiet_bind; [apply self_quiet|]. intros _. apply self_quiet.
  - apply Quiet_bind; [|intros v; apply self_quiet].
    apply Quiet_batch; [apply Quiet_do|apply self_quiet].
  - apply Quiet_bind; [|intros v; apply self_quiet].
    apply Quiet_untrack, self_quiet.
  - apply Quiet_bind; [|intros v; apply self_quiet].
    apply Quiet_try_catch; [apply self_quiet|]. intros x. apply self_quiet.
  - apply Quiet_bind; [apply Quiet_alloc|]. intros n. apply self_quiet.
  - apply Quiet_bind; [apply Quiet_alloc|]. intros n. apply self_quiet.
  - apply Quiet_bind; [apply Quiet_alloc|]. intros n.
    apply Quiet_bind; [apply self_quiet|]. intros _. apply self_quiet.
Qed.

Lemma not_disposed_signal n nd v :
  kind nd = SignalNode v → (n = e → disposed_effect nd = true) → n ≠ e.
Proof.
  intros Hk Hd ->. specialize (Hd eq_refl).
  unfold disposed_effect in Hd. by rewrite Hk in Hd.
Qed.

Lemma not_disposed_computed n nd v c p :
  kind nd = ComputedNode v c p → (n = e → disposed_effect nd = true) →
  n ≠ e.
Proof.
  intros Hk Hd ->. specialize (Hd eq_refl).
  unfold disposed_effect in Hd. by rewrite Hk in Hd.
Qed.

Lemma Quiet_dispatch c : Quiet e (dispatch self c).
Proof.
  destruct c; simpl;
    try (apply Quiet_lookup; intros nd Hnd; destruct (kind nd) eqn:Hk).
  all: try apply Quiet_throw.
  all: try apply Quiet_ret.
  all: try apply Quiet_void.
  - apply Quiet_run_prog.
  - apply Quiet_bind; [apply Quiet_track|]. intros _. apply Quiet_ret.
  - unfold Computed_get.
    apply Quiet_bind; [apply Quiet_when, Quiet_do|]. intros _.
    apply Quiet_bind; [apply Quiet_track|]. intros _.
    apply Quiet_bind; [apply Quiet_computed_value|]. intros v.
    apply Quiet_defined.
  - unfold Computed_peek.
    apply Quiet_bind; [apply Quiet_when, Quiet_do|]. intros _.
    apply Quiet_bind; [apply Quiet_computed_value|]. intros v.
    apply Quiet_defined.
  - apply Quiet_Signal_set. by eapply not_disposed_signal.
  - apply Quiet_Computed_recompute. by eapply not_disposed_computed.
  - unfold Computed_update. destruct (negb (stale nd)); [apply Quiet_ret|].
    apply Quiet_bind; [apply Quiet_do|]. intros _. apply Quiet_notify.
  - unfold Effect_update.
    destruct (negb (stale nd) || disposed);
      [apply Quiet_ret|apply Quiet_do].
  - apply Quiet_notify.
  - apply Quiet_Effect_run. intros Hn. specialize (Hnd Hn).
    unfold disposed_effect in Hnd. rewrite Hk in Hnd. by destruct disposed.
  - apply Quiet_modify, quiet_base_dispose.
  - unfold Computed_dispose.
    apply Quiet_bind.
    { apply Quiet_modify, quiet_update_node. left.
      by eapply not_disposed_computed. }
    intros _. apply Quiet_bind; [apply Quiet_stale|]. intros _.
    apply Quiet_modify, quiet_base_dispose.
  - apply Quiet_Effect_dispose.
  - apply Quiet_flushBatchedUpdates.
Qed.
End QuietMethods.

Lemma Quiet_exec e fuel c : Quiet e (exec fuel c).
Proof.
  revert c. induction fuel as [|fuel IH]; intros c; simpl.
  - apply Quiet_out_of_fuel.
  - by apply Quiet_dispatch.
Qed.

Lemma exec_dispose_effect e fuel st nd cleanup disposed effect cleanupOf :
  heap st !! e = Some nd →
  kind nd = EffectNode cleanup disposed effect cleanupOf →
  exec (S fuel) (CDispose e) st
  = void (Effect_dispose (exec fuel) e cleanup disposed) st.
Proof.
  intros Hnd Hk. cbn [exec dispatch].
  unfold bind at 1, lookup_node. rewrite Hnd. cbv beta iota.
  by rewrite Hk.
Qed.

(** [dispose()] on an effect sets the flag before anything else, so the
    effect is disposed however the call ends, and the call itself does
    not invoke the body. *)
Lemma dispose_disposes e fuel st nd cleanup disposed effect cleanupOf :
  heap st !! e = Some nd →
  kind nd = EffectNode cleanup disposed effect cleanupOf →
  is_disposed e (exec (S fuel) (CDispose e) st).1
  ∧ effect_runs e (exec (S fuel) (CDispose e) st).1 = effect_runs e st.
Proof.
  intros Hnd Hk.
  rewrite (exec_dispose_effect e fuel st nd _ _ _ _ Hnd Hk).
  assert (Hnow : disposed = true → is_disposed e st).
  { intros ->. unfold is_disposed. rewrite Hnd. simpl.
    unfold disposed_effect. by rewrite Hk. }
  unfold void, Effect_dispose. destruct disposed.
  - by split; [apply Hnow|].
  - change ((bind (bind (modify (set_disposed e))
                     (λ _, run_cleanup (exec fuel) e cleanup ;;
                           modify (base_dispose e)))
                  (λ _, ret VUndefined)) st)
      with (((run_cleanup (exec fuel) e cleanup ;;
              modify (base_dispose e)) ;; ret VUndefined)
              (set_disposed e st)).
    assert (H1 : is_disposed e (set_disposed e st)).
    { unfold is_disposed, set_disposed.
      rewrite ReactiveFacts.lookup_update_node, decide_True by done.
      rewrite Hnd. unfold disposed_effect. simpl. by rewrite Hk. }
    assert (Hq : Quiet e
              ((run_cleanup (exec fuel) e cleanup ;;
                modify (base_dispose e)) ;; ret VUndefined)).
    { apply Quiet_bind; [|intros _; apply Quiet_ret].
      apply Quiet_dispose_rest. intros c. apply Quiet_exec. }
    destruct (Hq (set_disposed e st) H1) as [Hd Hr]. split; [done|].
    rewrite Hr. done.
Qed.

(** *** What holds of every call *)

Definition is_effect (n : nat) (st : state) : bool :=
  match heap st !! n with
  | Some nd =>
      match kind nd with EffectNode _ _ _ _ => true | _ => false end
  | None => false
  end.

Definition is_computed (n : nat) (st : state) : bool :=
  match heap st !! n with
  | Some nd =>
      match kind nd with ComputedNode _ _ _ => true | _ => false end
  | None => false
  end.

Definition is_signal (n : nat) (st : state) : bool :=
  match heap st !! n with
  | Some nd => match kind nd with SignalNode _ => true | _ => false end
  | None => false
  end.

(** A sequence of calls, each with its fuel, run one after the other
    whatever their outcomes. *)
Definition run_calls (calls : list (nat * call)) (st : state) : state :=
  foldl (λ s fc, (exec fc.1 fc.2 s).1) st calls.

(** [s = signal(1)], [c = computed(() => { s.get(); throw 0 })], then
    [batch(() => c.get())]: the throw crosses [recompute] and [batch]. *)
Definition throwing_read : prog :=
  NewSignal (VNum 1) (λ s,
  NewComputed (Get s (λ _, Throw (VNum 0))) (λ c,
  Batch (Get c Ret) Ret)).

(** X1. Exception safety of the observer bookkeeping: a call into the
    reactive module that returns or throws leaves [currentObserver],
    [observerStack] and [batchDepth] exactly as it found them, whatever
    client code ran in between ([recompute], [run], [untrack] and
    [batch] restore them in their [finally] blocks). *)
Theorem call_restores_observer_and_depth fuel c st :
  (exec fuel c st).2 ≠ OutOfFuel →
  currentObserver (exec fuel c st).1 = currentObserver st
  ∧ observerStack (exec fuel c st).1 = observerStack st
  ∧ batchDepth (exec fuel c st).1 = batchDepth st.
Proof.
  intros Hend. destruct (proj1 (Restores_exec fuel) c st Hend) as [HF _].
  unfold frame in HF. by injection HF as -> -> ->.
Qed.

Lemma call_restores_observer_and_depth_witness :
  (Scenario.run 64 throwing_read).2 = Thrown (ErrUser (VNum 0))
  ∧ currentObserver (Scenario.run 64 throwing_read).1 = None
  ∧ observerStack (Scenario.run 64 throwing_read).1 = []
  ∧ batchDepth (Scenario.run 64 throwing_read).1 = 0%Z.
Proof.
  split; [by vm_compute|].
  apply (call_restores_observer_and_depth 64 (CProg throwing_read) initial).
  by vm_compute.
Defined.

(** [s = signal(1)], an effect reading [s], then
    [batch(() => { s.set(2); throw 0 })]. *)
Definition throwing_batch : prog :=
  Scenario.watched (VNum 1) (λ s _,
    Batch (SetSig s (VNum 2) (Throw (VNum 0))) Ret).

(** X2. No write stays pending outside a batch: if a call starts with
    [batchDepth] zero and [batchedSignals] empty, then when it returns
    or throws [batchDepth] is zero and [batchedSignals] is empty again;
    the exit of the outermost [batch] has flushed, also when the batch
    body threw. *)
Theorem outermost_batch_exit_flushes fuel c st :
  batchDepth st = 0%Z →
  batchedSignals st = [] →
  (exec fuel c st).2 ≠ OutOfFuel →
  batchDepth (exec fuel c st).1 = 0%Z
  ∧ batchedSignals (exec fuel c st).1 = [].
Proof.
  intros Hd Hb Hend.
  destruct (proj1 (Restores_exec fuel) c st Hend) as [HF HS].
  assert (Hst : settled st) by (split; [lia|done]).
  destruct (HS Hst) as [_ Hempty].
  unfold frame in HF. injection HF as _ _ Hdepth.
  split; [congruence|]. apply Hempty. congruence.
Qed.

Lemma outermost_batch_exit_flushes_witness :
  (Scenario.run 64 throwing_batch).2 = Thrown (ErrUser (VNum 0))
  ∧ effect_runs 1 (Scenario.run 64 throwing_batch).1 = 2
  ∧ batchDepth (Scenario.run 64 throwing_batch).1 = 0%Z
  ∧ batchedSignals (Scenario.run 64 throwing_batch).1 = [].
Proof.
  split; [by vm_compute|]. split; [by vm_compute|].
  apply (outermost_batch_exit_flushes 64 (CProg throwing_batch) initial);
    by vm_compute.
Defined.

Lemma Quiet_run_calls e calls st :
  is_disposed e st →
  is_disposed e (run_calls calls st)
  ∧ effect_runs e (run_calls calls st) = effect_runs e st.
Proof.
  revert st. induction calls as [|[fuel c] calls IH]; intros st Hd; [done|].
  simpl. destruct (Quiet_exec e fuel c st Hd) as [Hd' Hr].
  destruct (IH _ Hd') as [Hd'' Hr']. split; [done|congruence].
Qed.

(** X3. A disposed effect never runs again: once [dispose()] has been
    called on an effect, however that call ended, the effect body is
    invoked neither by the [dispose()] call itself nor by any sequence
    of later calls into the module (writes to its former dependencies,
    flushes, reads, further disposals). *)
Theorem disposed_effect_never_runs e fuel calls st :
  is_effect e st = true →
  effect_runs e (run_calls calls (exec (S fuel) (CDispose e) st).1)
  = effect_runs e st.
Proof.
  unfold is_effect. intros He.
  destruct (heap st !! e) as [nd|] eqn:Hnd; [|done].
  destruct (kind nd) as [| |cleanup disposed effect cleanupOf] eqn:Hk;
    try done.
  destruct (dispose_disposes e fuel st nd _ _ _ _ Hnd Hk) as [Hd Hr].
  destruct (Quiet_run_calls e calls _ Hd) as [_ Hr']. congruence.
Qed.

Lemma disposed_effect_never_runs_witness :
  let st := (Scenario.run 64
               (Scenario.watched (VNum 1) (λ _ _, Scenario.done))).1 in
  effect_runs 1 st = 1
  ∧ effect_runs 1 (run_calls [(64, CSet 0 (VNum 2))] st) = 2
  ∧ effect_runs 1
      (run_calls [(64, CSet 0 (VNum 2)); (64, CSet 0 (VNum 3))]
         (exec 64 (CDispose 1) st).1)
    = effect_runs 1 st.
Proof.
  intros st. split; [by vm_compute|]. split; [by vm_compute|].
  apply (disposed_effect_never_runs 1 63
           [(64, CSet 0 (VNum 2)); (64, CSet 0 (VNum 3))] st).
  by vm_compute.
Defined.

(** *** Reads *)

Lemma bind_Normal {A B} (m : M A) (f : A → M B) st st' b :
  bind m f st = (st', Normal b) →
  ∃ a st1, m st = (st1, Normal a) ∧ f a st1 = (st', Normal b).
Proof.
  unfold bind. destruct (m st) as [st1 [a|x|]]; [|done|done].
  intros H. by exists a, st1.
Qed.

Lemma defined_Normal v st st' r :
  defined v st = (st', Normal r) → r = v ∧ v ≠ VUndefined.
Proof. destruct v; simpl; unfold ret, throw; by intros [= <- <-]. Qed.

Lemma exec_get_computed n fuel st nd v computed compute :
  heap st !! n = Some nd →
  kind nd = ComputedNode v computed compute →
  exec (S fuel) (CGet n) st = Computed_get (exec fuel) n nd computed st.
Proof.
  intros Hnd Hk. cbn [exec dispatch].
  unfold bind at 1, lookup_node. rewrite Hnd. cbv beta iota.
  by rewrite Hk.
Qed.

Lemma exec_peek_computed n fuel st nd v computed compute :
  heap st !! n = Some nd →
  kind nd = ComputedNode v computed compute →
  exec (S fuel) (CPeek n) st = Computed_peek (exec fuel) n computed st.
Proof.
  intros Hnd Hk. cbn [exec dispatch].
  unfold bind at 1, lookup_node. rewrite Hnd. cbv beta iota.
  by rewrite Hk.
Qed.

(** X4. A computed never yields [undefined]: when [get()] or [peek()]
    of a computed returns, the value returned is not [undefined] (a
    computed whose function returns [undefined] throws 'Computed value
    is undefined' from both instead). *)
Theorem computed_read_is_defined fuel n st st' v :
  is_computed n st = true →
  exec fuel (CGet n) st = (st', Normal v)
  ∨ exec fuel (CPeek n) st = (st', Normal v) →
  v ≠ VUndefined.
Proof.
  unfold is_computed. intros Hc.
  destruct (heap st !! n) as [nd|] eqn:Hnd; [|done].
  destruct (kind nd) as [|v0 computed compute|] eqn:Hk; try done.
  destruct fuel as [|fuel]; [by intros [|]|].
  rewrite (exec_get_computed n fuel st nd _ _ _ Hnd Hk),
    (exec_peek_computed n fuel st nd _ _ _ Hnd Hk).
  unfold Computed_get, Computed_peek. intros [H|H].
  - apply bind_Normal in H as (_ & st1 & _ & H).
    apply bind_Normal in H as (_ & st2 & _ & H).
    apply bind_Normal in H as (v1 & st3 & _ & H).
    by apply defined_Normal in H as [-> ?].
  - apply bind_Normal in H as (_ & st1 & _ & H).
    apply bind_Normal in H as (v1 & st3 & _ & H).
    by apply defined_Normal in H as [-> ?].
Qed.

(** [computed(() => 3)], then [computed(() => undefined)]. *)
Definition two_computeds : prog :=
  NewComputed (Ret (VNum 3)) (λ _,
  NewComputed (Ret VUndefined) (λ _, Scenario.done)).

Lemma computed_read_is_defined_witness :
  let st := (Scenario.run 64 two_computeds).1 in
  (exec 8 (CGet 1) st).2 = Thrown ErrComputedUndefined
  ∧ (exec 8 (CPeek 1) st).2 = Thrown ErrComputedUndefined
  ∧ VNum 3 ≠ VUndefined.
Proof.
  intros st. split; [by vm_compute|]. split; [by vm_compute|].
  apply (computed_read_is_defined 8 0 st (exec 8 (CGet 0) st).1 (VNum 3));
    [by vm_compute|left; by vm_compute].
Defined.

Lemma restore_observer st :
  with_observer (currentObserver st) (with_observer None st) = st.
Proof. by destruct st. Qed.

(** X5. An untracked read subscribes nobody: for a signal,
    [untrack(() => s.get())] returns the value held and leaves the
    whole state, the dependency graph included, unchanged, whoever the
    current observer is; it is [s.peek()]. *)
Theorem untracked_get_is_peek fuel n st :
  is_signal n st = true →
  exec (3 + fuel) (CProg (Untrack (Get n Ret) Ret)) st
  = exec (3 + fuel) (CProg (Peek n Ret)) st
  ∧ (exec (3 + fuel) (CProg (Peek n Ret)) st).1 = st
  ∧ (exec (3 + fuel) (CProg (Peek n Ret)) st).2
    = from_option Normal (Thrown ErrType) (Scenario.held n st).
Proof.
  unfold is_signal, Scenario.held. intros Hs.
  destruct (heap st !! n) as [nd|] eqn:Hnd; [|done].
  destruct (kind nd) as [v| |] eqn:Hk; try done.
  assert (Hpeek : exec (3 + fuel) (CProg (Peek n Ret)) st = (st, Normal v)).
  { cbn [Nat.add exec dispatch run_prog].
    unfold bind at 1 2, lookup_node. rewrite Hnd. cbv beta iota.
    by rewrite Hk. }
  rewrite Hpeek. split; [|done].
  cbn [Nat.add exec dispatch run_prog].
  unfold untrack, bind at 1 2 3, gets, modify, finally. cbn [fst snd].
  unfold bind at 1 2, lookup_node.
  change (heap (with_observer None st)) with (heap st).
  rewrite Hnd. cbv beta iota. rewrite Hk.
  unfold Signal_get, bind at 1, track. cbn.
  by rewrite restore_observer.
Qed.

Lemma untracked_get_is_peek_witness :
  let st := (Scenario.run 64
               (Scenario.watched (VNum 5) (λ _ _, Scenario.done))).1 in
  let observed := with_observer (Some 1) st in
  (exec 3 (CProg (Untrack (Get 0 Ret) Ret)) observed)
  = (observed, Normal (VNum 5)).
Proof.
  intros st observed.
  destruct (untracked_get_is_peek 0 0 observed eq_refl) as (H1 & H2 & H3).
  change (3 + 0) with 3 in *. rewrite H1. apply injective_projections; [exact H2|exact H3].
Defined.

End ReactiveSafety.

(** ** The order the scheduler computes *)

Module SchedulerOrder.
Import JsSetFacts JsMapFacts SchedulerFacts.
Import SystemScheduler.


Lemma snoc_split {A} (l1 l2 l : list A) (s x : A) :
  l1 ++ s :: l2 = l ++ [x] →
  (l2 = [] ∧ l1 = l ∧ s = x) ∨ ∃ l2', l2 = l2' ++ [x] ∧ l = l1 ++ s :: l2'.
Proof.
  destruct l2 as [|y l2' _] using rev_ind.
  - intros H. left. change (l1 ++ [s] = l ++ [x]) in H.
    apply app_inj_tail in H as [-> ->]. done.
  - intros H. right. exists l2'.
    change (l1 ++ (s :: l2') ++ [y] = l ++ [x]) in H.
    rewrite app_assoc in H. apply app_inj_tail in H as [<- ->]. done.
Qed.

(** *** Systems constrained by [runAfter] only *)

Section Ranked.
Variable systemMap : list (SystemId * System.t).
Hypothesis keyed : ∀ k s, JsMap.get k systemMap = Some s → System.id s = k.
Variable rank : SystemId → nat.
Hypothesis no_before :
  ∀ k s, JsMap.get k systemMap = Some s → System.runBefore s = [].
Hypothesis ranked :
  ∀ k s a, JsMap.get k systemMap = Some s → a ∈ System.runAfter s →
           a ∈ JsMap.keys systemMap → rank a < rank k.

(** Every system placed so far comes after the systems it runs
    after. *)
Definition closed (m : marks) : Prop :=
  ∀ l1 s l2, sorted m = l1 ++ s :: l2 →
    ∀ a, a ∈ System.runAfter s → a ∈ JsMap.keys systemMap →
         a ∈ System.id <$> l1.

Definition members (m : marks) : Prop :=
  ∀ s, s ∈ sorted m → JsMap.get (System.id s) systemMap = Some s.

Record grows (m m' : marks) : Prop := mkGrows {
  g_ok : marks_ok systemMap m';
  g_visiting : visiting m' = visiting m;
  g_closed : closed m';
  g_members : members m';
  g_mono : ∀ x, x ∈ visited m → x ∈ visited m'
}.

Definition ranked_spec (fuel : nat)
    (visit : System.t → marks → result marks) : Prop :=
  ∀ system m,
    JsMap.get (System.id system) systemMap = Some system →
    marks_ok systemMap m → closed m → members m →
    length (JsMap.keys systemMap) < fuel + length (visiting m) →
    (∀ x, x ∈ visiting m → rank (System.id system) < rank x) →
    ∃ m', visit system m = Returns m' ∧ grows m m'
          ∧ System.id system ∈ visited m'.

Lemma grows_refl m :
  marks_ok systemMap m → closed m → members m → grows m m.
Proof. by split. Qed.

Lemma grows_trans m1 m2 m3 : grows m1 m2 → grows m2 m3 → grows m1 m3.
Proof.
  intros [A1 A2 A3 A4 A5] [B1 B2 B3 B4 B5]. split; try done.
  - congruence.
  - intros x Hx. by apply B5, A5.
Qed.

Lemma ranked_after fuel visit afterIds m :
  ranked_spec fuel visit →
  marks_ok systemMap m → closed m → members m →
  length (JsMap.keys systemMap) < fuel + length (visiting m) →
  (∀ a x, a ∈ afterIds → a ∈ JsMap.keys systemMap → x ∈ visiting m →
          rank a < rank x) →
  ∃ m', visit_after visit systemMap afterIds m = Returns m' ∧ grows m m'
        ∧ ∀ a, a ∈ afterIds → a ∈ JsMap.keys systemMap → a ∈ visited m'.
Proof.
  intros Hvisit. revert m.
  induction afterIds as [|a rest IH]; intros m Hm Hc Hmem Hfuel Hrank; simpl.
  - exists m. split; [done|]. split; [by apply grows_refl|].
    by intros a ?%elem_of_nil.
  - destruct (JsMap.get a systemMap) as [s|] eqn:Ea.
    + assert (Hid : System.id s = a) by (by apply keyed).
      assert (Hs : JsMap.get (System.id s) systemMap = Some s)
        by (by rewrite Hid).
      assert (Ha : a ∈ JsMap.keys systemMap)
        by (apply elem_of_keys; by eauto).
      destruct (Hvisit s m Hs Hm Hc Hmem Hfuel) as (m1 & E1 & G1 & V1).
      { intros x Hx. rewrite Hid. apply Hrank; [apply list_elem_of_here|done..]. }
      rewrite E1.
      destruct (IH m1) as (m2 & E2 & G2 & V2);
        [apply G1..| | |].
      { by rewrite (g_visiting _ _ G1). }
      { intros b x Hb Hkb Hx. rewrite (g_visiting _ _ G1) in Hx.
        apply Hrank; [by apply list_elem_of_further|done..]. }
      exists m2. split; [done|]. split; [by eapply grows_trans|].
      intros b [->|Hb]%elem_of_cons Hkb; [|by apply V2].
      apply (g_mono _ _ G2). by rewrite <-Hid.
    + destruct (IH m Hm Hc Hmem Hfuel) as (m2 & E2 & G2 & V2).
      { intros b x Hb Hkb Hx.
        apply Hrank; [by apply list_elem_of_further|done..]. }
      exists m2. split; [done|]. split; [done|].
      intros b [->|Hb]%elem_of_cons Hkb; [|by apply V2].
      apply elem_of_keys in Hkb as [? Hkb]. congruence.
Qed.

Lemma ranked_visit fuel : ranked_spec fuel (visit fuel systemMap).
Proof.
  induction fuel as [|fuel IH];
    intros system m Hget Hm Hc Hmem Hfuel Hrank.
  - pose proof (length_visiting_bound systemMap m Hm). lia.
  - assert (Hsys : System.id system ∈ JsMap.keys systemMap)
      by (apply elem_of_keys; by eauto).
    pose proof (visit_meets_spec systemMap keyed (S fuel) system m
                  Hsys Hm Hfuel) as Hpost.
    simpl in Hpost |- *.
    unfold JsSet.has at 1 2 in Hpost. unfold JsSet.has at 1 2.
    case_bool_decide as Hvisited.
    { exists m. split; [done|]. split; [by apply grows_refl|done]. }
    case_bool_decide as Hvisiting.
    { specialize (Hrank _ Hvisiting). lia. }
    set (m1 := {| sorted := sorted m; visited := visited m;
                  visiting := JsSet.add (System.id system) (visiting m) |})
      in *.
    assert (Hvis1 : visiting m1 = visiting m ++ [System.id system])
      by (by apply add_fresh).
    assert (Hm1 : marks_ok systemMap m1).
    { destruct Hm as [H1 H2 H3 H4 H5]. split; simpl; try done.
      - by apply NoDup_add.
      - intros x [->|Hx]%elem_of_add; [done|by apply H4].
      - intros x [->|Hx]%elem_of_add; [done|by apply H5]. }
    destruct (ranked_after fuel (visit fuel systemMap)
                (System.runAfter system) m1 IH Hm1 Hc Hmem)
      as (m2 & E2 & G2 & V2).
    { rewrite Hvis1, length_app. simpl. lia. }
    { intros a x Ha Hka [->|Hx]%elem_of_add.
      - by eapply ranked.
      - specialize (Hrank x Hx).
        pose proof (ranked _ _ a Hget Ha Hka). lia. }
    rewrite E2 in Hpost |- *.
    rewrite (no_before _ _ Hget) in Hpost |- *. simpl in Hpost |- *.
    eexists. split; [done|]. destruct Hpost as [Hok Hv].
    destruct G2 as [B1 B2 B3 B4 B5].
    split; [split|]; simpl; try done.
    + intros l1 s l2 Hl a Ha Hka. simpl in Hl. symmetry in Hl.
      apply snoc_split in Hl as [(-> & -> & ->)|(l2' & -> & Hl)].
      * rewrite (ok_sorted _ _ B1). by apply V2.
      * by apply (B3 l1 s l2').
    + intros s [Hs|Hs]%elem_of_app; [by apply B4|].
      by apply list_elem_of_singleton in Hs as ->.
    + intros x Hx. apply elem_of_add. right. by apply B5.
    + apply elem_of_add. by left.
Qed.

Lemma ranked_all fuel l m :
  (∀ s, s ∈ l → JsMap.get (System.id s) systemMap = Some s) →
  marks_ok systemMap m → closed m → members m →
  visiting m = [] →
  length (JsMap.keys systemMap) < fuel →
  ∃ m', visit_all (visit fuel systemMap) l m = Returns m' ∧ grows m m'
        ∧ ∀ s, s ∈ l → System.id s ∈ visited m'.
Proof.
  revert m. induction l as [|s l IH];
    intros m Hl Hm Hc Hmem Hv Hfuel; simpl.
  - exists m. split; [done|]. split; [by apply grows_refl|].
    by intros s ?%elem_of_nil.
  - destruct (ranked_visit fuel s m) as (m1 & E1 & G1 & V1); try done.
    { apply Hl, list_elem_of_here. }
    { rewrite Hv. simpl. lia. }
    { rewrite Hv. by intros x ?%elem_of_nil. }
    rewrite E1.
    destruct (IH m1) as (m2 & E2 & G2 & V2); [|apply G1..| |done|].
    { intros x Hx. by apply Hl, list_elem_of_further. }
    { by rewrite (g_visiting _ _ G1). }
    exists m2. split; [done|]. split; [by eapply grows_trans|].
    intros x [->|Hx]%elem_of_cons; [|by apply V2].
    by apply (g_mono _ _ G2).
Qed.
End Ranked.

Lemma get_foldl_set (systems : list System.t) acc k s :
  NoDup (System.id <$> systems) →
  JsMap.get k (foldl (λ acc s, JsMap.set (System.id s) s acc) acc systems)
  = Some s
  ↔ (s ∈ systems ∧ System.id s = k)
    ∨ ((k ∉ System.id <$> systems) ∧ JsMap.get k acc = Some s).
Proof.
  revert acc. induction systems as [|x l IH]; intros acc Hnd.
  - simpl. split; [intros H; right; split; [by intros ?%elem_of_nil|done]|].
    intros [[[]%elem_of_nil _]|[_ H]]. done.
  - rewrite fmap_cons in Hnd |- *. cbn [foldl].
    apply NoDup_cons in Hnd as [Hx Hnd]. rewrite (IH _ Hnd), get_set.
    rewrite not_elem_of_cons, !elem_of_cons.
    assert (Hfresh : ∀ t, t ∈ l → System.id t ≠ System.id x).
    { intros t Ht Heq. apply Hx. rewrite <-Heq.
      by apply list_elem_of_fmap_2. }
    destruct (decide (k = System.id x)) as [->|Hne].
    + split.
      * intros [[Hs Hid]|[_ [= <-]]]; [by destruct (Hfresh s Hs)|].
        left. by split; [left|].
      * intros [[[->|Hs] Hid]|[[Hk _] _]]; [|by destruct (Hfresh s Hs)|done].
        right. done.
    + split.
      * intros [[Hs Hid]|[Hk Hg]]; [left; by split; [right|]|by right].
      * intros [[[->|Hs] Hid]|[[_ Hk] Hg]];
          [done|left; by split|by right].
Qed.

Lemma get_index_by_id systems k s :
  NoDup (System.id <$> systems) →
  JsMap.get k (index_by_id systems) = Some s
  ↔ s ∈ systems ∧ System.id s = k.
Proof.
  intros Hnd. unfold index_by_id. rewrite get_foldl_set by done.
  split; [intros [H|[_ H]]; done|by left].
Qed.

Lemma same_id (l : list System.t) s t :
  NoDup (System.id <$> l) → s ∈ l → t ∈ l → System.id s = System.id t →
  s = t.
Proof.
  induction l as [|x l IH]; [by intros _ ?%elem_of_nil|].
  rewrite fmap_cons. intros [Hx Hnd]%NoDup_cons.
  intros [->|Hs]%elem_of_cons [->|Ht]%elem_of_cons Heq; try done.
  - destruct Hx. rewrite Heq. by apply list_elem_of_fmap_2.
  - destruct Hx. rewrite <-Heq. by apply list_elem_of_fmap_2.
  - by apply IH.
Qed.

Lemma NoDup_fmap_id (l : list System.t) :
  NoDup (System.id <$> l) → NoDup l.
Proof. apply NoDup_fmap_1. Qed.

(** X6. With systems constrained by [runAfter] only (none declares
    [runBefore]) and no cycle among those constraints (a ranking
    decreases along them), [topologicalSort] returns, its result holds
    every system exactly once, and every system comes after each
    system of the list that it declares in [runAfter]. *)
Theorem runAfter_only_order_is_topological
    (systems : list System.t) (rank : SystemId → nat) :
  NoDup (System.id <$> systems) →
  (∀ s, s ∈ systems → System.runBefore s = []) →
  (∀ s t, s ∈ systems → t ∈ systems →
          System.id t ∈ System.runAfter s →
          rank (System.id t) < rank (System.id s)) →
  ∃ l, topologicalSort systems = Returns l
       ∧ l ≡ₚ systems
       ∧ ∀ l1 s l2, l = l1 ++ s :: l2 →
           ∀ t, t ∈ systems → System.id t ∈ System.runAfter s → t ∈ l1.
Proof.
  intros Hnd Hnb Hrank. unfold topologicalSort.
  change (foldl (λ acc s, JsMap.set (System.id s) s acc) [] systems)
    with (index_by_id systems).
  set (M := index_by_id systems).
  assert (HM : ∀ k s, JsMap.get k M = Some s ↔ s ∈ systems ∧ System.id s = k)
    by (intros k s; by apply get_index_by_id).
  assert (Hkeyed : ∀ k s, JsMap.get k M = Some s → System.id s = k)
    by (intros k s H; by apply HM).
  assert (Hkeys : ∀ k, k ∈ JsMap.keys M → ∃ t, t ∈ systems ∧ System.id t = k).
  { intros k [t Ht]%elem_of_keys. exists t. by apply HM. }
  destruct (index_by_id_spec systems []) as (_ & _ & _ & Hlen); [done|].
  simpl in Hlen. fold (index_by_id systems) in Hlen. fold M in Hlen.
  destruct (ranked_all M Hkeyed rank) with
    (fuel := S (length systems)) (l := byPriority systems)
    (m := {| sorted := []; visited := []; visiting := [] |})
    as (m' & E & G & V).
  - intros k s Hs. apply Hnb. by destruct (proj1 (HM k s) Hs).
  - intros k s a Hs Ha [t [Ht <-]]%Hkeys.
    destruct (proj1 (HM k s) Hs) as [Hs' <-]. by apply Hrank.
  - intros s Hs. apply (proj1 (elem_of_byPriority s systems)) in Hs.
    apply (HM (System.id s) s). by split.
  - split; simpl; try done; try apply NoDup_nil_2;
      by intros x ?%elem_of_nil.
  - intros l1 s l2 Hl. simpl in Hl. by destruct l1.
  - by intros s ?%elem_of_nil.
  - done.
  - lia.
  - rewrite E. exists (sorted m'). split; [done|].
    destruct G as [G1 _ G3 G4 _].
    assert (Hids : System.id <$> sorted m' = visited m')
      by apply (ok_sorted _ _ G1).
    split.
    + apply NoDup_Permutation.
      * apply NoDup_fmap_id. rewrite Hids. apply (ok_visited _ _ G1).
      * by apply NoDup_fmap_id.
      * intros s. split.
        -- intros Hs. by apply (HM (System.id s)), G4.
        -- intros Hs.
           assert (Hv : System.id s ∈ System.id <$> sorted m').
           { rewrite Hids. apply V.
             by apply (proj2 (elem_of_byPriority s systems)). }
           apply list_elem_of_fmap in Hv as (s' & Heq & Hs').
           pose proof (G4 s' Hs') as Hg. apply HM in Hg as [Hs'' _].
           by rewrite (same_id systems s s').
    + intros l1 s l2 Hl t Ht Hta.
      assert (Hin : System.id t ∈ System.id <$> l1).
      { apply (G3 l1 s l2 Hl); [done|].
        apply elem_of_keys. exists t. by apply HM. }
      apply list_elem_of_fmap in Hin as (t' & Heq & Ht').
      assert (Ht'' : t' ∈ systems).
      { apply (HM (System.id t')), G4. rewrite Hl.
        apply elem_of_app. by left. }
      by rewrite (same_id systems t t').
Qed.

Lemma runAfter_only_order_is_topological_witness :
  ∃ l, topologicalSort [Scenario.system "X" 5 [] ["Y"%string];
                        Scenario.system "Y" 0 [] []] = Returns l
       ∧ l ≡ₚ [Scenario.system "X" 5 [] ["Y"%string];
               Scenario.system "Y" 0 [] []]
       ∧ ∀ l1 s l2, l = l1 ++ s :: l2 →
           ∀ t, t ∈ [Scenario.system "X" 5 [] ["Y"%string];
                     Scenario.system "Y" 0 [] []] →
                System.id t ∈ System.runAfter s → t ∈ l1.
Proof.
  apply (runAfter_only_order_is_topological
           [Scenario.system "X" 5 [] ["Y"%string];
            Scenario.system "Y" 0 [] []]
           (λ i, if String.eqb i "X" then 1 else 0)).
  - apply (bool_decide_unpack _). by vm_compute.
  - intros s Hs. repeat (apply elem_of_cons in Hs as [->|Hs]);
      [reflexivity..|by apply elem_of_nil in Hs].
  - intros s t Hs Ht.
    repeat (apply elem_of_cons in Hs as [->|Hs]);
      [| |by apply elem_of_nil in Hs];
      (repeat (apply elem_of_cons in Ht as [->|Ht]);
         [| |by apply elem_of_nil in Ht]);
      simpl; intros Hin;
      repeat (apply elem_of_cons in Hin as [Hin|Hin]; [discriminate Hin|]);
      try (by apply elem_of_nil in Hin); try lia.
Defined.

(** *** Systems under no constraint *)

Definition by_descending_priority (a b : System.t) : Prop :=
  (System.priority b ≤ System.priority a)%Z.

Lemma insert_by_priority_perm x l : insert_by_priority x l ≡ₚ x :: l.
Proof.
  induction l as [|y l IH]; simpl; [done|].
  destruct (System.priority y <? System.priority x)%Z; [done|].
  rewrite IH. apply Permutation_swap.
Qed.

Lemma foldl_insert_perm l acc :
  foldl (λ acc x, insert_by_priority x acc) acc l ≡ₚ acc ++ l.
Proof.
  revert acc. induction l as [|x l IH]; intros acc; simpl.
  - by rewrite app_nil_r.
  - rewrite IH, insert_by_priority_perm.
    by rewrite <-Permutation_middle.
Qed.

Lemma byPriority_perm l : byPriority l ≡ₚ l.
Proof. unfold byPriority. by rewrite foldl_insert_perm. Qed.

Lemma insert_by_priority_sorted x l :
  StronglySorted by_descending_priority l →
  StronglySorted by_descending_priority (insert_by_priority x l).
Proof.
  induction 1 as [|y l Hl IH Hy]; simpl.
  - constructor; [constructor|constructor].
  - destruct (System.priority y <? System.priority x)%Z eqn:E.
    + apply Z.ltb_lt in E. constructor; [by constructor|].
      constructor; [unfold by_descending_priority; lia|].
      eapply Forall_impl; [exact Hy|].
      unfold by_descending_priority. intros z Hz. simpl in *. lia.
    + apply Z.ltb_ge in E. constructor; [done|].
      rewrite insert_by_priority_perm. by constructor.
Qed.

Lemma foldl_insert_sorted l acc :
  StronglySorted by_descending_priority acc →
  StronglySorted by_descending_priority
    (foldl (λ acc x, insert_by_priority x acc) acc l).
Proof.
  revert acc. induction l as [|x l IH]; intros acc Hacc; simpl; [done|].
  by apply IH, insert_by_priority_sorted.
Qed.

(** A system goes in behind those of its own priority. *)
Lemma filter_insert_by_priority (p : Z) x l :
  StronglySorted by_descending_priority l →
  filter (λ s, System.priority s = p) (insert_by_priority x l)
  = filter (λ s, System.priority s = p) l
    ++ (if decide (System.priority x = p) then [x] else []).
Proof.
  induction 1 as [|y l Hl IH Hy]; simpl.
  - rewrite filter_cons, filter_nil. by destruct (decide _).
  - destruct (System.priority y <? System.priority x)%Z eqn:E.
    + apply Z.ltb_lt in E. rewrite filter_cons.
      destruct (decide (System.priority x = p)) as [Hp|Hp];
        [|by rewrite app_nil_r].
      rewrite (QueryFacts.filter_none _ (y :: l)); [done|].
      intros z [->|Hz]%elem_of_cons; [lia|].
      rewrite Forall_forall in Hy. specialize (Hy z Hz).
      unfold by_descending_priority in Hy. lia.
    + rewrite !(filter_cons _ y), IH.
      by destruct (decide (System.priority y = p)).
Qed.

Lemma filter_foldl_insert (p : Z) l acc :
  StronglySorted by_descending_priority acc →
  filter (λ s, System.priority s = p)
         (foldl (λ acc x, insert_by_priority x acc) acc l)
  = filter (λ s, System.priority s = p) acc
    ++ filter (λ s, System.priority s = p) l.
Proof.
  revert acc. induction l as [|x l IH]; intros acc Hacc; simpl.
  - by rewrite filter_nil, app_nil_r.
  - rewrite IH by (by apply insert_by_priority_sorted).
    rewrite filter_insert_by_priority by done.
    rewrite filter_cons, <-app_assoc.
    by destruct (decide (System.priority x = p)).
Qed.

Lemma visit_unconstrained fuel systemMap system m :
  System.runAfter system = [] → System.runBefore system = [] →
  System.id system ∉ visited m → visiting m = [] →
  visit (S fuel) systemMap system m
  = Returns {| sorted := sorted m ++ [system];
               visited := visited m ++ [System.id system];
               visiting := [] |}.
Proof.
  intros Ha Hb Hfresh Hv. simpl. unfold JsSet.has.
  rewrite bool_decide_eq_false_2 by done.
  rewrite Hv, bool_decide_eq_false_2 by (by intros ?%elem_of_nil).
  rewrite Ha, Hb. simpl.
  rewrite (delete_add_fresh _ []) by (by intros ?%elem_of_nil).
  by rewrite add_fresh.
Qed.

Lemma visit_all_unconstrained fuel systemMap l m :
  (∀ s, s ∈ l → System.runAfter s = [] ∧ System.runBefore s = []) →
  NoDup (visited m ++ (System.id <$> l)) → visiting m = [] →
  visit_all (visit (S fuel) systemMap) l m
  = Returns {| sorted := sorted m ++ l;
               visited := visited m ++ (System.id <$> l);
               visiting := [] |}.
Proof.
  revert m. induction l as [|s l IH]; intros m Hl Hnd Hv.
  - simpl. rewrite !app_nil_r. destruct m; simpl in *. by subst.
  - cbn [visit_all]. rewrite fmap_cons in Hnd |- *.
    destruct (Hl s (list_elem_of_here _ _)) as [Ha Hb].
    rewrite visit_unconstrained; try done.
    + rewrite IH; simpl.
      * by rewrite <-!app_assoc.
      * intros x Hx. by apply Hl, list_elem_of_further.
      * by rewrite <-app_assoc.
      * done.
    + apply NoDup_app in Hnd as (_ & Hd & _). intros Hin.
      apply (Hd _ Hin), list_elem_of_here.
Qed.

(** X7. With no [runAfter] and no [runBefore] among the systems,
    [topologicalSort] returns the stable sort by descending priority:
    every system once, priorities never increasing along the order,
    and systems of equal priority in the order they were given
    (registration order). *)
Theorem unconstrained_order_is_stable_by_priority (systems : list System.t) :
  NoDup (System.id <$> systems) →
  (∀ s, s ∈ systems → System.runAfter s = [] ∧ System.runBefore s = []) →
  topologicalSort systems = Returns (byPriority systems)
  ∧ byPriority systems ≡ₚ systems
  ∧ StronglySorted by_descending_priority (byPriority systems)
  ∧ ∀ p, filter (λ s, System.priority s = p) (byPriority systems)
         = filter (λ s, System.priority s = p) systems.
Proof.
  intros Hnd Hfree. split_and!.
  - unfold topologicalSort.
    rewrite visit_all_unconstrained; [done| | |done].
    + intros s Hs. apply Hfree.
      by apply (proj1 (elem_of_byPriority s systems)).
    + simpl. by rewrite byPriority_perm.
  - apply byPriority_perm.
  - apply foldl_insert_sorted. constructor.
  - intros p. unfold byPriority.
    rewrite filter_foldl_insert by constructor. by rewrite filter_nil.
Qed.

Lemma unconstrained_order_is_stable_by_priority_witness :
  topologicalSort [Scenario.system "a" 1 [] []; Scenario.system "b" 3 [] [];
                   Scenario.system "c" 1 [] []; Scenario.system "d" 3 [] []]
  = Returns [Scenario.system "b" 3 [] []; Scenario.system "d" 3 [] [];
             Scenario.system "a" 1 [] []; Scenario.system "c" 1 [] []].
Proof.
  refine (proj1 (unconstrained_order_is_stable_by_priority
                   [Scenario.system "a" 1 [] []; Scenario.system "b" 3 [] [];
                    Scenario.system "c" 1 [] []; Scenario.system "d" 3 [] []]
                   _ _)).
  - apply (bool_decide_unpack _). by vm_compute.
  - intros s Hs. repeat (apply elem_of_cons in Hs as [->|Hs]);
      [by split..|by apply elem_of_nil in Hs].
Defined.

(** *** A cycle anywhere stops every phase *)

Lemma order_phases_throws systems ps order p0 i :
  p0 ∈ ps →
  topologicalSort (filter (λ s, System.hasPhase p0 s = true) systems)
  = ThrowsCircular i →
  ∃ j order', order_phases systems ps order = (order', ThrowsCircular j).
Proof.
  intros Hin Hthrow. revert order.
  induction ps as [|p rest IH]; intros order; [by apply elem_of_nil in Hin|].
  simpl.
  pose proof (topologicalSort_spec
                (filter (λ s, System.hasPhase p s = true) systems)) as Hspec.
  destruct (topologicalSort
              (filter (λ s, System.hasPhase p s = true) systems))
    as [l|j|] eqn:E; [|by eauto|done].
  apply elem_of_cons in Hin as [->|Hin]; [congruence|]. by apply IH.
Qed.

Lemma elem_of_allPhases p : p ∈ allPhases.
Proof.
  unfold allPhases.
  destruct p; repeat first [apply list_elem_of_here|apply list_elem_of_further].
Qed.

(** X8. The order of every phase is recomputed at once, so a
    [runAfter] cycle among the systems of any one phase makes
    [executePhase] throw 'Circular dependency detected' for every
    phase: no system is called, the order stays dirty, and each later
    [executePhase] throws again until the systems change. *)
Theorem cycle_in_one_phase_stops_all p0 i p ctx h s :
  dirty s = true →
  topologicalSort
    (filter (λ x, System.hasPhase p0 x = true) (JsMap.values (systems s)))
  = ThrowsCircular i →
  ∃ j, (executePhase p ctx h s).2 = ThrowsCircular j
       ∧ systems (executePhase p ctx h s).1 = systems s
       ∧ calls (executePhase p ctx h s).1 = calls s
       ∧ phaseCalls (executePhase p ctx h s).1 = phaseCalls s
       ∧ dirty (executePhase p ctx h s).1 = true.
Proof.
  intros Hdirty Hthrow. rewrite executePhase_unfold, Hdirty.
  pose proof (recomputeExecutionOrder_spec s) as Hspec.
  destruct (order_phases_throws (JsMap.values (systems s)) allPhases []
              p0 i (elem_of_allPhases p0) Hthrow) as (j & order' & E).
  unfold recomputeExecutionOrder in *. rewrite E in Hspec |- *.
  simpl in Hspec |- *. destruct Hspec as (H1 & H2 & H3 & H4).
  exists j. by rewrite Hdirty.
Qed.

Lemma cycle_in_one_phase_stops_all_witness :
  let s := Scenario.scheduler_of
             [Scenario.system "Z" 0 [] ["Y"%string];
              Scenario.system "Y" 0 [] ["Z"%string];
              Scenario.quiet "Setup" SystemPhase.init] in
  ∃ j, (executePhase SystemPhase.init Scenario.tick None s).2
       = ThrowsCircular j
       ∧ systems (executePhase SystemPhase.init Scenario.tick None s).1
         = systems s
       ∧ calls (executePhase SystemPhase.init Scenario.tick None s).1
         = calls s
       ∧ phaseCalls (executePhase SystemPhase.init Scenario.tick None s).1
         = phaseCalls s
       ∧ dirty (executePhase SystemPhase.init Scenario.tick None s).1 = true.
Proof.
  intros s.
  apply (cycle_in_one_phase_stops_all SystemPhase.update "Z"
           SystemPhase.init Scenario.tick None s).
  - reflexivity.
  - by vm_compute.
Defined.

(** *** The only strategy acted upon is [DISABLE] *)

Lemma dispatch_handler_ext p ctx (h h' : SystemErrorHandler) i s :
  (∀ c, bool_decide (h c = Some DISABLE) = bool_decide (h' c = Some DISABLE)) →
  dispatch p ctx (Some h) i s = dispatch p ctx (Some h') i s.
Proof.
  intros Hh. unfold dispatch.
  destruct (JsMap.get i (systems s)) as [system|]; [|done].
  destruct (System.isEnabled system); [|done].
  destruct (System.run _ system) as [[system1 called] [error|]]; [|done].
  by rewrite Hh.
Qed.

(** X9. Of the strategies an error handler can return, only [DISABLE]
    has any effect: two phase-level handlers that return [DISABLE] on
    the same failures leave the scheduler in the same state after
    [executePhase]. In particular [RETRY] behaves as [IGNORE]: a
    failed system is not run again within the phase. *)
Theorem only_disable_is_acted_upon p ctx (h h' : SystemErrorHandler) s :
  (∀ c, bool_decide (h c = Some DISABLE) = bool_decide (h' c = Some DISABLE)) →
  executePhase p ctx (Some h) s = executePhase p ctx (Some h') s.
Proof.
  intros Hh. rewrite !executePhase_unfold.
  destruct (if dirty s then recomputeExecutionOrder s else (s, Returns tt))
    as [s1 [[]|j|]]; try done.
  f_equal. unfold dispatch_all.
  generalize (log_phase p ctx s1).
  induction (default [] (JsMap.get p (executionOrder s1))) as [|i l IH];
    intros s0; [done|].
  simpl. rewrite (dispatch_handler_ext p ctx h h') by done. apply IH.
Qed.

Lemma only_disable_is_acted_upon_witness :
  let s := Scenario.scheduler_of
             [Scenario.thrower "CrashingSystem" SystemPhase.update] in
  executePhase SystemPhase.update Scenario.tick (Some (λ _, Some RETRY)) s
  = executePhase SystemPhase.update Scenario.tick (Some (λ _, Some IGNORE)) s.
Proof.
  intros s.
  apply (only_disable_is_acted_upon SystemPhase.update Scenario.tick
           (λ _, Some RETRY) (λ _, Some IGNORE) s).
  intros c. reflexivity.
Defined.

(** *** Schedulers as callers build them *)

Lemma get_of_elem {K V} `{EqDecision K} (m : list (K * V)) k v :
  NoDup (JsMap.keys m) → (k, v) ∈ m → JsMap.get k m = Some v.
Proof.
  induction m as [|[k' v'] m IH]; [by intros _ ?%elem_of_nil|].
  unfold JsMap.keys. rewrite fmap_cons. simpl.
  intros [Hk Hnd]%NoDup_cons [[= -> ->]|Hin]%elem_of_cons.
  - by rewrite decide_True.
  - destruct (decide (k = k')) as [->|Hne]; [|by apply IH].
    destruct Hk. by apply (list_elem_of_fmap_2 fst _ (k', v)).
Qed.

Lemma NoDup_keys_delete {K V} `{EqDecision K} (m : list (K * V)) k :
  NoDup (JsMap.keys m) → NoDup (JsMap.keys (JsMap.delete k m)).
Proof. rewrite keys_delete. apply NoDup_filter. Qed.

(** The systems of an order come from the list that was sorted. *)
Section Members.
Variable systemMap : list (SystemId * System.t).
Variable P : System.t → Prop.
Hypothesis map_P : ∀ k s, JsMap.get k systemMap = Some s → P s.

Definition keeps (visit : System.t → marks → result marks) : Prop :=
  ∀ system m, P system → Forall P (sorted m) →
    match visit system m with
    | Returns m' => Forall P (sorted m')
    | _ => True
    end.

Lemma keeps_after visit afterIds m :
  keeps visit → Forall P (sorted m) →
  match visit_after visit systemMap afterIds m with
  | Returns m' => Forall P (sorted m')
  | _ => True
  end.
Proof.
  intros Hvisit. revert m. induction afterIds as [|a rest IH];
    intros m Hm; simpl; [done|].
  destruct (JsMap.get a systemMap) as [s|] eqn:Ea; [|by apply IH].
  pose proof (Hvisit s m (map_P _ _ Ea) Hm) as Hs.
  destruct (visit s m) as [m'| |]; [|done|done]. by apply IH.
Qed.

Lemma keeps_visit fuel : keeps (visit fuel systemMap).
Proof.
  induction fuel as [|fuel IH]; intros system m Hsys Hm; simpl.
  - by repeat destruct (JsSet.has _ _).
  - destruct (JsSet.has _ (visited m)); [done|].
    destruct (JsSet.has _ (visiting m)); [done|].
    match goal with
    | |- context [visit_after ?v ?M ?ids ?m1] =>
        pose proof (keeps_after v ids m1 IH Hm) as Hafter;
        destruct (visit_after v M ids m1) as [m2| |]; [|done|done]
    end.
    destruct (defers _ _ m2); simpl; [done|].
    apply Forall_app. split; [done|]. by apply Forall_singleton.
Qed.

Lemma keeps_all fuel l m :
  Forall P l → Forall P (sorted m) →
  match visit_all (visit fuel systemMap) l m with
  | Returns m' => Forall P (sorted m')
  | _ => True
  end.
Proof.
  intros Hl. revert m. induction Hl as [|s l Hs Hl IH]; intros m Hm; simpl;
    [done|].
  pose proof (keeps_visit fuel s m Hs Hm) as H1.
  destruct (visit fuel systemMap s m) as [m'| |]; [|done|done]. by apply IH.
Qed.
End Members.

Lemma get_foldl_set_elem (systems : list System.t) acc k s :
  JsMap.get k (foldl (λ acc s, JsMap.set (System.id s) s acc) acc systems)
  = Some s →
  s ∈ systems ∨ JsMap.get k acc = Some s.
Proof.
  revert acc. induction systems as [|x l IH]; intros acc; simpl; [by right|].
  intros [Hs|Hs]%IH; [left; by apply list_elem_of_further|].
  rewrite get_set in Hs. destruct (decide (k = System.id x)); [|by right].
  injection Hs as <-. left. apply list_elem_of_here.
Qed.

Lemma topologicalSort_members systems :
  match topologicalSort systems with
  | Returns l => ∀ s, s ∈ l → s ∈ systems
  | _ => True
  end.
Proof.
  unfold topologicalSort.
  assert (Hmap : ∀ k s,
            JsMap.get k
              (foldl (λ acc s, JsMap.set (System.id s) s acc) [] systems)
            = Some s → s ∈ systems).
  { intros k s Hs. by destruct (get_foldl_set_elem systems [] k s Hs). }
  pose proof (keeps_all _ (λ s, s ∈ systems) Hmap (S (length systems))
                (byPriority systems)
                {| sorted := []; visited := []; visiting := [] |}) as H.
  destruct (visit_all _ _ _) as [m| |]; [|done|done].
  intros s Hs.
  assert (Hall : Forall (λ s, s ∈ systems) (sorted m)).
  { apply H; [|constructor]. apply Forall_forall. intros x Hx.
    by apply (proj1 (elem_of_byPriority x systems)). }
  rewrite Forall_forall in Hall. by apply Hall.
Qed.

(** The schedulers a caller can hold: a new one, and what each method
    leaves, whether it returned or threw. *)
Inductive scheduled : SystemScheduler.t → Prop :=
| scheduled_new : scheduled SystemScheduler.new
| scheduled_add system s s' :
    scheduled s → SystemScheduler.add system s = Some s' → scheduled s'
| scheduled_remove systemId s :
    scheduled s → scheduled (SystemScheduler.remove systemId s).1
| scheduled_executePhase p ctx h s :
    scheduled s → scheduled (executePhase p ctx h s).1
| scheduled_clear s : scheduled s → scheduled (SystemScheduler.clear s).

(** Each entry of an order names systems that are registered and have
    the phase, none twice. *)
Definition order_fits (registered : list (SystemId * System.t))
    (order : list (SystemPhase.t * list SystemId)) : Prop :=
  ∀ p l, JsMap.get p order = Some l →
    NoDup l
    ∧ ∀ i, i ∈ l → ∃ system, JsMap.get i registered = Some system
                             ∧ System.hasPhase p system = true.

(** What a scheduler keeps: its systems sit under their own ids, and
    an order that is not dirty fits them. *)
Record consistent (s : SystemScheduler.t) : Prop := mkConsistent {
  c_nodup : NoDup (JsMap.keys (systems s));
  c_keyed : ∀ k system,
    JsMap.get k (systems s) = Some system → System.id system = k;
  c_order : dirty s = false → order_fits (systems s) (executionOrder s)
}.

Lemma order_phases_fits (registered : list (SystemId * System.t)) ps order :
  NoDup (JsMap.keys registered) →
  (∀ k system, JsMap.get k registered = Some system → System.id system = k) →
  order_fits registered order →
  match order_phases (JsMap.values registered) ps order with
  | (order', Returns _) => order_fits registered order'
  | _ => True
  end.
Proof.
  intros Hnd Hkeyed. revert order.
  induction ps as [|p rest IH]; intros order Hfit; simpl; [done|].
  pose proof (topologicalSort_spec
    (filter (λ s, System.hasPhase p s = true) (JsMap.values registered)))
    as Hspec.
  pose proof (topologicalSort_members
    (filter (λ s, System.hasPhase p s = true) (JsMap.values registered)))
    as Hmem.
  destruct (topologicalSort _) as [l| |]; [|done|done].
  apply IH. intros p' l'. rewrite get_set.
  destruct (decide (p' = p)) as [->|_]; [|apply Hfit].
  intros [= <-]. split; [done|].
  intros i (system & -> & Hin)%list_elem_of_fmap.
  apply Hmem, list_elem_of_filter in Hin as [Hphase Hin].
  apply list_elem_of_fmap in Hin as ([k system'] & -> & Hin).
  exists system'. split; [|done]. simpl in *.
  pose proof (get_of_elem _ _ _ Hnd Hin) as Hget.
  by rewrite (Hkeyed _ _ Hget).
Qed.

Lemma consistent_recompute s :
  consistent s → dirty s = true →
  consistent (recomputeExecutionOrder s).1.
Proof.
  intros [H1 H2 H3] Hd. unfold recomputeExecutionOrder.
  pose proof (order_phases_fits (systems s) allPhases [] H1 H2) as Hfit.
  destruct (order_phases _ _ _) as [order r]. simpl.
  split; simpl; [done|done|].
  destruct r as [[]| |]; [intros _|by rewrite Hd|by rewrite Hd].
  apply Hfit. by intros p l.
Qed.

Lemma after_dispatch_same h ctx system :
  System.id (after_dispatch h ctx system) = System.id system
  ∧ System.phases (after_dispatch h ctx system) = System.phases system.
Proof.
  unfold after_dispatch. destruct (System.fn system ctx); [|done].
  by case_bool_decide.
Qed.

Lemma dispatch_keys p ctx h i s :
  JsMap.keys (systems (dispatch p ctx h i s)) = JsMap.keys (systems s).
Proof.
  unfold dispatch.
  destruct (JsMap.get i (systems s)) as [system|] eqn:Hget; [|done].
  assert (Hhas : ∀ v, JsMap.keys (JsMap.set i v (systems s))
                      = JsMap.keys (systems s)).
  { intros v. rewrite keys_set. unfold JsMap.has. by rewrite Hget. }
  assert (Hhas2 : ∀ v v', JsMap.keys (JsMap.set i v'
                                        (JsMap.set i v (systems s)))
                          = JsMap.keys (systems s)).
  { intros v v'. rewrite keys_set. unfold JsMap.has.
    by rewrite get_set_eq, Hhas. }
  destruct (System.isEnabled system); [|done].
  destruct (System.run _ system) as [[system1 called] thrown].
  destruct called, thrown as [error|], h as [handler|]; simpl;
    try case_bool_decide; simpl; by rewrite ?Hhas2, ?Hhas.
Qed.

Lemma consistent_dispatch p ctx h i s :
  consistent s → consistent (dispatch p ctx h i s).
Proof.
  intros [H1 H2 H3]. destruct (dispatch_frame p ctx h i s) as (F1 & F2 & _).
  assert (Hget : ∀ j system',
            JsMap.get j (systems (dispatch p ctx h i s)) = Some system' →
            ∃ system, JsMap.get j (systems s) = Some system
                      ∧ System.id system' = System.id system
                      ∧ System.phases system' = System.phases system).
  { intros j system'. rewrite dispatch_systems.
    destruct (decide (j = i)) as [->|_]; [|by eauto].
    destruct (JsMap.get i (systems s)) as [system|]; [|done].
    simpl. intros [= <-]. exists system. split; [done|].
    destruct (System.isEnabled system); [|done].
    apply after_dispatch_same. }
  split.
  - by rewrite dispatch_keys.
  - intros k system' (system & Hs & Hid & _)%Hget. rewrite Hid. by apply H2.
  - rewrite F1, F2. intros Hd p' l Hl.
    destruct (H3 Hd p' l Hl) as [Hnd Hin]. split; [done|].
    intros j (system & Hs & Hphase)%Hin.
    assert (Hsome : is_Some (JsMap.get j (systems (dispatch p ctx h i s)))).
    { apply elem_of_keys. rewrite dispatch_keys. apply elem_of_keys.
      by eauto. }
    destruct Hsome as [system' Hs'].
    destruct (Hget j system' Hs') as (system0 & Hs0 & _ & Hph).
    exists system'. split; [done|].
    unfold System.hasPhase in *. rewrite Hph.
    by replace system0 with system by congruence.
Qed.

Lemma consistent_dispatch_all p ctx h l s :
  consistent s → consistent (dispatch_all p ctx h l s).
Proof.
  unfold dispatch_all. revert s. induction l as [|i l IH]; intros s Hs;
    [done|].
  simpl. by apply IH, consistent_dispatch.
Qed.

Lemma consistent_log_phase p ctx s :
  consistent s → consistent (log_phase p ctx s).
Proof. by intros [H1 H2 H3]. Qed.

Lemma consistent_executePhase p ctx h s :
  consistent s → consistent (executePhase p ctx h s).1.
Proof.
  intros Hs. rewrite executePhase_unfold.
  pose proof (consistent_recompute s Hs) as Hr.
  destruct (dirty s).
  - specialize (Hr eq_refl).
    destruct (recomputeExecutionOrder s) as [s1 [[]|j|]]; simpl in *;
      [|done|done].
    by apply consistent_dispatch_all, consistent_log_phase.
  - simpl. by apply consistent_dispatch_all, consistent_log_phase.
Qed.

Lemma scheduled_consistent s : scheduled s → consistent s.
Proof.
  induction 1 as [|system s s' _ IH Hadd|i s _ IH|p ctx h s _ IH|s _ IH].
  - split; simpl; [apply NoDup_nil_2|done|done].
  - unfold SystemScheduler.add in Hadd.
    destruct (JsMap.has _ _); [done|]. injection Hadd as <-.
    destruct IH as [H1 H2 _]. split; simpl; [| |done].
    + by apply NoDup_keys_set.
    + intros k sys. rewrite get_set.
      destruct (decide (k = System.id system)) as [->|_];
        [by intros [= <-]|apply H2].
  - unfold SystemScheduler.remove. destruct (JsMap.has i (systems s)); [|done].
    destruct IH as [H1 H2 _]. split; simpl; [| |done].
    + by apply NoDup_keys_delete.
    + intros k sys. rewrite get_delete.
      destruct (decide (k = i)); [done|apply H2].
  - by apply consistent_executePhase.
  - split; simpl; [apply NoDup_nil_2|done|done].
Qed.

Lemma scheduled_scheduler_of l : scheduled (Scenario.scheduler_of l).
Proof.
  unfold Scenario.scheduler_of.
  assert (H : ∀ s, scheduled s →
            scheduled (foldl (λ s x, default s (SystemScheduler.add x s))
                             s l)).
  { induction l as [|x l IH]; intros s Hs; [done|]. simpl. apply IH.
    destruct (SystemScheduler.add x s) as [s'|] eqn:E; [|done].
    by eapply scheduled_add. }
  apply H, scheduled_new.
Qed.

(** What one [executePhase] adds to the log of calls. *)
Lemma executePhase_calls p ctx h s :
  scheduled s →
  ∃ ids,
    calls (executePhase p ctx h s).1
    = calls s ++ ((λ i, (i, in_phase p ctx)) <$> ids)
    ∧ NoDup ids
    ∧ ∀ i, i ∈ ids →
        ∃ system, SystemScheduler.get i s = Some system
                  ∧ System.isEnabled system = true
                  ∧ System.hasPhase p system = true.
Proof.
  intros Hs%scheduled_consistent. rewrite executePhase_unfold.
  pose proof (consistent_recompute s Hs) as Hr.
  pose proof (recomputeExecutionOrder_spec s) as Hspec.
  assert (Hmain : ∀ s1,
            consistent s1 → dirty s1 = false →
            systems s1 = systems s → calls s1 = calls s →
            ∃ ids,
              calls (dispatch_all p ctx h
                       (default [] (JsMap.get p (executionOrder s1)))
                       (log_phase p ctx s1))
              = calls s ++ ((λ i, (i, in_phase p ctx)) <$> ids)
              ∧ NoDup ids
              ∧ ∀ i, i ∈ ids →
                  ∃ system, SystemScheduler.get i s = Some system
                            ∧ System.isEnabled system = true
                            ∧ System.hasPhase p system = true).
  { intros s1 [_ _ H3] Hd Hsys Hcalls. specialize (H3 Hd).
    assert (Hord : NoDup (default [] (JsMap.get p (executionOrder s1)))
                   ∧ ∀ i, i ∈ default [] (JsMap.get p (executionOrder s1)) →
                       ∃ system, JsMap.get i (systems s1) = Some system
                                 ∧ System.hasPhase p system = true).
    { destruct (JsMap.get p (executionOrder s1)) as [l|] eqn:El.
      - apply (H3 p l El).
      - split; [apply NoDup_nil_2|by intros i ?%elem_of_nil]. }
    destruct Hord as [Hnd Hin].
    eexists. split; [|split].
    - rewrite dispatch_all_calls by done. simpl. by rewrite Hcalls.
    - by apply NoDup_filter.
    - intros i [Hruns Hi]%list_elem_of_filter.
      destruct (Hin i Hi) as (system & Hget & Hphase).
      exists system. unfold SystemScheduler.get. rewrite <-Hsys.
      split; [done|]. split; [|done].
      unfold runs in Hruns. simpl in Hruns. by rewrite Hget in Hruns. }
  destruct (dirty s) eqn:Hd.
  - specialize (Hr eq_refl).
    destruct (recomputeExecutionOrder s) as [s1 r]. simpl in *.
    destruct Hspec as (H1 & H2 & _ & H4).
    destruct r as [[]|j|]; [|exists []|done].
    + destruct H4 as [Hd1 _]. by apply Hmain.
    + simpl. rewrite app_nil_r. split; [done|].
      split; [apply NoDup_nil_2|by intros i ?%elem_of_nil].
  - by apply Hmain.
Qed.

(** X10. Phase selectivity: in a scheduler built through its methods,
    one [executePhase(p, ...)] calls only systems that are registered
    at that moment, enabled, and declared for phase [p], each at most
    once and each with the phase's context; a system that was removed,
    disabled, or never given the phase is not called. *)
Theorem phase_calls_only_its_enabled_systems p ctx h s :
  scheduled s →
  ∃ ids,
    calls (executePhase p ctx h s).1
    = calls s ++ ((λ i, (i, in_phase p ctx)) <$> ids)
    ∧ NoDup ids
    ∧ ∀ i, i ∈ ids →
        ∃ system, SystemScheduler.get i s = Some system
                  ∧ System.isEnabled system = true
                  ∧ System.hasPhase p system = true.
Proof. apply executePhase_calls. Qed.

Lemma phase_calls_only_its_enabled_systems_witness :
  let s := (SystemScheduler.remove "Removed"
              (Scenario.scheduler_of
                 [Scenario.quiet "Removed" SystemPhase.update;
                  Scenario.quiet "Setup" SystemPhase.init;
                  Scenario.thrower "CrashingSystem" SystemPhase.update])).1 in
  calls (executePhase SystemPhase.update Scenario.tick None s).1
  = [("CrashingSystem"%string, Scenario.tick)]
  ∧ ∃ ids,
      calls (executePhase SystemPhase.update Scenario.tick None s).1
      = calls s ++ ((λ i, (i, in_phase SystemPhase.update Scenario.tick))
                      <$> ids)
      ∧ NoDup ids
      ∧ ∀ i, i ∈ ids →
          ∃ system, SystemScheduler.get i s = Some system
                    ∧ System.isEnabled system = true
                    ∧ System.hasPhase SystemPhase.update system = true.
Proof.
  intros s. split; [by vm_compute|].
  apply (phase_calls_only_its_enabled_systems
           SystemPhase.update Scenario.tick None s).
  apply scheduled_remove, scheduled_scheduler_of.
Defined.

(** X11. Registration round trip: [add(system)] throws exactly when a
    system with that id is registered; after a successful [add],
    [get(id)] is the system and [has(id)] holds; [remove(id)] returns
    whether the id was registered, after which [get(id)] is undefined;
    neither touches any other id, and each success marks the order
    dirty, so the next [executePhase] recomputes it. *)
Theorem scheduler_registration_round_trip system i s :
  (SystemScheduler.add system s = None
   ↔ SystemRegistry.has (System.id system) s = true)
  ∧ (∀ s', SystemScheduler.add system s = Some s' →
       SystemScheduler.get (System.id system) s' = Some system
       ∧ SystemRegistry.has (System.id system) s' = true
       ∧ (∀ j, j ≠ System.id system →
               SystemScheduler.get j s' = SystemScheduler.get j s)
       ∧ dirty s' = true)
  ∧ (SystemScheduler.remove i s).2 = SystemRegistry.has i s
  ∧ SystemScheduler.get i (SystemScheduler.remove i s).1 = None
  ∧ (∀ j, j ≠ i →
          SystemScheduler.get j (SystemScheduler.remove i s).1
          = SystemScheduler.get j s)
  ∧ (SystemRegistry.has i s = true →
     dirty (SystemScheduler.remove i s).1 = true)
  ∧ (SystemRegistry.has i s = false → (SystemScheduler.remove i s).1 = s).
Proof.
  unfold SystemScheduler.add, SystemScheduler.remove, SystemRegistry.has,
    SystemScheduler.get.
  split_and!.
  - by destruct (JsMap.has _ _).
  - intros s'. destruct (JsMap.has _ _); [done|]. intros [= <-]. simpl.
    split_and!; try done.
    + apply get_set_eq.
    + unfold JsMap.has. by rewrite get_set_eq.
    + intros j Hj. by apply get_set_ne.
  - by destruct (JsMap.has i (systems s)).
  - destruct (JsMap.has i (systems s)) eqn:E; simpl.
    + rewrite get_delete. by rewrite decide_True.
    + unfold JsMap.has in E. by destruct (JsMap.get i (systems s)).
  - intros j Hj. destruct (JsMap.has i (systems s)); simpl; [|done].
    rewrite get_delete. by rewrite decide_False.
  - by intros ->.
  - by intros ->.
Qed.

End SchedulerOrder.

(** ** Cached query results and the store *)

Module CacheCoherence.
Import JsSetFacts JsMapFacts QueryFacts.

(** The query has an [all] or an [any] filter: its candidates come
    from the component index. *)
Definition selective (q : Query.t) : bool :=
  existsb (λ f,
    match type f with
    | FilterAll => bool_decide (0 < length (filterComponents f))
    | FilterAny => true
    | FilterNone => false
    end) (Query.filters q).

Lemma matches_selective store q e :
  selective q = true → Query.matches store q e = true →
  e ∈ ComponentStore.getAllEntities store.
Proof.
  unfold selective. rewrite existsb_exists. intros (f & Hf & Hty) Hm.
  apply list_elem_of_In in Hf.
  pose proof (proj1 (matches_spec store q e) Hm f Hf) as Hfm.
  destruct (type f); [| |done].
  - apply bool_decide_eq_true in Hty.
    destruct (filterComponents f) as [|c cs] eqn:Ec; [simpl in Hty; lia|].
    apply (has_entry e c), Hfm, list_elem_of_here.
  - destruct Hfm as (c & _ & Hc). by apply (has_entry e c).
Qed.

Lemma compute_selective store q e :
  indexed store → selective q = true →
  e ∈ Query.compute store q ↔ Query.matches store q e = true.
Proof.
  intros Hix Hsel. rewrite compute_correct by done. split; [by intros []|].
  intros Hm. split; [by eapply matches_selective|done].
Qed.

(** [matches] reads the store through [has] on the components the
    filters name. *)
Lemma matches_ext store store' q e :
  (∀ f c, f ∈ Query.filters q → c ∈ filterComponents f →
          ComponentStore.has e c store' = ComponentStore.has e c store) →
  Query.matches store' q e = Query.matches store q e.
Proof.
  intros Hsame. apply eq_true_iff_eq. rewrite !matches_spec.
  split; intros H f Hf; specialize (H f Hf); destruct (type f).
  - intros c Hc. rewrite <-(Hsame f c) by done. by apply H.
  - destruct H as (c & Hc & H). exists c. by rewrite <-(Hsame f c).
  - intros c Hc. rewrite <-(Hsame f c) by done. by apply H.
  - intros c Hc. rewrite (Hsame f c) by done. by apply H.
  - destruct H as (c & Hc & H). exists c. by rewrite (Hsame f c).
  - intros c Hc. rewrite (Hsame f c) by done. by apply H.
Qed.

(** What the cache holds under a clean, selective query is what the
    store says now. *)
Definition fresh (store : ComponentStore.t) (q : Query.t) : Prop :=
  selective q = true → Query.dirty q = false →
  ∀ r, Query.cachedResults q = Some r →
       ∀ e, e ∈ r ↔ Query.matches store q e = true.

Definition coherent (w : World.t) : Prop :=
  ∀ key q,
    JsMap.get key (QueryCache.queries (World.queryCache w)) = Some q →
    fresh (World.componentStore w) q.

Lemma fresh_markDirty store q : fresh store (Query.markDirty q).
Proof. by intros _ Hd. Qed.

Lemma fresh_new store d q : Query.new d = Some q → fresh store q.
Proof.
  unfold Query.new. destruct (bool_decide _); [done|]. intros [= <-].
  by intros _ Hd.
Qed.

Lemma fresh_execute store q :
  indexed store → fresh store q → fresh store (Query.execute store q).1.
Proof.
  intros Hix Hq. unfold Query.execute.
  destruct (Query.dirty q) eqn:Hd, (Query.cachedResults q) as [r|] eqn:Hr;
    simpl; try done.
  all: intros Hsel _ r' [= <-] e; change (selective q = true) in Hsel;
    change (e ∈ Query.compute store q ↔ Query.matches store q e = true);
    by apply compute_selective.
Qed.

Lemma fresh_ext store store' q :
  (∀ e f c, f ∈ Query.filters q → c ∈ filterComponents f →
            ComponentStore.has e c store' = ComponentStore.has e c store) →
  fresh store q → fresh store' q.
Proof.
  intros Hsame Hq Hsel Hd r Hr e. rewrite (Hq Hsel Hd r Hr e).
  by rewrite (matches_ext store store' q e (Hsame e)).
Qed.

(** A write of component type [cid] leaves fresh what
    [markDirtyForComponent] leaves clean. *)
Lemma coherent_invalidate cid cache store store' :
  keyed cache →
  (∀ e c, c ≠ cid →
          ComponentStore.has e c store' = ComponentStore.has e c store) →
  (∀ key q, JsMap.get key (QueryCache.queries cache) = Some q →
            fresh store q) →
  ∀ key q,
    JsMap.get key (QueryCache.queries
                     (QueryCache.markDirtyForComponent cid cache)) = Some q →
    fresh store' q.
Proof.
  intros Hkeyed Hsame Hcoh key q. rewrite get_markDirtyForComponent.
  destruct (JsMap.get key (QueryCache.queries cache)) as [q0|] eqn:Hq0;
    [|done].
  simpl. intros [= <-].
  destruct (JsString.includes key cid) eqn:Hinc; [apply fresh_markDirty|].
  apply (fresh_ext store); [|by eapply Hcoh].
  intros e f c Hf Hc. apply Hsame. intros ->.
  by rewrite (Hkeyed key q0 Hq0 f cid Hf Hc) in Hinc.
Qed.

Lemma remove_nothing e cid s :
  (ComponentStore.remove e cid s).2 = false →
  ∀ e' c', ComponentStore.has e' c' (ComponentStore.remove e cid s).1
           = ComponentStore.has e' c' s.
Proof.
  intros Hrem e' c'. rewrite has_remove.
  destruct (decide (e' = e ∧ c' = cid)) as [[-> ->]|]; [|done].
  unfold ComponentStore.remove, ComponentStore.has in *.
  destruct (JsMap.get e (ComponentStore.components s)) as [ec|]; [|done].
  unfold JsMap.has in Hrem. by destruct (JsMap.get cid ec).
Qed.

Lemma built_coherent w : built w → coherent w.
Proof.
  induction 1 as
    [cfg|next w Hw IH|id next w next' w' entity Hw IH Hc|id w Hw IH
    |id c w w' Hw IH Ha|id cid w Hw IH|d w Hw IH|key w Hw IH
    |system w w' Hw IH Ha|deltaTime w Hw IH|w Hw IH|w Hw IH|w Hw IH].
  - by intros key q.
  - done.
  - unfold World.createEntityWithId in Hc.
    destruct (JsMap.has id (World.entities w)); [done|].
    by injection Hc as _ <- _.
  - unfold World.destroyEntity.
    destruct (JsMap.get id (World.entities w)); [|done].
    intros key q. unfold World.batch.
    cbn [fst World.with_cache World.with_entities World.with_store
         World.queryCache World.componentStore].
    rewrite get_markAllDirty.
    destruct (JsMap.get key _) as [q0|]; [|done].
    intros [= <-]. apply fresh_markDirty.
  - unfold World.addComponent in Ha.
    destruct (negb _); [done|]. injection Ha as <-.
    assert (Hsame : ∀ e c', c' ≠ componentId c →
              ComponentStore.has e c'
                (ComponentStore.add id c (World.componentStore w))
              = ComponentStore.has e c' (World.componentStore w)).
    { intros e c' Hne. rewrite has_add.
      by rewrite decide_False by naive_solver. }
    intros key q Hq.
    exact (coherent_invalidate (componentId c) (World.queryCache w)
             (World.componentStore w)
             (ComponentStore.add id c (World.componentStore w))
             (built_keyed w Hw) Hsame IH key q Hq).
  - unfold World.removeComponent.
    pose proof (remove_nothing id cid (World.componentStore w)) as Hnone.
    pose proof (has_remove id cid (World.componentStore w)) as Hrem.
    destruct (ComponentStore.remove id cid (World.componentStore w))
      as [store' removed]. simpl in *.
    destruct removed.
    + assert (Hsame : ∀ e c', c' ≠ cid →
                ComponentStore.has e c' store'
                = ComponentStore.has e c' (World.componentStore w)).
      { intros e c' Hne. rewrite Hrem.
        by rewrite decide_False by naive_solver. }
      intros key q Hq.
      exact (coherent_invalidate cid (World.queryCache w)
               (World.componentStore w) store'
               (built_keyed w Hw) Hsame IH key q Hq).
    + intros key q Hq. apply (fresh_ext (World.componentStore w)).
      * intros e f c _ _. by apply Hnone.
      * by apply (IH key q).
  - unfold World.query, QueryCache.get.
    destruct (JsMap.get (QueryCache.getKey d) _) as [q0|] eqn:Hq0; [done|].
    destruct (Query.new (QueryCache.sorted d)) as [query|] eqn:Hn; [|done].
    intros key q. simpl. rewrite get_set.
    destruct (decide (key = QueryCache.getKey d)) as [->|_]; [|apply IH].
    intros [= <-]. by eapply fresh_new.
  - unfold World.execute.
    destruct (JsMap.get key _) as [q0|] eqn:Hq0; [|done].
    pose proof (fresh_execute (World.componentStore w) q0
                  (built_indexed w Hw) (IH key q0 Hq0)) as Hf.
    destruct (Query.execute _ _) as [q' results]. simpl in Hf.
    intros key' q.
    cbn [fst World.with_cache World.queryCache World.componentStore
         QueryCache.queries].
    rewrite get_set.
    destruct (decide (key' = key)) as [->|_]; [|apply IH].
    by intros [= <-].
  - unfold World.addSystem in Ha.
    destruct (SystemScheduler.add _ _); [|done]. by injection Ha as <-.
  - destruct (update_data deltaTime w) as (H1 & _ & H3).
    intros key q. rewrite H1, H3. apply IH.
  - done.
  - done.
  - by intros key q.
Qed.

(** [e1] gets [A], the query [{ all: [A] }] is executed, then [e2]
    gets [A] and [e1] loses it. *)
Definition churned : option World.t :=
  let '(next1, w1, e1) :=
    World.createEntity Entity.initialNextEntityId
      (World.new World.defaultConfig) in
  let '(_, w2, e2) := World.createEntity next1 w1 in
  w3 ← World.addComponent (Entity.id e1) Scenario.componentA w2;
  let w4 := (World.query {| all := Some ["A"%string]; any := None;
                            none := None |} w3).1 in
  let w5 := (World.execute "all:A" w4).1 in
  w6 ← World.addComponent (Entity.id e2) Scenario.componentA w5;
  Some (World.removeComponent (Entity.id e1) "A" w6).1.

Lemma built_churned w : churned = Some w → built w.
Proof.
  unfold churned.
  destruct (World.createEntity _ _) as [[next1 w1] e1] eqn:E1.
  destruct (World.createEntity next1 w1) as [[next2 w2] e2] eqn:E2.
  destruct (World.addComponent (Entity.id e1) _ w2) as [w3|] eqn:E3;
    [|done].
  simpl.
  destruct (World.addComponent (Entity.id e2) _ _) as [w6|] eqn:E6; [|done].
  simpl. intros [= <-].
  apply built_removeComponent.
  eapply built_addComponent; [|exact E6].
  apply built_execute, built_query.
  eapply built_addComponent; [|exact E3].
  replace w2 with (World.createEntity next1 w1).1.2 by (by rewrite E2).
  apply built_createEntity.
  replace w1 with (World.createEntity Entity.initialNextEntityId
                     (World.new World.defaultConfig)).1.2
    by (by rewrite E1).
  apply built_createEntity, built_new.
Qed.

(** X12. Cache coherence for queries with an [all] or [any] filter: in
    a world built through its methods, [execute()] on a cached query
    that has an [all] or an [any] filter returns exactly the entities
    that match its filters in the store as it is now, whether it
    recomputes or serves its cached set. (World mutations mark dirty
    every cached query they can affect; a query built from [none]
    filters only is outside this guarantee.) *)
Theorem cached_selective_query_is_current w key q :
  built w →
  JsMap.get key (QueryCache.queries (World.queryCache w)) = Some q →
  selective q = true →
  ∃ results,
    (World.execute key w).2 = Some results
    ∧ ∀ e, e ∈ results ↔ Query.matches (World.componentStore w) q e = true.
Proof.
  intros Hw Hq Hsel. unfold World.execute. rewrite Hq.
  pose proof (built_coherent w Hw key q Hq Hsel) as Hfresh.
  pose proof (built_indexed w Hw) as Hix.
  unfold Query.execute.
  destruct (Query.dirty q) eqn:Hd, (Query.cachedResults q) as [r|] eqn:Hr;
    simpl; eexists; (split; [done|]); intros e;
    first [by apply compute_selective|by apply Hfresh].
Qed.

Lemma cached_selective_query_is_current_witness :
  let w := default (World.new World.defaultConfig) churned in
  let q := {| Query.filters := [mkFilter FilterAll ["A"%string]];
              Query.cachedResults := Some [1%Z];
              Query.dirty := true |} in
  (World.execute "all:A" w).2 = Some [2%Z]
  ∧ ∃ results,
      (World.execute "all:A" w).2 = Some results
      ∧ ∀ e, e ∈ results
             ↔ Query.matches (World.componentStore w) q e = true.
Proof.
  intros w q. split; [by vm_compute|].
  apply (cached_selective_query_is_current w "all:A" q).
  - apply built_churned. by vm_compute.
  - by vm_compute.
  - reflexivity.
Defined.

End CacheCoherence.

(** ** The component store, operation by operation *)

Module StoreFacts.
Import JsSetFacts JsMapFacts QueryFacts.

(** The instance [add] files: the component with its [entity]
    back-reference set. *)
Definition stamp (e : EntityId) (c : Component) : Component :=
  {| componentId := componentId c; payload := payload c; entity := Some e |}.

(** A component apart from its back-reference, which [add] rewrites
    each time the component is filed. *)
Definition instance (c : Component) : ComponentId * Z :=
  (componentId c, payload c).

Lemma head_snoc {A} (l : list A) x : head (l ++ [x]) = Some (default x (head l)).
Proof. by destruct l. Qed.

Lemma get_add e c s e' c' :
  ComponentStore.get e' c' (ComponentStore.add e c s)
  = if decide (e' = e ∧ c' = componentId c)
    then Some (default (stamp e c) (ComponentStore.get e (componentId c) s))
    else ComponentStore.get e' c' s.
Proof.
  unfold ComponentStore.get, ComponentStore.add. simpl.
  rewrite get_set. destruct (decide (e' = e)) as [->|Hne].
  - rewrite get_set. destruct (decide (c' = componentId c)) as [->|Hc].
    + rewrite decide_True by done. rewrite head_snoc. f_equal.
      destruct (JsMap.get e (ComponentStore.components s)) as [ec|]; [|done].
      simpl. by destruct (JsMap.get (componentId c) ec) as [[|? ?]|].
    + rewrite decide_False by naive_solver.
      by destruct (JsMap.get e (ComponentStore.components s)).
  - by rewrite decide_False by naive_solver.
Qed.

Lemma get_remove e cid s e' c' :
  ComponentStore.get e' c' (ComponentStore.remove e cid s).1
  = if decide (e' = e ∧ c' = cid) then None
    else ComponentStore.get e' c' s.
Proof.
  unfold ComponentStore.get, ComponentStore.remove.
  destruct (JsMap.get e (ComponentStore.components s)) as [ec|] eqn:E.
  - assert (Hget : JsMap.get e'
             (JsMap.set e (JsMap.delete cid ec) (ComponentStore.components s))
             = if decide (e' = e) then Some (JsMap.delete cid ec)
               else JsMap.get e' (ComponentStore.components s))
      by apply get_set.
    destruct (JsMap.has cid ec); simpl; rewrite Hget;
      (destruct (decide (e' = e)) as [->|];
       [|by rewrite decide_False by naive_solver]);
      rewrite get_delete, E;
      (destruct (decide (c' = cid)) as [->|];
       [by rewrite decide_True|by rewrite decide_False by naive_solver]).
  - simpl. destruct (decide (e' = e ∧ c' = cid)) as [[-> ->]|]; [|done].
    by rewrite E.
Qed.

Lemma has_removeAllComponents e s e' c' :
  ComponentStore.has e' c' (ComponentStore.removeAllComponents e s)
  = if decide (e' = e) then false else ComponentStore.has e' c' s.
Proof.
  unfold ComponentStore.has, ComponentStore.removeAllComponents.
  destruct (JsMap.get e (ComponentStore.components s)) as [ec|] eqn:E; simpl.
  - rewrite get_delete. by destruct (decide (e' = e)).
  - destruct (decide (e' = e)) as [->|]; [by rewrite E|done].
Qed.

Lemma get_removeAllComponents e s e' c' :
  ComponentStore.get e' c' (ComponentStore.removeAllComponents e s)
  = if decide (e' = e) then None else ComponentStore.get e' c' s.
Proof.
  unfold ComponentStore.get, ComponentStore.removeAllComponents.
  destruct (JsMap.get e (ComponentStore.components s)) as [ec|] eqn:E; simpl.
  - rewrite get_delete. by destruct (decide (e' = e)).
  - destruct (decide (e' = e)) as [->|]; [by rewrite E|done].
Qed.

Lemma getAll_removeAllComponents e s e' :
  ComponentStore.getAll e' (ComponentStore.removeAllComponents e s)
  = if decide (e' = e) then [] else ComponentStore.getAll e' s.
Proof.
  unfold ComponentStore.getAll, ComponentStore.removeAllComponents.
  destruct (JsMap.get e (ComponentStore.components s)) as [ec|] eqn:E; simpl.
  - rewrite get_delete. by destruct (decide (e' = e)).
  - destruct (decide (e' = e)) as [->|]; [by rewrite E|done].
Qed.

(** X13. [add] appends behind what is there: after
    [add(entityId, component)] the entity has the component's type and
    is in the index set of that type. If the entity had no instance of
    the type, [get] of that type returns the new one, with its
    [entity] back-reference set to the entity; if it had one, [get]
    still returns the one that was first: a second component of a type
    never replaces the first. No other entity and no other type is
    affected. Instances are compared by [instance], apart from the
    back-reference. *)
Theorem add_keeps_the_first_instance e c s :
  ComponentStore.has e (componentId c) (ComponentStore.add e c s) = true
  ∧ (ComponentStore.get e (componentId c) s = None →
     ComponentStore.get e (componentId c) (ComponentStore.add e c s)
     = Some (stamp e c))
  ∧ (∀ first, ComponentStore.get e (componentId c) s = Some first →
       instance <$> ComponentStore.get e (componentId c)
                      (ComponentStore.add e c s)
       = Some (instance first))
  ∧ e ∈ ComponentStore.getEntitiesWithComponent (componentId c)
          (ComponentStore.add e c s)
  ∧ ∀ e' c', ¬ (e' = e ∧ c' = componentId c) →
      ComponentStore.has e' c' (ComponentStore.add e c s)
      = ComponentStore.has e' c' s
      ∧ instance <$> ComponentStore.get e' c' (ComponentStore.add e c s)
        = instance <$> ComponentStore.get e' c' s.
Proof.
  split_and!.
  - rewrite has_add. by rewrite decide_True.
  - intros Hnone. rewrite get_add, decide_True by done. by rewrite Hnone.
  - intros first Hfirst. rewrite get_add, decide_True by done.
    by rewrite Hfirst.
  - rewrite index_add, decide_True by done. apply elem_of_add. by left.
  - intros e' c' Hne. rewrite has_add, get_add.
    by rewrite !decide_False by done.
Qed.

(** X14. [remove(entityId, componentId)] drops every instance of the
    type at once: afterwards the entity does not have the type and
    [get] is undefined, whatever the call returned; it returns [true]
    whenever the entity had the type; no other entity and no other
    type is affected; and the entity keeps its entry in the store (the
    set [getAllEntities] returns is unchanged) even when its last
    component goes. *)
Theorem remove_drops_every_instance e cid s :
  ComponentStore.has e cid (ComponentStore.remove e cid s).1 = false
  ∧ ComponentStore.get e cid (ComponentStore.remove e cid s).1 = None
  ∧ (ComponentStore.has e cid s = true →
     (ComponentStore.remove e cid s).2 = true)
  ∧ (∀ e' c', ¬ (e' = e ∧ c' = cid) →
       ComponentStore.has e' c' (ComponentStore.remove e cid s).1
       = ComponentStore.has e' c' s
       ∧ ComponentStore.get e' c' (ComponentStore.remove e cid s).1
         = ComponentStore.get e' c' s)
  ∧ ComponentStore.getAllEntities (ComponentStore.remove e cid s).1
    = ComponentStore.getAllEntities s.
Proof.
  split_and!.
  - rewrite has_remove. by rewrite decide_True.
  - rewrite get_remove. by rewrite decide_True.
  - intros Hhas.
    destruct ((ComponentStore.remove e cid s).2) eqn:Hrem; [done|].
    by rewrite <-(CacheCoherence.remove_nothing e cid s Hrem e cid),
      has_remove, decide_True in Hhas.
  - intros e' c' Hne. rewrite has_remove, get_remove.
    by rewrite !decide_False by done.
  - apply getAllEntities_remove.
Qed.

(** *** What the store keeps *)

(** Every list of instances the store holds is non-empty, and each
    instance in it carries the type it is filed under and the entity it
    belongs to. *)
Definition well_stored (s : ComponentStore.t) : Prop :=
  ∀ e ec cid l,
    JsMap.get e (ComponentStore.components s) = Some ec →
    JsMap.get cid ec = Some l →
    l ≠ [] ∧ ∀ comp, comp ∈ l → componentId comp = cid
                                ∧ entity comp = Some e.

Lemma well_stored_new : well_stored ComponentStore.new.
Proof. by intros e ec cid l. Qed.

Lemma well_stored_add e c s :
  well_stored s → well_stored (ComponentStore.add e c s).
Proof.
  intros Hs e' ec cid l. unfold ComponentStore.add. simpl.
  rewrite get_set. destruct (decide (e' = e)) as [->|_]; [|apply Hs].
  intros [= <-]. rewrite get_set.
  destruct (decide (cid = componentId c)) as [->|_].
  - intros [= <-]. split; [by destruct (default [] _)|].
    intros comp [Hin|Hin]%elem_of_app;
      [|by apply list_elem_of_singleton in Hin as ->].
    destruct (JsMap.get e (ComponentStore.components s)) as [ec0|] eqn:E0;
      [|by apply elem_of_nil in Hin].
    simpl in Hin.
    destruct (JsMap.get (componentId c) ec0) as [l0|] eqn:El0;
      [|by apply elem_of_nil in Hin].
    by apply (Hs e ec0 (componentId c) l0).
  - destruct (JsMap.get e (ComponentStore.components s)) as [ec0|] eqn:E0;
      [|done].
    simpl. by apply Hs.
Qed.

Lemma well_stored_remove e cid s :
  well_stored s → well_stored (ComponentStore.remove e cid s).1.
Proof.
  intros Hs e' ec cid' l. unfold ComponentStore.remove.
  destruct (JsMap.get e (ComponentStore.components s)) as [ec0|] eqn:E0;
    [|apply Hs].
  assert (Hgoal : JsMap.get e'
            (JsMap.set e (JsMap.delete cid ec0) (ComponentStore.components s))
            = Some ec → JsMap.get cid' ec = Some l →
            l ≠ [] ∧ ∀ comp, comp ∈ l → componentId comp = cid'
                                        ∧ entity comp = Some e').
  { rewrite get_set. destruct (decide (e' = e)) as [->|_]; [|apply Hs].
    intros [= <-]. rewrite get_delete.
    destruct (decide (cid' = cid)); [done|]. by apply Hs. }
  by destruct (JsMap.has cid ec0).
Qed.

Lemma well_stored_removeAllComponents e s :
  well_stored s → well_stored (ComponentStore.removeAllComponents e s).
Proof.
  intros Hs e' ec cid l. unfold ComponentStore.removeAllComponents.
  destruct (JsMap.get e (ComponentStore.components s)) as [ec0|] eqn:E0;
    [|apply Hs].
  simpl. rewrite get_delete. destruct (decide (e' = e)); [done|apply Hs].
Qed.

Lemma built_well_stored w : built w → well_stored (World.componentStore w).
Proof.
  induction 1 as
    [cfg|next w _ IH|id next w next' w' entity _ IH Hc|id w _ IH
    |id c w w' _ IH Ha|id cid w _ IH|d w _ IH|key w _ IH
    |system w w' _ IH Ha|deltaTime w _ IH|w _ IH|w _ IH|w _ IH].
  - apply well_stored_new.
  - done.
  - unfold World.createEntityWithId in Hc.
    destruct (JsMap.has id (World.entities w)); [done|].
    by injection Hc as _ <- _.
  - unfold World.destroyEntity.
    destruct (JsMap.get id (World.entities w)); [|done].
    by apply well_stored_removeAllComponents.
  - unfold World.addComponent in Ha.
    destruct (negb _); [done|]. injection Ha as <-.
    by apply well_stored_add.
  - unfold World.removeComponent.
    pose proof (well_stored_remove id cid _ IH) as Hr.
    destruct (ComponentStore.remove id cid (World.componentStore w))
      as [store' removed]. by destruct removed.
  - unfold World.query. by destruct (QueryCache.get d (World.queryCache w)).
  - unfold World.execute.
    destruct (JsMap.get key _); [|done].
    by destruct (Query.execute _ _).
  - unfold World.addSystem in Ha.
    destruct (SystemScheduler.add _ _); [|done]. by injection Ha as <-.
  - by rewrite (proj1 (update_data deltaTime w)).
  - done.
  - done.
  - apply well_stored_new.
Qed.

Lemma well_stored_get e cid s :
  well_stored s →
  ComponentStore.has e cid s = true
  ↔ is_Some (ComponentStore.get e cid s).
Proof.
  intros Hs. unfold ComponentStore.has, ComponentStore.get.
  destruct (JsMap.get e (ComponentStore.components s)) as [ec|] eqn:E;
    [|split; [done|by intros [? ?]]].
  destruct (JsMap.get cid ec) as [l|] eqn:El;
    [|split; [done|by intros [? ?]]].
  destruct (Hs e ec cid l E El) as [Hne _].
  destruct l as [|x l]; [done|]. simpl. split; [by eauto|done].
Qed.

(** X15. Store consistency in a world built through its methods: the
    reverse index lists exactly the entities that have a component of
    the type, and [hasComponent] holds exactly when [getComponent]
    returns an instance. *)
Theorem built_store_is_consistent w :
  built w →
  (∀ e c, e ∈ ComponentStore.getEntitiesWithComponent c
                (World.componentStore w)
          ↔ World.hasComponent e c w = true)
  ∧ (∀ e c, World.hasComponent e c w = true
            ↔ is_Some (World.getComponent e c w)).
Proof.
  intros Hw. split.
  - apply (built_indexed w Hw).
  - intros e c. by apply well_stored_get, built_well_stored.
Qed.

Lemma built_store_is_consistent_witness :
  let w := default (World.new World.defaultConfig) CacheCoherence.churned in
  ComponentStore.getEntitiesWithComponent "A"%string (World.componentStore w)
  = [2%Z]
  ∧ (∀ e c, e ∈ ComponentStore.getEntitiesWithComponent c
                  (World.componentStore w)
            ↔ World.hasComponent e c w = true)
  ∧ (∀ e c, World.hasComponent e c w = true
            ↔ is_Some (World.getComponent e c w)).
Proof.
  intros w. split; [by vm_compute|].
  apply (built_store_is_consistent w).
  apply CacheCoherence.built_churned. by vm_compute.
Defined.

(** X16. Components belong to live entities: in a world built through
    its methods, an entity that has a component of some type is in the
    world's entity table ([addComponent] refuses an entity that is not,
    and [destroyEntity] removes the components with the entity). *)
Theorem components_belong_to_live_entities w e c :
  built w →
  World.hasComponent e c w = true →
  World.hasEntity e w = true.
Proof.
  intros Hw Hhas. apply (built_entries_live w e Hw). by eapply has_entry.
Qed.

Lemma components_belong_to_live_entities_witness :
  let w := default (World.new World.defaultConfig) CacheCoherence.churned in
  World.hasEntity 2%Z w = true.
Proof.
  intros w. apply (components_belong_to_live_entities w 2%Z "A"%string).
  - apply CacheCoherence.built_churned. by vm_compute.
  - by vm_compute.
Defined.

Lemma has_delete {K V} `{EqDecision K} (m : list (K * V)) k k' :
  JsMap.has k (JsMap.delete k' m)
  = if decide (k = k') then false else JsMap.has k m.
Proof. unfold JsMap.has. rewrite get_delete. by destruct (decide (k = k')). Qed.

(** X17. [destroyEntity] leaves no trace of the entity: in a world
    built through its methods it returns whether the entity was live;
    afterwards the entity is not live, has no component of any type,
    [getAllComponents] of it is empty and no index set lists it; every
    other entity keeps its liveness and its components. *)
Theorem destroyEntity_leaves_no_trace id w :
  built w →
  (World.destroyEntity id w).2 = World.hasEntity id w
  ∧ World.hasEntity id (World.destroyEntity id w).1 = false
  ∧ (∀ c, World.hasComponent id c (World.destroyEntity id w).1 = false
          ∧ World.getComponent id c (World.destroyEntity id w).1 = None
          ∧ id ∉ ComponentStore.getEntitiesWithComponent c
                   (World.componentStore (World.destroyEntity id w).1))
  ∧ WorldRest.getAllComponents id (World.destroyEntity id w).1 = []
  ∧ ∀ e, e ≠ id →
      World.hasEntity e (World.destroyEntity id w).1 = World.hasEntity e w
      ∧ ∀ c, World.hasComponent e c (World.destroyEntity id w).1
             = World.hasComponent e c w
             ∧ World.getComponent e c (World.destroyEntity id w).1
               = World.getComponent e c w.
Proof.
  intros Hw.
  pose proof (built_indexed _ (built_destroyEntity id w Hw)) as Hix.
  assert (Hdead : World.hasEntity id w = false →
            JsMap.get id (ComponentStore.components (World.componentStore w))
            = None).
  { intros Hno. apply not_elem_of_keys. intros Hin.
    pose proof (built_entries_live w id Hw Hin). congruence. }
  assert (Hhas : ∀ c, World.hasComponent id c (World.destroyEntity id w).1
                      = false).
  { intros c. unfold World.hasComponent, World.destroyEntity, World.hasEntity,
      JsMap.has in *.
    destruct (JsMap.get id (World.entities w)); simpl.
    - rewrite has_removeAllComponents. by rewrite decide_True.
    - unfold ComponentStore.has. by rewrite Hdead. }
  unfold World.hasComponent, World.getComponent, WorldRest.getAllComponents,
    World.hasEntity in *.
  split_and!.
  - unfold World.destroyEntity, JsMap.has.
    by destruct (JsMap.get id (World.entities w)).
  - unfold World.destroyEntity, JsMap.has.
    destruct (JsMap.get id (World.entities w)) eqn:E; simpl.
    + rewrite get_delete. by rewrite decide_True.
    + by rewrite E.
  - intros c. split_and!; [apply Hhas| |].
    + unfold World.destroyEntity, JsMap.has in *.
      destruct (JsMap.get id (World.entities w)); simpl.
      * rewrite get_removeAllComponents. by rewrite decide_True.
      * unfold ComponentStore.get. by rewrite Hdead.
    + intros Hin. apply Hix in Hin. by rewrite Hhas in Hin.
  - unfold World.destroyEntity, JsMap.has in *.
    destruct (JsMap.get id (World.entities w)); simpl.
    + rewrite getAll_removeAllComponents. by rewrite decide_True.
    + unfold ComponentStore.getAll. by rewrite Hdead.
  - intros e Hne. unfold World.destroyEntity.
    destruct (JsMap.get id (World.entities w)); simpl; [|done].
    split; [by rewrite has_delete, decide_False|].
    intros c. rewrite has_removeAllComponents, get_removeAllComponents.
    by rewrite !decide_False.
Qed.

Lemma destroyEntity_leaves_no_trace_witness :
  let w := default (World.new World.defaultConfig) CacheCoherence.churned in
  World.hasEntity 2%Z w = true
  ∧ World.hasComponent 2%Z "A"%string w = true
  ∧ World.hasEntity 2%Z (World.destroyEntity 2%Z w).1 = false
  ∧ World.hasComponent 2%Z "A"%string (World.destroyEntity 2%Z w).1 = false.
Proof.
  intros w. split; [by vm_compute|]. split; [by vm_compute|].
  assert (Hw : built w)
    by (apply CacheCoherence.built_churned; by vm_compute).
  destruct (destroyEntity_leaves_no_trace 2%Z w Hw) as (_ & H2 & H3 & _).
  split; [exact H2|]. exact (proj1 (H3 "A"%string)).
Defined.

End StoreFacts.

(** ** The world: clock, counter, teardown *)

Module WorldMore.
Import JsMapFacts SchedulerFacts WorldFacts.
Import World.
Local Open Scope Q_scope.

Lemma runPhase_rest p dt t' w :
  same_but_scheduler w (runPhase p dt t' w).1.
Proof.
  unfold runPhase. by destruct (SystemScheduler.executePhase _ _ _ _).
Qed.







End WorldMore.

(** ** Queries: construction and the views on a result *)

Module QueryMore.
Import JsSetFacts JsMapFacts QueryFacts.

(** The filter a list of the descriptor contributes. *)
Definition part (ty : FilterType) (cs : option (list ComponentId))
  : list QueryFilter :=
  match cs with
  | Some (c :: cs') => [mkFilter ty (c :: cs')]
  | _ => []
  end.

Definition listed (cs : option (list ComponentId)) : bool :=
  match cs with
  | Some (_ :: _) => true
  | _ => false
  end.

Lemma push_filter_part ty cs fs :
  Query.push_filter ty cs fs = fs ++ part ty cs.
Proof.
  unfold Query.push_filter, part. destruct cs as [[|c cs]|]; simpl.
  - by rewrite app_nil_r.
  - done.
  - by rewrite app_nil_r.
Qed.

Lemma new_filters d :
  Query.new d
  = let fs := part FilterAll (all d) ++ part FilterAny (any d)
              ++ part FilterNone (none d) in
    if bool_decide (length fs = 0) then None
    else Some {| Query.filters := fs; Query.cachedResults := None;
                 Query.dirty := true |}.
Proof.
  unfold Query.new. rewrite !push_filter_part. simpl.
  by rewrite <-app_assoc.
Qed.

(** X21. A query needs a non-empty list: the [Query] constructor
    throws exactly when each of [all], [any], [none] is absent or
    empty; otherwise the query has one filter per non-empty list, in
    the order all, any, none, and starts dirty with nothing cached.
    [QueryBuilder.build()] is the constructor on the lists last given
    to the builder: calls of different kinds commute, a repeated call
    replaces the earlier one, and a builder that was given nothing
    throws. *)
Theorem query_needs_a_nonempty_list d :
  (Query.new d = None
   ↔ listed (all d) = false ∧ listed (any d) = false
     ∧ listed (none d) = false)
  ∧ (∀ q, Query.new d = Some q →
       Query.filters q
       = part FilterAll (all d) ++ part FilterAny (any d)
         ++ part FilterNone (none d)
       ∧ Query.dirty q = true ∧ Query.cachedResults q = None)
  ∧ QueryBuilder.build QueryBuilder.new = None
  ∧ (∀ cs ds b,
       QueryBuilder.all cs (QueryBuilder.none ds b)
       = QueryBuilder.none ds (QueryBuilder.all cs b)
       ∧ QueryBuilder.all cs (QueryBuilder.any ds b)
         = QueryBuilder.any ds (QueryBuilder.all cs b)
       ∧ QueryBuilder.any cs (QueryBuilder.none ds b)
         = QueryBuilder.none ds (QueryBuilder.any cs b)
       ∧ QueryBuilder.all cs (QueryBuilder.all ds b) = QueryBuilder.all cs b
       ∧ QueryBuilder.any cs (QueryBuilder.any ds b) = QueryBuilder.any cs b
       ∧ QueryBuilder.none cs (QueryBuilder.none ds b)
         = QueryBuilder.none cs b)
  ∧ (∀ cs, QueryBuilder.build (QueryBuilder.all cs QueryBuilder.new)
           = Query.new {| all := Some (QueryBuilder.idOf <$> cs);
                          any := None; none := None |}).
Proof.
  split_and!.
  - rewrite new_filters. unfold part, listed.
    destruct (all d) as [[|? ?]|], (any d) as [[|? ?]|],
      (none d) as [[|? ?]|]; simpl; naive_solver.
  - intros q. rewrite new_filters. simpl. case_bool_decide; [done|].
    by intros [= <-].
  - done.
  - by intros cs ds [d0].
  - done.
Qed.

(** *** The views on a result *)

Lemma NoDup_collect {A} `{EqDecision A} (keep : A → bool) (l acc : list A) :
  NoDup acc →
  NoDup (foldl (λ results x, if keep x then JsSet.add x results else results)
               acc l).
Proof.
  revert acc. induction l as [|x l IH]; intros acc Hacc; simpl; [done|].
  apply IH. destruct (keep x); [by apply NoDup_add|done].
Qed.

Lemma NoDup_compute store q : NoDup (Query.compute store q).
Proof. apply NoDup_collect, NoDup_nil_2. Qed.

Definition entries (s : ComponentStore.t) : Prop :=
  NoDup (ComponentStore.getAllEntities s).

Lemma built_entries w : built w → entries (World.componentStore w).
Proof.
  unfold entries, ComponentStore.getAllEntities.
  induction 1 as
    [cfg|next w _ IH|id next w next' w' entity _ IH Hc|id w _ IH
    |id c w w' _ IH Ha|id cid w _ IH|d w _ IH|key w _ IH
    |system w w' _ IH Ha|deltaTime w _ IH|w _ IH|w _ IH|w _ IH].
  - apply NoDup_nil_2.
  - done.
  - unfold World.createEntityWithId in Hc.
    destruct (JsMap.has id (World.entities w)); [done|].
    by injection Hc as _ <- _.
  - unfold World.destroyEntity.
    destruct (JsMap.get id (World.entities w)); [|done].
    unfold World.batch, ComponentStore.removeAllComponents. simpl.
    destruct (JsMap.get id _); [|done]. simpl.
    rewrite keys_delete. by apply NoDup_filter.
  - unfold World.addComponent in Ha.
    destruct (negb _); [done|]. injection Ha as <-.
    unfold World.batch, ComponentStore.add. simpl.
    by apply NoDup_keys_set.
  - unfold World.removeComponent, ComponentStore.remove.
    destruct (JsMap.get id (ComponentStore.components _)) as [ec|];
      [|done].
    destruct (JsMap.has cid ec); simpl; by apply NoDup_keys_set.
  - unfold World.query. by destruct (QueryCache.get d (World.queryCache w)).
  - unfold World.execute.
    destruct (JsMap.get key _); [|done].
    by destruct (Query.execute _ _).
  - unfold World.addSystem in Ha.
    destruct (SystemScheduler.add _ _); [|done]. by injection Ha as <-.
  - by rewrite (proj1 (update_data deltaTime w)).
  - done.
  - done.
  - apply NoDup_nil_2.
Qed.

(** X22. The views on a result: [count()], [isEmpty()], [first()],
    [map(callback)] and [forEach(callback)] each run [execute()] and
    leave the query as [execute()] leaves it; on a recomputing query in
    a world built through its methods, [count()] is the number of
    entities in the store that match the filters, each counted once,
    [isEmpty()] holds exactly when none matches, [first()] is
    undefined exactly then, [map] returns one element per result and
    [forEach] visits the results in the order [execute()] lists
    them. *)
Theorem views_count_the_matching_entities {S T : Type} w q
    (callback : EntityId → T) (visit : EntityId → S → S) (st : S) :
  built w →
  Query.dirty q = true →
  let store := World.componentStore w in
  let matching :=
    filter (λ e, Query.matches store q e = true)
           (ComponentStore.getAllEntities store) in
  (QueryResults.count store q).2 = length matching
  ∧ ((QueryResults.isEmpty store q).2 = true ↔ matching = [])
  ∧ ((QueryResults.first store q).2 = None ↔ matching = [])
  ∧ (∀ e, (QueryResults.first store q).2 = Some e → e ∈ matching)
  ∧ (QueryResults.map callback store q).2
    = callback <$> (Query.execute store q).2
  ∧ (QueryResults.forEach visit store q st).2
    = foldl (λ acc e, visit e acc) st (Query.execute store q).2
  ∧ (QueryResults.count store q).1 = (Query.execute store q).1
  ∧ (QueryResults.isEmpty store q).1 = (Query.execute store q).1
  ∧ (QueryResults.first store q).1 = (Query.execute store q).1
  ∧ (QueryResults.map callback store q).1 = (Query.execute store q).1
  ∧ (QueryResults.forEach visit store q st).1 = (Query.execute store q).1.
Proof.
  intros Hw Hd store matching.
  unfold QueryResults.isEmpty, QueryResults.count, QueryResults.first,
    QueryResults.map, QueryResults.forEach.
  rewrite execute_dirty by done. cbn [fst snd].
  assert (Hperm : Query.compute store q ≡ₚ matching).
  { apply NoDup_Permutation.
    - apply NoDup_compute.
    - apply NoDup_filter, (built_entries w Hw).
    - intros e. unfold matching. rewrite list_elem_of_filter.
      rewrite (compute_correct store q e (built_indexed w Hw)). tauto. }
  assert (Hnil : Query.compute store q = [] ↔ matching = []).
  { split; intros H; apply Permutation_nil.
    - by rewrite <-Hperm, H.
    - by rewrite Hperm, H. }
  split_and!; try done.
  - by rewrite Hperm.
  - rewrite bool_decide_eq_true, <-Hnil.
    by destruct (Query.compute store q).
  - rewrite <-Hnil. by destruct (Query.compute store q).
  - intros e He. rewrite <-Hperm.
    destruct (Query.compute store q) as [|x l]; [done|].
    injection He as ->. apply list_elem_of_here.
Qed.

Lemma views_count_the_matching_entities_witness :
  let w := default (World.new World.defaultConfig) CacheCoherence.churned in
  let q := {| Query.filters := [mkFilter FilterAll ["A"%string]];
              Query.cachedResults := Some [1%Z];
              Query.dirty := true |} in
  (QueryResults.count (World.componentStore w) q).2 = 1
  ∧ (QueryResults.first (World.componentStore w) q).2 = Some 2%Z.
Proof.
  intros w q. split; [|by vm_compute].
  assert (Hw : built w)
    by (apply CacheCoherence.built_churned; by vm_compute).
  destruct (views_count_the_matching_entities w q (λ e, e) (λ _ (n : nat), n)
              0 Hw eq_refl) as (H & _).
  rewrite H. by vm_compute.
Defined.

(** *** Descriptors that list the same components *)

Lemma leb_trans (a b c : string) :
  String.leb a b = true → String.leb b c = true → String.leb a c = true.
Proof.
  unfold String.leb. revert b c.
  induction a as [|c1 a IH]; intros [|c2 b] [|c3 c]; simpl; try done.
  destruct (Ascii.compare c1 c2) eqn:E12; [| |done].
  - apply Ascii.compare_eq_iff in E12 as ->.
    destruct (Ascii.compare c2 c3); [apply IH|done|done].
  - intros _. destruct (Ascii.compare c2 c3) eqn:E23; [| |done]; intros _.
    + apply Ascii.compare_eq_iff in E23 as <-. by rewrite E12.
    + unfold Ascii.compare in *.
      rewrite N.compare_lt_iff in E12, E23.
      by rewrite (proj2 (N.compare_lt_iff _ _) (N.lt_trans _ _ _ E12 E23)).
Qed.

Definition ascending (a b : string) : Prop := JsString.leb a b = true.

Lemma insert_perm x l : JsString.insert x l ≡ₚ x :: l.
Proof.
  induction l as [|y l IH]; simpl; [done|].
  destruct (JsString.leb x y); [done|]. rewrite IH. apply Permutation_swap.
Qed.

Lemma sort_perm l : JsString.sort l ≡ₚ l.
Proof.
  unfold JsString.sort. induction l as [|x l IH]; simpl; [done|].
  by rewrite insert_perm, IH.
Qed.

Lemma insert_ascending x l :
  StronglySorted ascending l → StronglySorted ascending (JsString.insert x l).
Proof.
  induction 1 as [|y l Hl IH Hy]; simpl.
  - constructor; [constructor|constructor].
  - destruct (JsString.leb x y) eqn:E.
    + constructor; [by constructor|]. constructor; [done|].
      eapply Forall_impl; [exact Hy|]. intros z Hz.
      by eapply leb_trans.
    + constructor; [done|]. rewrite insert_perm. constructor; [|done].
      unfold ascending, JsString.leb in *.
      by destruct (String.leb_total x y) as [H|H]; [rewrite H in E|].
Qed.

Lemma sort_ascending l : StronglySorted ascending (JsString.sort l).
Proof.
  unfold JsString.sort. induction l as [|x l IH]; simpl; [constructor|].
  by apply insert_ascending.
Qed.

Lemma ascending_refl x : ascending x x.
Proof. unfold ascending, JsString.leb. by destruct (String.leb_total x x). Qed.

Lemma ascending_unique l l' :
  StronglySorted ascending l → StronglySorted ascending l' → l ≡ₚ l' →
  l = l'.
Proof.
  intros Hl. revert l'. induction Hl as [|x t Ht IH Hx]; intros l' Hl' Hp.
  - by apply Permutation_nil in Hp.
  - destruct Hl' as [|y t' Ht' Hy].
    { symmetry in Hp. by apply Permutation_nil in Hp. }
    assert (Hxy : ascending x y).
    { assert (Hin : y ∈ x :: t)
        by (rewrite Hp; apply list_elem_of_here).
      apply elem_of_cons in Hin as [->|Hin]; [apply ascending_refl|].
      rewrite Forall_forall in Hx. by apply Hx. }
    assert (Hyx : ascending y x).
    { assert (Hin : x ∈ y :: t')
        by (rewrite <-Hp; apply list_elem_of_here).
      apply elem_of_cons in Hin as [->|Hin]; [apply ascending_refl|].
      rewrite Forall_forall in Hy. by apply Hy. }
    assert (x = y) as -> by (by apply String.leb_antisym).
    f_equal. apply IH; [done|]. by apply Permutation_cons_inv in Hp.
Qed.

Lemma sort_permutation l l' :
  l ≡ₚ l' → JsString.sort l = JsString.sort l'.
Proof.
  intros Hp. apply ascending_unique; try apply sort_ascending.
  by rewrite !sort_perm.
Qed.

(** The two lists are both absent, or hold the same components. *)
Definition same_components (a b : option (list ComponentId)) : Prop :=
  match a, b with
  | Some l, Some l' => l ≡ₚ l'
  | None, None => True
  | _, _ => False
  end.

Lemma key_part_same label a b :
  same_components a b →
  QueryCache.key_part label a = QueryCache.key_part label b
  ∧ JsString.sort <$> a = JsString.sort <$> b.
Proof.
  destruct a as [l|], b as [l'|]; simpl; try done.
  intros Hp. by rewrite (sort_permutation l l').
Qed.

(** X23. Descriptors that list the same components share one cached
    query: if [d] and [d'] have the same lists up to the order of the
    components, [getKey] gives them the same key, so [get(d')] after
    [get(d)] returns the query [get(d)] returned and constructs
    nothing. *)
Theorem permuted_descriptors_share_a_query d d' c :
  same_components (all d) (all d') →
  same_components (any d) (any d') →
  same_components (none d) (none d') →
  QueryCache.getKey d = QueryCache.getKey d'
  ∧ QueryCache.get d' (QueryCache.get d c).1 = QueryCache.get d c.
Proof.
  intros Ha Hy Hn.
  destruct (key_part_same "all:" _ _ Ha) as [Ka Sa].
  destruct (key_part_same "any:" _ _ Hy) as [Ky Sy].
  destruct (key_part_same "none:" _ _ Hn) as [Kn Sn].
  assert (Hkey : QueryCache.getKey d = QueryCache.getKey d').
  { unfold QueryCache.getKey. by rewrite Ka, Ky, Kn. }
  assert (Hsorted : QueryCache.sorted d = QueryCache.sorted d').
  { unfold QueryCache.sorted. by rewrite Sa, Sy, Sn. }
  split; [done|]. unfold QueryCache.get. rewrite <-Hkey, <-Hsorted.
  destruct (JsMap.get (QueryCache.getKey d) (QueryCache.queries c))
    as [q|] eqn:Hq; cbn [fst snd QueryCache.queries].
  - by rewrite Hq.
  - destruct (Query.new (QueryCache.sorted d)) as [query|] eqn:Hnew;
      cbn [fst snd QueryCache.queries].
    + by rewrite get_set_eq.
    + by rewrite Hq.
Qed.

Lemma permuted_descriptors_share_a_query_witness :
  let d := {| all := Some ["B"; "A"]%string; any := None; none := None |} in
  QueryCache.getKey d = QueryCache.getKey Scenario.both
  ∧ QueryCache.get Scenario.both (QueryCache.get d QueryCache.new).1
    = QueryCache.get d QueryCache.new.
Proof.
  intros d.
  apply (permuted_descriptors_share_a_query d Scenario.both QueryCache.new).
  - simpl. apply Permutation_swap.
  - done.
  - done.
Defined.

End QueryMore.
(** ** The component registry *)

Module RegistryFacts.
Import JsSetFacts JsMapFacts.
Import ComponentRegistry.

Lemma get_values {K V} `{EqDecision K} (m : list (K * V)) k v :
  JsMap.get k m = Some v → v ∈ JsMap.values m.
Proof.
  unfold JsMap.values. induction m as [|[k0 v0] m IH]; [done|].
  rewrite fmap_cons. simpl. destruct (decide (k = k0)) as [->|_].
  - intros [= ->]. apply list_elem_of_here.
  - intros Hk. by apply list_elem_of_further, IH.
Qed.

Lemma get_inj {K V} `{EqDecision K} (m : list (K * V)) i j v :
  NoDup (JsMap.values m) →
  JsMap.get i m = Some v → JsMap.get j m = Some v → i = j.
Proof.
  unfold JsMap.values. induction m as [|[k0 v0] m IH]; [done|].
  rewrite fmap_cons. simpl. intros [Hv Hnd]%NoDup_cons.
  destruct (decide (i = k0)) as [->|Hi], (decide (j = k0)) as [->|Hj];
    [done| | |by apply IH].
  - intros [= <-] Hj'. destruct Hv. by apply (get_values m j).
  - intros Hi' [= <-]. destruct Hv. by apply (get_values m i).
Qed.

(** The registries a program can reach: the empty one, and what each
    successful [defineComponent] leaves. *)
Inductive registered : ComponentRegistry.t → Prop :=
| registered_empty : registered empty
| registered_define name factory r r' ty :
    registered r →
    defineComponent name factory r = Defined r' ty →
    registered r'.

(** The two maps hold the same names, each under itself, and every
    class that was given its statics is still registered under the
    name they carry. *)
Record in_step (r : ComponentRegistry.t) : Prop := mkInStep {
  s_name : ∀ n i,
    JsMap.get n (componentNameToId r) = Some i → i = n;
  s_both : ∀ n,
    is_Some (JsMap.get n (componentNameToId r))
    ↔ is_Some (JsMap.get n (componentRegistry r));
  s_class : ∀ i cls,
    JsMap.get i (componentRegistry r) = Some cls →
    is_Some (JsMap.get cls (statics r));
  s_static : ∀ cls i n,
    JsMap.get cls (statics r) = Some (i, n) →
    n = i ∧ JsMap.get i (componentRegistry r) = Some cls
}.

Lemma defineComponent_inv name factory r r' ty :
  defineComponent name factory r = Defined r' ty →
  JsMap.get name (componentRegistry r) = None
  ∧ ∃ cls, factory = Some cls
    ∧ r' = {| statics := JsMap.set cls (name, name) (statics r);
              componentRegistry := JsMap.set name cls (componentRegistry r);
              componentNameToId :=
                JsMap.set name name (componentNameToId r) |}
    ∧ ty = {| id := name; name := name |}.
Proof.
  unfold defineComponent, JsMap.has.
  destruct (JsMap.get name (componentRegistry r)); [done|].
  destruct factory as [cls|]; [|done]. intros [= <- <-]. eauto.
Qed.

Lemma registered_in_step r : registered r → in_step r.
Proof.
  induction 1 as [|name factory r r' ty _ IH Hdef].
  - split; simpl; [done| |done|done].
    intros n. split; by intros [? ?].
  - apply defineComponent_inv in Hdef as (Hfree & c & -> & -> & ->).
    destruct IH as [H1 H2 H3 H4].
    split; cbn [statics componentRegistry componentNameToId].
    + intros n i. rewrite get_set.
      destruct (decide (n = name)) as [->|_]; [by intros [= <-]|apply H1].
    + intros n. rewrite !get_set.
      destruct (decide (n = name)); [by split; eauto|apply H2].
    + intros i cls. rewrite !get_set.
      destruct (decide (cls = c)) as [->|Hne]; [by eauto|].
      destruct (decide (i = name)) as [->|_]; [congruence|apply H3].
    + intros cls i n. rewrite !get_set.
      destruct (decide (cls = c)) as [->|Hne].
      * intros [= <- <-]. by rewrite decide_True.
      * intros Hcls. destruct (H4 cls i n Hcls) as [-> Hreg].
        split; [done|]. rewrite decide_False; [done|].
        intros ->. by pose proof (eq_trans (eq_sym Hreg) Hfree).
Qed.

(** X24. The registry of component classes. [defineComponent(name,
    ...)] throws 'already defined' exactly when the name is defined,
    whatever the factory does; a factory that throws leaves a free name
    free. In a registry built by [defineComponent], [getComponentId]
    answers a name with itself exactly when [getComponentClass] has a
    class for it, and a registered class carries as [componentId] and
    [componentName] one name under which it is registered: the
    name asked for, when no class was registered twice. *)
Theorem registry_lookups_agree r :
  registered r →
  (∀ name factory,
     defineComponent name factory r = ThrowsAlreadyDefined
     ↔ is_Some (getComponentId name r))
  ∧ (∀ name, getComponentId name r = None →
       defineComponent name None r = ThrowsFromFactory)
  ∧ (∀ name i, getComponentId name r = Some i → i = name)
  ∧ (∀ name, is_Some (getComponentId name r)
             ↔ is_Some (getComponentClass name r))
  ∧ (∀ i cls, getComponentClass i r = Some cls →
       ∃ j, componentIdOf cls r = Some j
            ∧ componentNameOf cls r = Some j
            ∧ getComponentClass j r = Some cls
            ∧ (NoDup (getAllComponents r) → j = i)).
Proof.
  intros [H1 H2 H3 H4]%registered_in_step.
  unfold getComponentId, getComponentClass, getAllComponents,
    componentIdOf, componentNameOf.
  split_and!.
  - intros name factory. unfold defineComponent, JsMap.has. rewrite H2.
    destruct (JsMap.get name (componentRegistry r)).
    + split; by eauto.
    + split; [by destruct factory|by intros [? ?]].
  - intros name Hfree. unfold defineComponent, JsMap.has.
    destruct (JsMap.get name (componentRegistry r)) as [cls|] eqn:Hcls;
      [|done].
    destruct (proj2 (H2 name) (ex_intro _ _ Hcls)) as [i Hi]. congruence.
  - intros name i. apply H1.
  - apply H2.
  - intros i cls Hcls. destruct (H3 i cls Hcls) as [[j n] Hst].
    destruct (H4 cls j n Hst) as [-> Hj].
    exists j. rewrite Hst. split_and!; [done|done|done|].
    intros Hnd. by apply (get_inj (componentRegistry r) j i cls).
Qed.

Lemma registry_lookups_agree_witness :
  let r := {| statics := [(7, ("Position", "Position"));
                          (9, ("Velocity", "Velocity"))];
              componentRegistry := [("Position", 7); ("Velocity", 9)];
              componentNameToId := [("Position", "Position");
                                    ("Velocity", "Velocity")] |}%string in
  registered r
  ∧ componentIdOf 9 r = Some "Velocity"%string
  ∧ (∀ i cls, getComponentClass i r = Some cls →
       ∃ j, componentIdOf cls r = Some j
            ∧ componentNameOf cls r = Some j
            ∧ getComponentClass j r = Some cls
            ∧ (NoDup (getAllComponents r) → j = i)).
Proof.
  intros r.
  assert (Hr : registered r).
  { apply (registered_define "Velocity" (Some 9)
             {| statics := [(7, ("Position", "Position"))];
                componentRegistry := [("Position", 7)];
                componentNameToId := [("Position", "Position")] |}%string
             r {| id := "Velocity"; name := "Velocity" |}%string);
      [|reflexivity].
    apply (registered_define "Position" (Some 7) empty _
             {| id := "Position"; name := "Position" |}%string);
      [apply registered_empty|reflexivity]. }
  split; [exact Hr|]. split; [reflexivity|].
  apply (registry_lookups_agree r Hr).
Defined.

(** X25. One class under two names. When [defineComponent] is given
    under a second name the class a first name already has, both names
    stay registered with that class, but the class now carries the
    second name as [componentId] and [componentName]: the class found
    under the first name no longer names it, and [getAllComponents]
    lists the class twice. *)
Theorem shared_class_carries_the_last_name r a b cls r1 ty1 r2 ty2 :
  defineComponent a (Some cls) r = Defined r1 ty1 →
  defineComponent b (Some cls) r1 = Defined r2 ty2 →
  a ≠ b
  ∧ getComponentClass a r2 = Some cls
  ∧ getComponentClass b r2 = Some cls
  ∧ componentIdOf cls r2 = Some b
  ∧ componentNameOf cls r2 = Some b
  ∧ id ty1 = a
  ∧ ¬ NoDup (getAllComponents r2).
Proof.
  intros (Ha & c1 & [= <-] & -> & ->)%defineComponent_inv
         (Hb & c2 & [= <-] & -> & ->)%defineComponent_inv.
  cbn [componentRegistry] in Hb. rewrite get_set in Hb.
  destruct (decide (b = a)) as [->|Hne]; [done|].
  unfold getComponentClass, componentIdOf, componentNameOf,
    getAllComponents.
  cbn [statics componentRegistry componentNameToId id].
  assert (Hga : JsMap.get a (JsMap.set b cls
                  (JsMap.set a cls (componentRegistry r))) = Some cls).
  { rewrite get_set_ne by done. apply get_set_eq. }
  assert (Hgb : JsMap.get b (JsMap.set b cls
                  (JsMap.set a cls (componentRegistry r))) = Some cls)
    by apply get_set_eq.
  split_and!; [done|done|done|by rewrite get_set_eq|by rewrite get_set_eq
              |done|].
  intros Hnd. apply Hne. by eapply get_inj.
Qed.

Lemma shared_class_carries_the_last_name_witness :
  let r1 := {| statics := [(7, ("Position", "Position"))];
               componentRegistry := [("Position", 7)];
               componentNameToId := [("Position", "Position")] |}%string in
  let r2 := {| statics := [(7, ("Place", "Place"))];
               componentRegistry := [("Position", 7); ("Place", 7)];
               componentNameToId := [("Position", "Position");
                                     ("Place", "Place")] |}%string in
  "Position"%string ≠ "Place"%string
  ∧ getComponentClass "Position" r2 = Some 7
  ∧ getComponentClass "Place" r2 = Some 7
  ∧ componentIdOf 7 r2 = Some "Place"%string
  ∧ componentNameOf 7 r2 = Some "Place"%string
  ∧ id {| id := "Position"; name := "Position" |} = "Position"%string
  ∧ ¬ NoDup (getAllComponents r2).
Proof.
  intros r1 r2.
  apply (shared_class_carries_the_last_name empty
           "Position" "Place" 7 r1 _ r2
           {| id := "Place"; name := "Place" |}%string);
    reflexivity.
Defined.

End RegistryFacts.
(** ** Defining systems *)

Module FactoryFacts.
Import JsSetFacts JsMapFacts.
Import SystemScheduler SystemFactory.

Lemma elem_of_foldl_add {A} `{EqDecision A} (l acc : list A) x :
  x ∈ foldl (λ acc y, JsSet.add y acc) acc l ↔ x ∈ acc ∨ x ∈ l.
Proof.
  revert acc. induction l as [|y l IH]; intros acc; simpl.
  - rewrite elem_of_nil. naive_solver.
  - rewrite IH, elem_of_add, elem_of_cons. naive_solver.
Qed.

Lemma elem_of_set_of {A} `{EqDecision A} (l : list A) x :
  x ∈ set_of l ↔ x ∈ l.
Proof.
  unfold set_of. rewrite elem_of_foldl_add, elem_of_nil. naive_solver.
Qed.

(** X26. A system from [defineSystem], added to a scheduler built
    through its methods: it has exactly the phases of the descriptor,
    only 'update' when the descriptor gives none and no phase at all
    when it gives an empty list, and it is enabled unless the
    descriptor says [enabled: false]. The next [executePhase] logs new
    calls only, and none of this system when the phase is not one of
    its phases or it was defined disabled. *)
Theorem defined_system_is_called_only_in_its_phases
    d fn system s s' p ctx h :
  defineSystem d fn = Plain system →
  SchedulerOrder.scheduled s →
  SystemScheduler.add system s = Some s' →
  (∀ q, System.hasPhase q system = true
        ↔ q ∈ default [SystemPhase.update] (SystemDescriptor.phases d))
  ∧ System.isEnabled system = default true (SystemDescriptor.enabled d)
  ∧ SystemScheduler.get (SystemDescriptor.id d) s' = Some system
  ∧ ∃ ids,
      calls (executePhase p ctx h s').1
      = calls s ++ ((λ i, (i, SchedulerFacts.in_phase p ctx)) <$> ids)
      ∧ (p ∉ default [SystemPhase.update] (SystemDescriptor.phases d)
         ∨ SystemDescriptor.enabled d = Some false →
         SystemDescriptor.id d ∉ ids).
Proof.
  intros Hdef Hs Hadd.
  assert (Hsys : system = newSystem d (System.fn system)).
  { unfold defineSystem in Hdef.
    destruct (SystemDescriptor.workerScript d) as [[|a script]|];
      destruct fn as [f|]; try done; by injection Hdef as <-. }
  assert (Hphase : ∀ q, System.hasPhase q system = true
            ↔ q ∈ default [SystemPhase.update] (SystemDescriptor.phases d)).
  { intros q. rewrite Hsys. unfold System.hasPhase, newSystem.
    cbn [System.phases]. by rewrite bool_decide_eq_true, elem_of_set_of. }
  assert (Hen : System.isEnabled system
                = default true (SystemDescriptor.enabled d))
    by (by rewrite Hsys).
  assert (Hid : System.id system = SystemDescriptor.id d)
    by (by rewrite Hsys).
  assert (Hget : SystemScheduler.get (SystemDescriptor.id d) s'
                 = Some system).
  { unfold SystemScheduler.add in Hadd.
    destruct (JsMap.has (System.id system) (systems s)); [done|].
    injection Hadd as <-. unfold SystemScheduler.get. cbn [systems].
    rewrite Hid. apply get_set_eq. }
  assert (Hcalls : calls s' = calls s).
  { unfold SystemScheduler.add in Hadd.
    destruct (JsMap.has (System.id system) (systems s)); [done|].
    by injection Hadd as <-. }
  split_and!; [done|done|done|].
  destruct (SchedulerOrder.executePhase_calls p ctx h s')
    as (ids & Hlog & _ & Hids);
    [by eapply SchedulerOrder.scheduled_add|].
  exists ids. split; [by rewrite Hlog, Hcalls|].
  intros Hout Hin. destruct (Hids _ Hin) as (system' & Hget' & He & Hp).
  rewrite Hget in Hget'. injection Hget' as <-.
  destruct Hout as [Hout|Hout].
  - by apply Hout, Hphase.
  - rewrite Hen, Hout in He. done.
Qed.

Lemma defined_system_is_called_only_in_its_phases_witness :
  let d := {| SystemDescriptor.id := "Idle"%string;
              SystemDescriptor.name := "Idle"%string;
              SystemDescriptor.phases := Some [];
              SystemDescriptor.priority := None;
              SystemDescriptor.enabled := None;
              SystemDescriptor.runBefore := None;
              SystemDescriptor.runAfter := None;
              SystemDescriptor.reactive := None;
              SystemDescriptor.workerScript := None;
              SystemDescriptor.onError := None |} in
  let system := newSystem d (λ _, None) in
  let s' := default SystemScheduler.new
              (SystemScheduler.add system SystemScheduler.new) in
  calls (executePhase SystemPhase.update Scenario.tick None s').1 = []
  ∧ (∀ q, System.hasPhase q system = true
          ↔ q ∈ default [SystemPhase.update] (SystemDescriptor.phases d))
  ∧ System.isEnabled system = default true (SystemDescriptor.enabled d)
  ∧ SystemScheduler.get (SystemDescriptor.id d) s' = Some system
  ∧ ∃ ids,
      calls (executePhase SystemPhase.update Scenario.tick None s').1
      = calls SystemScheduler.new
        ++ ((λ i, (i, SchedulerFacts.in_phase SystemPhase.update
                        Scenario.tick)) <$> ids)
      ∧ (SystemPhase.update
           ∉ default [SystemPhase.update] (SystemDescriptor.phases d)
         ∨ SystemDescriptor.enabled d = Some false →
         SystemDescriptor.id d ∉ ids).
Proof.
  intros d system s'. split; [by vm_compute|].
  apply (defined_system_is_called_only_in_its_phases
           d (Some (λ _, None)) system SystemScheduler.new s'
           SystemPhase.update Scenario.tick None).
  - reflexivity.
  - apply SchedulerOrder.scheduled_new.
  - reflexivity.
Defined.

End FactoryFacts.
